(** * gtinf: the [Coalseq] simulation pipeline and its window extractor

    A shallow embedding of [simulate.ipynb]: the class [Coalseq]
    ([_get_demography], [_get_popconfig], [write_trees], the loop of
    [write_seqs] up to the processes it starts, [build_seqs]) and the
    notebook functions [write_subseq] and [produce_subseqs].

    Conventions of the embedding.
    - Python integers are [Z]; the floats of the notebook (node heights,
      [Ne], interval lengths) are exact rationals [Q].  The properties below
      use their order and sign only; where one needs two times to differ,
      or names a number, it keeps to inputs on which the arithmetic of the
      code does not round ([exact_times]).
    - The file system is a finite map from paths to files, together with the
      set of directories and the lines printed so far.  A Python function
      with effects is a function [world -> outcome A * world]; an exception
      leaves behind the world it was raised in.
    - A [while] loop takes its fuel as an argument and answers [OutOfFuel] when
      the fuel runs out. *)

From Stdlib Require Import ZArith QArith Qround Lia Lqa Ascii String List Permutation.
From stdpp Require Import gmap strings pretty list sorting.

Local Open Scope Z_scope.

(** ** Python values and builtins *)

Module Py.

(** The error names of the specification's taxonomy.  No statement of the
    notebook raises any of them; they are here so that a property that names
    one can be stated at all. *)
Inductive taxonomy :=
| InvalidTreeError | SimulationError | MissingLengthError
| SequenceGenerationError | MalformedFragmentError | FragmentShapeError
| InvalidWindowError | ExternalToolTimeoutError.

(** The builtin exceptions that the modelled statements can raise. *)
Inductive exn :=
| IOError | KeyError | IndexError | ValueError | TypeError | RuntimeError
| OverflowError | ZeroDivisionError
| Declared (e : taxonomy).

Inductive outcome (A : Type) :=
| Returned (a : A)
| Raised (e : exn)
| OutOfFuel.
Global Arguments Returned {A} a.
Global Arguments Raised {A} e.
Global Arguments OutOfFuel {A}.

(** [str(n)] for an integer. *)
Definition str (n : Z) : string := pretty n.

Definition nl : string := String "010"%char "".

(** [' ' * n]; a count below one gives the empty string. *)
Fixpoint spaces (n : nat) : string :=
  match n with
  | O => ""
  | S n' => String " "%char (spaces n')
  end.

Fixpoint join (l : list string) : string :=
  match l with
  | [] => ""
  | s :: l' => s +:+ join l'
  end.

(** One bound of [slice.indices(len)] for a step of one: a negative bound
    counts from the end, and the result is clipped into [0 .. len]. *)
Definition slice_bound (len i : Z) : Z :=
  if i <? 0 then Z.max 0 (i + len) else Z.min i len.

(** [l[start:stop]]. *)
Definition slice {A} (l : list A) (start stop : Z) : list A :=
  let len := Z.of_nat (length l) in
  let a := slice_bound len start in
  let b := slice_bound len stop in
  take (Z.to_nat (b - a)) (drop (Z.to_nat a) l).

(** [s.split(c)] for a single separator character: never empty, and two
    adjacent separators give an empty field. *)
Fixpoint split_go (c : ascii) (cur : string) (s : string) : list string :=
  match s with
  | EmptyString => [String.rev cur]
  | String a s' =>
      if Ascii.eqb a c then String.rev cur :: split_go c "" s'
      else split_go c (String a cur) s'
  end.
Definition split (c : ascii) (s : string) : list string := split_go c "" s.

Definition digit (a : ascii) : option Z :=
  match Ascii.is_nat a with
  | Some d => Some (Z.of_nat d)
  | None => None
  end.

Fixpoint digits (acc : Z) (s : string) : option Z :=
  match s with
  | EmptyString => Some acc
  | String a s' =>
      match digit a with
      | Some d => digits (10 * acc + d) s'
      | None => None
      end
  end.

Fixpoint lstrip (s : string) : string :=
  match s with
  | String a s' => if Ascii.is_space a then lstrip s' else s
  | EmptyString => s
  end.
Definition strip (s : string) : string :=
  String.rev (lstrip (String.rev (lstrip s))).

(** [int(s)] on a string, base ten: blanks around, an optional sign, and at
    least one digit.  [None] stands for the [ValueError]. *)
Definition int (s : string) : option Z :=
  match strip s with
  | EmptyString => None
  | String "-"%char (String a r) => Z.opp <$> digits 0 (String a r)
  | String "+"%char (String a r) => digits 0 (String a r)
  | String a r => digits 0 (String a r)
  end.

(** [l[i]] for a non-negative constant index. *)
Definition index {A} (l : list A) (i : nat) : exn + A :=
  match l !! i with
  | Some x => inr x
  | None => inl IndexError
  end.

End Py.

Import Py.

(** ** Files, HDF5 tables and the world

    Failures of the operating system itself (a missing parent directory,
    a full disk, permissions) are outside the model: creating a directory
    and opening a file for writing succeed. *)

(** The datasets that the pipeline stores: a vector of [int64], and a table
    of single characters ([dtype] [S1]) of shape [(length rows, ncols)].
    The empty cell of such a table is the zero byte. *)
Inductive dataset :=
| IntVector (xs : list Z)
| CharTable (ncols : nat) (rows : list (list ascii)).

Inductive file :=
| Text (s : string)
| Hdf5 (d : gmap string dataset).

Record world := World {
  files : gmap string file;
  dirs : gset string;
  stdout : list string
}.

Definition M (A : Type) : Type := world → outcome A * world.

Definition ret {A} (a : A) : M A := λ w, (Returned a, w).
Definition raise {A} (e : exn) : M A := λ w, (Raised e, w).
Definition out_of_fuel {A} : M A := λ w, (OutOfFuel, w).
Definition bind {A B} (m : M A) (f : A → M B) : M B := λ w,
  match m w with
  | (Returned a, w') => f a w'
  | (Raised e, w') => (Raised e, w')
  | (OutOfFuel, w') => (OutOfFuel, w')
  end.

Declare Scope py_scope.
Delimit Scope py_scope with py.
Notation "x <- m ;; k" := (bind m (λ x, k))
  (at level 100, m at next level, right associativity) : py_scope.
Notation "m ;;; k" := (bind m (λ _, k))
  (at level 100, right associativity) : py_scope.
Local Open Scope py_scope.

Definition lift {A} (r : exn + A) : M A :=
  match r with
  | inl e => raise e
  | inr a => ret a
  end.

(** [print(s)]. *)
Definition print (s : string) : M unit := λ w,
  (Returned tt, World (files w) (dirs w) (stdout w ++ [s])).

(** [if not os.path.exists(d): os.mkdir(d); print(...)]. *)
Definition path_exists (p : string) (w : world) : bool :=
  bool_decide (p ∈ dirs w) || bool_decide (is_Some (files w !! p)).

Definition ensure_dir (d : string) : M unit := λ w,
  if path_exists d w then (Returned tt, w)
  else print ("Directory '" +:+ d +:+ "' created.")
         (World (files w) ({[d]} ∪ dirs w) (stdout w)).

(** [open(p, 'w')]: the file exists and is empty from here on. *)
Definition open_w (p : string) : M unit := λ w,
  (Returned tt, World (<[p := Text ""]> (files w)) (dirs w) (stdout w)).

(** [f.write(s)] on a file opened for writing. *)
Definition f_write (p : string) (s : string) : M unit := λ w,
  match files w !! p with
  | Some (Text old) =>
      (Returned tt, World (<[p := Text (old +:+ s)]> (files w)) (dirs w) (stdout w))
  | _ => (Raised IOError, w)
  end.

(** [open(p, 'r').read()]. *)
Definition read_text (p : string) : M string := λ w,
  match files w !! p with
  | Some (Text s) => (Returned s, w)
  | _ => (Raised IOError, w)
  end.

(** [h5py.File(p)]: the default mode opens the file for reading and writing
    and creates it when it is missing. *)
Definition h5_open (p : string) : M unit := λ w,
  match files w !! p with
  | Some (Hdf5 _) => (Returned tt, w)
  | Some (Text _) => (Raised IOError, w)
  | None => (Returned tt, World (<[p := Hdf5 ∅]> (files w)) (dirs w) (stdout w))
  end.

(** [h5py.File(p, 'r')]. *)
Definition h5_open_r (p : string) : M unit := λ w,
  match files w !! p with
  | Some (Hdf5 _) => (Returned tt, w)
  | _ => (Raised IOError, w)
  end.

(** [h5py.File(p, 'w')]: truncates. *)
Definition h5_open_w (p : string) : M unit := λ w,
  (Returned tt, World (<[p := Hdf5 ∅]> (files w)) (dirs w) (stdout w)).

(** [f[name]] on an open table file. *)
Definition h5_get (p name : string) : M dataset := λ w,
  match files w !! p with
  | Some (Hdf5 d) =>
      match d !! name with
      | Some ds => (Returned ds, w)
      | None => (Raised KeyError, w)
      end
  | _ => (Raised IOError, w)
  end.

(** [f[name] = array]: creating a dataset under a name that is taken is an
    error of the library. *)
Definition h5_set (p name : string) (ds : dataset) : M unit := λ w,
  match files w !! p with
  | Some (Hdf5 d) =>
      match d !! name with
      | Some _ => (Raised RuntimeError, w)
      | None =>
          (Returned tt,
           World (<[p := Hdf5 (<[name := ds]> d)]> (files w)) (dirs w) (stdout w))
      end
  | _ => (Raised IOError, w)
  end.

(** [ds.shape[0]] and [ds.shape[1]]. *)
Definition shape0 (ds : dataset) : Z :=
  match ds with
  | IntVector xs => Z.of_nat (length xs)
  | CharTable _ rows => Z.of_nat (length rows)
  end.
Definition shape1 (ds : dataset) : exn + Z :=
  match ds with
  | IntVector _ => inl IndexError
  | CharTable ncols _ => inr (Z.of_nat ncols)
  end.

(** Every row of a table has [ncols] cells. *)
Definition table_wf (ds : dataset) : Prop :=
  match ds with
  | IntVector _ => True
  | CharTable ncols rows => Forall (λ r, length r = ncols) rows
  end.

(** ** Window extractor: [write_subseq] and [produce_subseqs] *)

(** [ds[:, startidx:endidx]]; only a table has a second axis.  The bounds
    are those of [slice.indices] over the columns of the table, and the
    table library refuses a selection whose end lies before its start with a
    [ValueError]; an empty selection is read as empty rows. *)
Definition columns (ds : dataset) (startidx endidx : Z) : exn + list (list ascii) :=
  match ds with
  | IntVector _ => inl IndexError
  | CharTable ncols rows =>
      if slice_bound (Z.of_nat ncols) endidx <? slice_bound (Z.of_nat ncols) startidx
      then inl ValueError
      else inr ((λ r, slice r startidx endidx) <$> rows)
  end.

(** [''.join(i)] over a row read back from the table: an empty cell reads
    as the empty string. *)
Definition join_cells (r : list ascii) : string :=
  string_of_list_ascii (filter (λ c, c ≠ Ascii.zero) r).

(** [str(idx+1) + ' '*(10-len(str(idx+1)))]. *)
Definition taxon_id (idx : nat) : string :=
  let s := str (Z.of_nat idx + 1) in
  s +:+ spaces (10 - String.length s).

(** The lines of the rows of a table file, one taxon after the other:
    [f.write(str(idx+1) + ...); f.write("\n"); f.write(seq); f.write("\n")]. *)
Fixpoint write_taxa (p : string) (idx : nat) (seqs : list string) : M unit :=
  match seqs with
  | [] => ret tt
  | seq :: seqs' =>
      f_write p (taxon_id idx) ;;;
      f_write p nl ;;;
      f_write p seq ;;;
      f_write p nl ;;;
      write_taxa p (S idx) seqs'
  end.

Definition write_subseq (full_seq_path output_seq_path : string)
    (startidx endidx : Z) : M unit :=
  h5_open full_seq_path ;;;
  open_w output_seq_path ;;;
  hd <- h5_get full_seq_path "alignment" ;;
  f_write output_seq_path
    (" " +:+ str (shape0 hd) +:+ " " +:+ str (endidx - startidx)) ;;;
  f_write output_seq_path nl ;;;
  ds <- h5_get full_seq_path "alignment" ;;
  rows <- lift (columns ds startidx endidx) ;;
  write_taxa output_seq_path 0 (join_cells <$> rows).

(** The variables of the loop of [produce_subseqs]. *)
Record slider := Slider {
  index_nums : list Z;
  index_starts : list Z;
  index_ends : list Z;
  startidx : Z;
  num : Z
}.

Definition window_path (directory_name : string) (n s e : Z) : string :=
  directory_name +:+ "/" +:+ str n +:+ "_" +:+ str s +:+ "_" +:+ str e +:+ ".fa".

(** [while startidx <= startlimit: ...]. *)
Fixpoint slide (fuel : nat) (window_size slide_interval : Z)
    (full_seq_path directory_name : string) (startlimit : Z) (st : slider)
    : M slider :=
  match fuel with
  | O => out_of_fuel
  | S fuel' =>
      if startidx st <=? startlimit then
        let endidx := startidx st + window_size in
        write_subseq full_seq_path
          (window_path directory_name (num st) (startidx st) endidx)
          (startidx st) endidx ;;;
        slide fuel' window_size slide_interval full_seq_path directory_name
          startlimit
          (Slider (index_nums st ++ [num st])
                  (index_starts st ++ [startidx st])
                  (index_ends st ++ [endidx])
                  (startidx st + slide_interval)
                  (num st + 1))
      else ret st
  end.

Definition index_path (directory_name : string) : string :=
  directory_name +:+ "/_index.hdf5".

Definition produce_subseqs (fuel : nat) (window_size slide_interval : Z)
    (full_seq_path directory_name : string) : M unit :=
  ensure_dir directory_name ;;;
  h5_open full_seq_path ;;;
  ds <- h5_get full_seq_path "alignment" ;;
  total_len <- lift (shape1 ds) ;;
  let startlimit := total_len - window_size in
  st <- slide fuel window_size slide_interval full_seq_path directory_name
          startlimit (Slider [] [] [] 0 0) ;;
  st' <- (if startidx st <? total_len then
            write_subseq full_seq_path
              (window_path directory_name (num st) startlimit total_len)
              startlimit total_len ;;;
            ret (Slider (index_nums st ++ [num st])
                        (index_starts st ++ [startlimit])
                        (index_ends st ++ [total_len])
                        (startidx st) (num st))
          else ret st) ;;
  h5_open (index_path directory_name) ;;;
  h5_set (index_path directory_name) "nums" (IntVector (index_nums st')) ;;;
  h5_set (index_path directory_name) "starts" (IntVector (index_starts st')) ;;;
  h5_set (index_path directory_name) "ends" (IntVector (index_ends st')).

(** ** Sorting *)

(** [sorted(l, key=...)] and [np.sort]: a stable sort, written as an
    insertion sort over a boolean order. *)
Section Sorting.
Context {A : Type} (leb : A → A → bool).

Fixpoint insert_sorted (x : A) (l : list A) : list A :=
  match l with
  | [] => [x]
  | y :: l' => if leb x y then x :: y :: l' else y :: insert_sorted x l'
  end.

Definition sorted (l : list A) : list A := foldr insert_sorted [] l.

End Sorting.

(** ** Species trees and the [Coalseq] object *)

(** A node of the species tree as the tree library hands it over: its
    index, its height, its children, and the scratch attribute [_schild]
    that [_get_demography] attaches ([None] while it is unset). *)
Local Unset Elimination Schemes.
Inductive TreeNode := Node {
  idx : Z;
  height : Q;
  _schild : option Z;
  children : list TreeNode
}.
Local Set Elimination Schemes.

(** A local tree of the simulated tree sequence: its Newick text and the
    length of its interval, a float. *)
Record SparseTree := MkSparseTree {
  newick : string;
  get_length : Q
}.

(** The attributes of the object that the methods below read; [tree] is
    the root node [self.tree.treenode], [self_ntips] is [self.ntips]. *)
Record Coalseq := MkCoalseq {
  dirname : string;
  self_ntips : nat;
  _theta : Q;
  _mut : Q;
  tree : TreeNode;
  treeseq : list SparseTree
}.

(** The property [_Ne], [(self._theta / self._mut) / 4.]: [_Ne] is its
    value, and [eval_Ne] what reading the property does, which is a
    [ZeroDivisionError] for a [mut] of zero. *)
Definition _Ne (self : Coalseq) : Q := ((_theta self / _mut self) / 4)%Q.

Definition eval_Ne (self : Coalseq) : exn + Q :=
  if Qeq_bool (_mut self) 0 then inl ZeroDivisionError else inr (_Ne self).

Definition num_trees (self : Coalseq) : nat := length (treeseq self).

(** [treeseq.get_sequence_length()]: the intervals tile the chromosome. *)
Definition sequence_length (ts : list SparseTree) : Q :=
  foldr Qplus 0%Q (get_length <$> ts).

(** ** Demographic model builder: [Coalseq._get_demography] *)

Fixpoint size (n : TreeNode) : nat := S (list_sum (size <$> children n)).

(** [node.traverse()]: level order, the node itself first. *)
Fixpoint traverse_queue (fuel : nat) (queue : list TreeNode) : list TreeNode :=
  match fuel, queue with
  | S fuel', n :: q => n :: traverse_queue fuel' (q ++ children n)
  | _, _ => []
  end.
Definition forest_size (l : list TreeNode) : nat := list_sum (size <$> l).
Definition traverse (n : TreeNode) : list TreeNode :=
  traverse_queue (size n) [n].

(** [node.get_descendants()]: every node below, the node itself left out. *)
Definition get_descendants (n : TreeNode) : list TreeNode :=
  traverse_queue (forest_size (children n)) (children n).

(** [min(l)] and [max(l)]; [None] on the empty list. *)
Definition minimum (l : list Z) : option Z :=
  match l with
  | [] => None
  | x :: l' => Some (foldl Z.min x l')
  end.
Definition maximum (l : list Z) : option Z :=
  match l with
  | [] => None
  | x :: l' => Some (foldl Z.max x l')
  end.

(** The first loop.  It visits every node once and stores a value that
    depends on indices only, so that it leaves the same tree with the
    attribute set on every node. *)
Fixpoint tag_schild (n : TreeNode) : TreeNode :=
  Node (idx n) (height n)
    (match children n with
     | [] => Some (idx n)
     | _ :: _ => minimum (idx <$> get_descendants n)
     end)
    (tag_schild <$> children n).

Record MassMigration := MkMassMigration {
  time : Q;
  source : Z;
  dest : Z
}.

(** The attribute of every child, or nothing when one of them lacks it. *)
Fixpoint schilds (l : list TreeNode) : option (list Z) :=
  match l with
  | [] => Some []
  | c :: l' =>
      match _schild c, schilds l' with
      | Some s, Some r => Some (s :: r)
      | _, _ => None
      end
  end.

(** The body of the second loop for one node with children. *)
Definition divergence (Ne : Q) (n : TreeNode) : option MassMigration :=
  match schilds (children n) with
  | Some l =>
      match minimum l, maximum l with
      | Some d, Some s => Some (MkMassMigration (height n * 2 * Ne) s d)
      | _, _ => None
      end
  | None => None
  end.

(** The set [demog], kept as the list of its members in the order in which
    they were added.  An event is an object of the simulation library, which
    defines neither equality nor a hash for it: the set compares events by
    identity, every [MassMigration(...)] is a new object, and [demog.add]
    never merges two of them, whatever their fields. *)
Definition set_add (e : MassMigration) (demog : list MassMigration)
    : list MassMigration :=
  demog ++ [e].

(** The second loop; [Ne] is what reading [self._Ne] gives, and it is read
    at every node with children. *)
Fixpoint add_divergences (Ne : exn + Q) (l : list TreeNode)
    (demog : list MassMigration) : option (list MassMigration) :=
  match l with
  | [] => Some demog
  | n :: l' =>
      match children n with
      | [] => add_divergences Ne l' demog
      | _ :: _ =>
          match Ne with
          | inl _ => None
          | inr ne =>
              match divergence ne n with
              | Some e => add_divergences Ne l' (set_add e demog)
              | None => None
              end
          end
      end
  end.

Definition by_time (a b : MassMigration) : bool := Qle_bool (time a) (time b).

(** The method.  [set_order] is the order in which [list(demog)] enumerates
    the set; [None] stands for an exception: the [ZeroDivisionError] of
    [_Ne], or a missing attribute or the minimum of an empty list, neither
    of which the two loops can meet.  The trace that the hidden [_debug]
    argument sends to the error stream is left out. *)
Definition _get_demography
    (set_order : list MassMigration → list MassMigration)
    (self : Coalseq) : option (list MassMigration) :=
  match add_divergences (eval_Ne self) (traverse (tag_schild (tree self))) [] with
  | Some demog => Some (sorted by_time (set_order demog))
  | None => None
  end.

(** A tip is a node without children. *)
Definition is_leaf (n : TreeNode) : bool :=
  match children n with
  | [] => true
  | _ :: _ => false
  end.

(** The species trees of the data model: indices are unique, tips sit at
    height zero, and no node is higher than its parent. *)
Fixpoint heights_ok (n : TreeNode) : Prop :=
  (children n = [] → (height n == 0)%Q) ∧
  (fix go (l : list TreeNode) : Prop :=
     match l with
     | [] => True
     | c :: l' => (height c <= height n)%Q ∧ heights_ok c ∧ go l'
     end) (children n).

Fixpoint arity_ok (P : nat → Prop) (n : TreeNode) : Prop :=
  P (length (children n)) ∧
  (fix go (l : list TreeNode) : Prop :=
     match l with
     | [] => True
     | c :: l' => arity_ok P c ∧ go l'
     end) (children n).

Definition bifurcating : TreeNode → Prop :=
  arity_ok (λ k, k = 0%nat ∨ k = 2%nat).
Definition branching : TreeNode → Prop :=
  arity_ok (λ k, k ≠ 1%nat).

Definition unique_idx (n : TreeNode) : Prop := NoDup (idx <$> traverse n).

(** ** Genealogy serializer: [Coalseq.write_trees] *)

(** [int(x)] on a float: the fraction is dropped. *)
Definition truncate (x : Q) : Z :=
  if Qle_bool 0 x then Qfloor x else Qceiling x.

(** [np.int64(x)] on a float: the fraction is dropped, and a value outside
    the range of the type is an [OverflowError]. *)
Definition np_int64 (x : Q) : exn + Z :=
  let z := truncate x in
  if (- 2 ^ 63 <=? z) && (z <? 2 ^ 63) then inr z else inl OverflowError.

(** The loop of [write_trees], with its [counter] and its [lengths]. *)
Fixpoint write_tree_files (dirname_genetrees : string) (trees : list SparseTree)
    (counter : Z) (lengths : list Z) : M (list Z) :=
  match trees with
  | [] => ret lengths
  | t :: trees' =>
      let p := dirname_genetrees +:+ "/" +:+ str counter +:+ ".phy" in
      open_w p ;;;
      f_write p (newick t) ;;;
      n <- lift (np_int64 (get_length t)) ;;
      write_tree_files dirname_genetrees trees' (counter + 1) (lengths ++ [n])
  end.

Definition lengths_path (dirname : string) : string :=
  dirname +:+ "/ms_genetree_lengths.hdf5".

Definition write_trees (self : Coalseq) : M unit :=
  let dirname_genetrees := dirname self +:+ "/ms_genetrees" in
  ensure_dir dirname_genetrees ;;;
  lengths <- write_tree_files dirname_genetrees (treeseq self) 0 [] ;;
  h5_open_w (lengths_path (dirname self)) ;;;
  h5_set (lengths_path (dirname self)) "lengths" (IntVector lengths).

(** How [write_seqs] reads the table back:
    [h5py.File(dirname+'/ms_genetree_lengths.hdf5','r')['lengths']]. *)
Definition load_lengths (self : Coalseq) : M dataset :=
  h5_open_r (lengths_path (dirname self)) ;;;
  h5_get (lengths_path (dirname self)) "lengths".

(** ** Alignment assembler: [Coalseq.build_seqs] *)

Definition fragment_path (dirname : string) (i : Z) : string :=
  dirname +:+ "/seqs/" +:+ str i +:+ ".fa".

(** [int(line.split(' ')[2])]: an [IndexError] when the line has fewer than
    three fields, a [ValueError] when the third is no integer. *)
Definition header_length (line : string) : exn + Z :=
  match index (split " " line) 2 with
  | inl e => inl e
  | inr field =>
      match int field with
      | Some n => inr n
      | None => inl ValueError
      end
  end.

(** ['there was an error: ' + tst.split(' ')]: a string and a list do not
    add up. *)
Definition str_plus_list (s : string) (l : list string) : exn + string :=
  inl TypeError.

(** The [except] clause of the first loop:
    [print('there was an error: '+tst.split(' '))]; the count stays as it
    is. *)
Definition except_clause (tst : string) (seq_len : Z) : M Z :=
  msg <- lift (str_plus_list "there was an error: " (split " " tst)) ;;
  print msg ;;;
  ret seq_len.

(** The first loop: the total length, one fragment header at a time.  The
    [try] catches whatever the conversion raises, and the [except] clause
    runs. *)
Fixpoint count_columns (dirname : string) (range : list Z) (seq_len : Z)
    : M Z :=
  match range with
  | [] => ret seq_len
  | i :: range' =>
      text <- read_text (fragment_path dirname i) ;;
      tst <- lift (index (split "010" text) 0) ;;
      seq_len' <- match header_length tst with
                  | inr n => ret (seq_len + n)
                  | inl _ => except_clause tst seq_len
                  end ;;
      count_columns dirname range' seq_len'
  end.

(** [np.zeros((ntips, seq_len), dtype=np.str)]. *)
Definition np_zeros (ntips : nat) (seq_len : Z) : exn + list (list ascii) :=
  if seq_len <? 0 then inl ValueError
  else inr (replicate ntips (replicate (Z.to_nat seq_len) Ascii.zero)).

(** [row[start:stop] = values]: the values fill the slice when there are as
    many of them as the slice has cells, and a single value is repeated. *)
Definition assign_slice (row : list ascii) (start stop : Z)
    (values : list ascii) : exn + list ascii :=
  let len := Z.of_nat (length row) in
  let a := Z.to_nat (slice_bound len start) in
  let m := Z.to_nat (slice_bound len stop - slice_bound len start) in
  if bool_decide (length values = m) then
    inr (take a row ++ values ++ drop (a + m) row)
  else
    match values with
    | [v] => inr (take a row ++ replicate m v ++ drop (a + m) row)
    | _ => inl ValueError
    end.

(** [for idx, indiv_seq in enumerate(myseq): seq_arr[idx][...] = ...]. *)
Fixpoint fill_rows (seq_arr : list (list ascii)) (idx : nat)
    (myseq : list string) (counter lenseq : Z) : exn + list (list ascii) :=
  match myseq with
  | [] => inr seq_arr
  | indiv_seq :: myseq' =>
      match seq_arr !! idx with
      | None => inl IndexError
      | Some row =>
          match assign_slice row counter (counter + lenseq)
                  (drop 10 (list_ascii_of_string indiv_seq)) with
          | inl e => inl e
          | inr row' =>
              fill_rows (<[idx := row']> seq_arr) (S idx) myseq' counter lenseq
          end
      end
  end.

(** [l[:-1]]. *)
Definition but_last {A} (l : list A) : list A := take (length l - 1) l.

(** The second loop: the lines of every fragment are sorted as strings, the
    first one is read as the header, the others fill the rows in order. *)
Fixpoint fill_fragments (dirname : string) (range : list Z)
    (seq_arr : list (list ascii)) (counter : Z) : M (list (list ascii)) :=
  match range with
  | [] => ret seq_arr
  | i :: range' =>
      text <- read_text (fragment_path dirname i) ;;
      let myseq := sorted String.leb (but_last (split "010" text)) in
      first <- lift (index myseq 0) ;;
      lenseq <- lift (header_length first) ;;
      seq_arr' <- lift (fill_rows seq_arr 0 (drop 1 myseq) counter lenseq) ;;
      fill_fragments dirname range' seq_arr' (counter + lenseq)
  end.

(** [range(n)]. *)
Definition range (n : nat) : list Z := Z.of_nat <$> seq 0 n.

(** The array that the two loops of [build_seqs] assemble. *)
Definition assemble (self : Coalseq) : M (Z * list (list ascii)) :=
  seq_len <- count_columns (dirname self) (range (num_trees self)) 0 ;;
  zeros <- lift (np_zeros (self_ntips self) seq_len) ;;
  seq_arr <- fill_fragments (dirname self) (range (num_trees self)) zeros 0 ;;
  ret (seq_len, seq_arr).

(** The method.  [f.write(seq)] of a row of the array writes its bytes as
    they are. *)
Definition build_seqs (self : Coalseq) (filename : string) (hdf5 : bool)
    : M unit :=
  arr <- assemble self ;;
  let seq_len := arr.1 in
  let seq_arr := arr.2 in
  (if negb hdf5 then
     let p := dirname self +:+ "/" +:+ filename +:+ ".fa" in
     open_w p ;;;
     f_write p (" " +:+ str (Z.of_nat (self_ntips self)) +:+ " " +:+ str seq_len) ;;;
     f_write p nl ;;;
     write_taxa p 0 (string_of_list_ascii <$> seq_arr)
   else
     let p := dirname self +:+ "/" +:+ filename +:+ ".hdf5" in
     h5_open p ;;;
     h5_set p "alignment" (CharTable (Z.to_nat seq_len) seq_arr)) ;;;
  print "Written full alignment.".

(** ** Populations of the simulation: [Coalseq._get_popconfig] *)

Record PopulationConfiguration := MkPopulationConfiguration {
  sample_size : Z;
  initial_size : Q;
  growth_rate : Q
}.

(** [ms.PopulationConfiguration(sample_size=..., initial_size=...)]: the
    library refuses an initial size that is not positive, and a negative
    sample size, with a [ValueError]; the growth rate is left at zero. *)
Definition population_configuration (sample_size : Z) (initial_size : Q)
    : exn + PopulationConfiguration :=
  if Qle_bool initial_size 0 then inl ValueError
  else if sample_size <? 0 then inl ValueError
  else inr (MkPopulationConfiguration sample_size initial_size 0).

(** [[f(x) for x in l]]: the first element that raises ends the list. *)
Fixpoint comprehension {A B} (f : A → exn + B) (l : list A) : exn + list B :=
  match l with
  | [] => inr []
  | x :: l' =>
      match f x with
      | inl e => inl e
      | inr y =>
          match comprehension f l' with
          | inl e => inl e
          | inr ys => inr (y :: ys)
          end
      end
  end.

(** One population of one sample for every tip, all of size [_Ne], which
    is read for every one of them. *)
Definition _get_popconfig (self : Coalseq) : exn + list PopulationConfiguration :=
  comprehension (λ ntip : Z,
                   match eval_Ne self with
                   | inl e => inl e
                   | inr Ne => population_configuration 1 Ne
                   end)
    (range (self_ntips self)).

(** ** Sequence generator driver: the loop of [Coalseq.write_seqs] *)

(** [s[start:stop]] on a string. *)
Definition str_slice (s : string) (start stop : Z) : string :=
  string_of_list_ascii (slice (list_ascii_of_string s) start stop).

(** [v[k]] on a vector of the table library: a negative index counts from
    the end, and an index outside the vector is a [ValueError]. *)
Definition vector_item (v : list Z) (k : Z) : exn + Z :=
  let n := Z.of_nat (length v) in
  let k' := if k <? 0 then n + k else k in
  if (0 <=? k') && (k' <? n) then
    match v !! Z.to_nat k' with
    | Some x => inr x
    | None => inl ValueError
    end
  else inl ValueError.

(** What one turn of the loop hands to the two processes and depends on the
    turn: the tree file and the [-l] option of [seq-gen], and the file that
    [tee] writes.  The other options ([-m GTR], [-s] with the mutation rate)
    are the same at every turn. *)
Record seqgen_call := MkSeqgenCall {
  treefile : string;
  l_option : string;
  tee_file : string
}.

(** One turn of the loop for the directory entry [i], over the vector
    [lengths] that [lengthsfile['lengths']] holds:
    [num = i[:-4]], [length = str(lengths[np.int(num)])], and the paths of
    the two commands.  The processes themselves are not modelled. *)
Definition seqgen_call_of (dirname : string) (lengths : list Z) (i : string)
    : exn + seqgen_call :=
  let dirname_seqs := dirname +:+ "/seqs" in
  let num := str_slice i 0 (-4) in
  match int num with
  | None => inl ValueError
  | Some k =>
      match vector_item lengths k with
      | inl e => inl e
      | inr x =>
          inr (MkSeqgenCall (dirname +:+ "/ms_genetrees/" +:+ i) (str x)
                 (dirname_seqs +:+ "/" +:+ num +:+ ".fa"))
      end
  end.


(** ** Observations used in the statements *)

(** *** Windows *)

(** A window of the index: its number, its start and its end. *)
Definition window : Type := Z * Z * Z.
Definition w_num (x : window) : Z := x.1.1.
Definition w_start (x : window) : Z := x.1.2.
Definition w_end (x : window) : Z := x.2.

(** The three columns of [_index.hdf5], read back row by row. *)
Definition read_index (directory_name : string) (w : world)
    : option (list window) :=
  match files w !! index_path directory_name with
  | Some (Hdf5 d) =>
      match d !! "nums", d !! "starts", d !! "ends" with
      | Some (IntVector ns), Some (IntVector ss), Some (IntVector es) =>
          Some (zip (zip ns ss) es)
      | _, _, _ => None
      end
  | _ => None
  end.

(** The text of the file that [write_subseq] leaves for a column range: the
    header, then an identifier line and a sequence line for every row. *)
Definition subseq_header (ds : dataset) (startidx endidx : Z) : string :=
  " " +:+ str (shape0 ds) +:+ " " +:+ str (endidx - startidx) +:+ nl.

Fixpoint taxon_lines (idx : nat) (seqs : list string) : string :=
  match seqs with
  | [] => ""
  | s :: seqs' => taxon_id idx +:+ nl +:+ s +:+ nl +:+ taxon_lines (S idx) seqs'
  end.

Definition subseq_text (ds : dataset) (startidx endidx : Z) : string :=
  match columns ds startidx endidx with
  | inr rows =>
      subseq_header ds startidx endidx +:+ taxon_lines 0 (join_cells <$> rows)
  | inl _ => subseq_header ds startidx endidx
  end.

Definition write_windows (ds : dataset) (directory_name : string)
    (l : list window) (fs : gmap string file) : gmap string file :=
  foldl (λ fs x, <[window_path directory_name (w_num x) (w_start x) (w_end x)
                    := Text (subseq_text ds (w_start x) (w_end x))]> fs) fs l.

(** The windows of the loop when it turns [n] times from [start] and
    [num], and the whole index for a positive stride. *)
Definition stride_windows (window_size slide_interval start num : Z) (n : nat)
    : list window :=
  (λ i : nat, (num + Z.of_nat i, start + Z.of_nat i * slide_interval,
               start + Z.of_nat i * slide_interval + window_size)) <$> seq 0 n.

Definition strides (window_size slide_interval total_len : Z) : nat :=
  if total_len - window_size <? 0 then 0%nat
  else Z.to_nat ((total_len - window_size) / slide_interval + 1).

Definition remainder_window (window_size slide_interval total_len : Z) (n : nat)
    : list window :=
  if Z.of_nat n * slide_interval <? total_len
  then [(Z.of_nat n, total_len - window_size, total_len)]
  else [].

Definition expected_windows (window_size slide_interval total_len : Z)
    : list window :=
  let n := strides window_size slide_interval total_len in
  stride_windows window_size slide_interval 0 0 n
    ++ remainder_window window_size slide_interval total_len n.

(** The table file at [p] holds the datasets [tables]. *)
Definition holds_tables (p : string) (tables : gmap string dataset)
    (w : world) : Prop :=
  files w !! p = Some (Hdf5 tables).

(** The content of [_index.hdf5] for a list of windows. *)
Definition index_tables (l : list window) : gmap string dataset :=
  <["ends" := IntVector (w_end <$> l)]>
    (<["starts" := IntVector (w_start <$> l)]>
       (<["nums" := IntVector (w_num <$> l)]> ∅)).

(** The world once the output directory is there. *)
Definition made_dir (d : string) (w : world) : world := (ensure_dir d w).2.

(** The world after a run that emitted the windows [l]. *)
Definition extracted (ds : dataset) (directory_name : string) (l : list window)
    (w : world) : world :=
  World (<[index_path directory_name := Hdf5 (index_tables l)]>
           (write_windows ds directory_name l (files w)))
        (dirs (made_dir directory_name w))
        (stdout (made_dir directory_name w)).

(** The selection [s:e] over [len] columns does not run backwards. *)
Definition in_order (len s e : Z) : Prop := slice_bound len s ≤ slice_bound len e.

(** A site is covered by a window when it lies in its half-open range. *)
Definition covers (x : window) (site : Z) : Prop := w_start x ≤ site < w_end x.

(** The index covers the sites [0 .. total) without a gap and its last
    window ends at [total]. *)
Definition coverage (l : list window) (total : Z) : Prop :=
  (∀ site, 0 ≤ site < total → ∃ x, x ∈ l ∧ covers x site) ∧
  (∃ x, last l = Some x ∧ w_end x = total).

(** A window is as wide as [window_size], in the index and in the rows that
    were cut out of the table for its file. *)
Definition full_width (ds : dataset) (window_size : Z) (x : window) : Prop :=
  w_end x - w_start x = window_size ∧
  ∃ rs, columns ds (w_start x) (w_end x) = inr rs ∧
    Forall (λ r : list ascii, Z.of_nat (length r) = window_size) rs.

(** From the world [w] to the world [w'] nothing was written but the index
    and files of windows of full width. *)
Definition only_windows (ds : dataset) (directory_name : string)
    (window_size : Z) (w w' : world) : Prop :=
  ∀ p : string,
    files w' !! p = files w !! p ∨
    p = index_path directory_name ∨
    ∃ x : window,
      full_width ds window_size x ∧
      p = window_path directory_name (w_num x) (w_start x) (w_end x) ∧
      files w' !! p = Some (Text (subseq_text ds (w_start x) (w_end x))).

(** The lists of the loop hold the windows [l], column by column. *)
Definition index_of (st : slider) (l : list window) : Prop :=
  index_nums st = w_num <$> l ∧
  index_starts st = w_start <$> l ∧
  index_ends st = w_end <$> l.

(** A statement leaves the file at [q] alone, however it ends. *)
Definition keeps (q : string) {A} (m : M A) : Prop :=
  ∀ w : world, files (m w).2 !! q = files w !! q.

(** The world is ready for a run of [produce_subseqs]: the alignment [ds] is
    in the table file [full_seq_path], that file does not lie in the output
    directory, and the directory has no index yet. *)
Definition ready (full_seq_path directory_name : string) (ds : dataset)
    (w : world) : Prop :=
  ∃ tables : gmap string dataset,
    tables !! "alignment" = Some ds ∧
    holds_tables full_seq_path tables w ∧
    (∀ x, directory_name +:+ "/" +:+ x ≠ full_seq_path) ∧
    files w !! index_path directory_name = None.

(** A run returns and leaves the index [l] together with one file for each
    of its windows, and nothing else. *)
Definition emits (fuel : nat) (window_size slide_interval : Z)
    (full_seq_path directory_name : string) (ds : dataset) (w : world)
    (l : list window) : Prop :=
  produce_subseqs fuel window_size slide_interval full_seq_path directory_name w
    = (Returned tt, extracted ds directory_name l w) ∧
  read_index directory_name (extracted ds directory_name l w) = Some l.

(** *** Events of the demographic model *)

(** The nodes of a tree, parents before children. *)
Fixpoint nodes (n : TreeNode) : list TreeNode :=
  n :: concat (nodes <$> children n).

(** The value that the first loop of [_get_demography] attaches to a node. *)
Definition schild_value (n : TreeNode) : Z :=
  match children n with
  | [] => idx n
  | _ :: _ => default 0 (minimum (idx <$> get_descendants n))
  end.

(** The event of a node with children: source the largest and destination
    the smallest [_schild] among its children, at the height of the node
    in generations. *)
Definition event_of (Ne : Q) (n : TreeNode) : MassMigration :=
  MkMassMigration (height n * 2 * Ne)
    (default 0 (maximum (schild_value <$> children n)))
    (default 0 (minimum (schild_value <$> children n))).

Definition has_children (n : TreeNode) : bool := negb (is_leaf n).

Definition not_later (a b : MassMigration) : Prop := (time a <= time b)%Q.

(** The set after the second loop, one node at a time. *)
Definition add_event (Ne : Q) (demog : list MassMigration) (n : TreeNode)
    : list MassMigration :=
  if has_children n then set_add (event_of Ne n) demog else demog.

Definition node_key (n : TreeNode) : Z * Z :=
  (default 0 (maximum (schild_value <$> children n)),
   default 0 (minimum (schild_value <$> children n))).

(** The indices in a subtree, and the keys of its nodes with children. *)
Definition idxs (n : TreeNode) : list Z := idx <$> nodes n.
Definition keys (n : TreeNode) : list (Z * Z) :=
  node_key <$> filter has_children (nodes n).

(** The events that a reading of the method as "one merge per further
    child" would ask of a node: destination the smallest [_schild] among the
    children, and one event for every other child, sources in increasing
    order, all at the height of the node. *)
Definition events_per_child (Ne : Q) (n : TreeNode) : list MassMigration :=
  match sorted Z.leb (schild_value <$> children n) with
  | [] => []
  | d :: sources => (λ s, MkMassMigration (height n * 2 * Ne) s d) <$> sources
  end.

(** *** Trees and lengths on disk *)

(** The tree files that [write_trees] leaves, numbered from [counter]. *)
Fixpoint tree_files (dirname_genetrees : string) (trees : list SparseTree)
    (counter : Z) (fs : gmap string file) : gmap string file :=
  match trees with
  | [] => fs
  | t :: trees' =>
      tree_files dirname_genetrees trees' (counter + 1)
        (<[dirname_genetrees +:+ "/" +:+ str counter +:+ ".phy"
           := Text (newick t)]> fs)
  end.

(** The lengths that [write_trees] stores, and the sum of a table. *)
Definition stored_lengths (ts : list SparseTree) : list Z :=
  (λ t, truncate (get_length t)) <$> ts.
Definition sum_Z (l : list Z) : Z := foldr Z.add 0 l.

(** An interval length that a 64-bit integer can hold. *)
Definition length_in_range (t : SparseTree) : Prop :=
  (0 <= get_length t)%Q ∧ (get_length t < inject_Z (2 ^ 63))%Q.
Definition whole_length (t : SparseTree) : Prop :=
  ∃ z : Z, (get_length t == inject_Z z)%Q.

(** *** Fragments *)

(** The header of fragment [i] is its first line [tst]; it parses to a
    length, or the conversion raises an exception. *)
Definition fragment_header (dirname : string) (w : world) (i : Z)
    (tst : string) : Prop :=
  ∃ text : string,
    files w !! fragment_path dirname i = Some (Text text) ∧
    index (split "010" text) 0 = inr tst.

Definition header_parses (dirname : string) (w : world) (i : Z) : Prop :=
  ∃ (tst : string) (n : Z),
    fragment_header dirname w i tst ∧ header_length tst = inr n.


(** ** Sample inputs *)

(** A world with nothing but a two-row alignment of [ncols] sites. *)
Definition sample_alignment (ncols : nat) : dataset :=
  CharTable ncols [replicate ncols "A"%char; replicate ncols "C"%char].

Definition sample_world (ncols : nat) : world :=
  World {[ "tester/final_seqs.hdf5" :=
             Hdf5 {[ "alignment" := sample_alignment ncols ]} ]} ∅ [].

(** Three tips under two nodes at heights one and two, and three tips under
    a single node. *)
Definition tip (i : Z) : TreeNode := Node i 0 None [].
Definition caterpillar3 : TreeNode :=
  Node 4 2 None [Node 3 1 None [tip 0; tip 1]; tip 2].
Definition star3 : TreeNode := Node 3 2 None [tip 0; tip 1; tip 2].

(** A run with two local trees, over intervals of 2.5 and 3.5 sites. *)
Definition sample_self : Coalseq :=
  MkCoalseq "tester" 3 (1 # 100) (1 # 100000000) caterpillar3
    [MkSparseTree "((1,2),3);" (5 # 2); MkSparseTree "((1,3),2);" (7 # 2)].

(** A run over the star tree, with [theta = 0.5] and [mut = 2 ** -13]: both
    are floats as they stand, and every step of [Ne = (theta / mut) / 4 =
    1024] and of [height * 2 * Ne] is exact in floating point. *)
Definition star_self : Coalseq :=
  MkCoalseq "tester" 3 (1 # 2) (1 # 8192) star3 [].

Definition empty_world : world := World ∅ ∅ [].

(** A fragment file: a header and one line per tip, every line ended. *)
Definition fragment (lines : list string) : string :=
  join ((λ l, l +:+ nl) <$> lines).

(** A world whose only fragment has the header [" 3 x"]. *)
Definition malformed_world : world :=
  World {[ "tester/seqs/0.fa" :=
             Text (fragment [" 3 x"; "1         ACG"; "2         ACT";
                             "3         TCG"]);
           "tester/seqs/1.fa" :=
             Text (fragment [" 3 2"; "1         AC"; "2         AC";
                             "3         TC"]) ]} ∅ [].

(** Ten tips and one tree; the fragment gives tip [k] its own two sites. *)
Definition ten_tips_self : Coalseq :=
  MkCoalseq "tester" 10 (1 # 100) (1 # 100000000) (tip 0)
    [MkSparseTree "" 2].

Definition ten_tips_world : world :=
  World {[ "tester/seqs/0.fa" :=
             Text (fragment [" 10 2";
                             "1         AA"; "2         CC"; "3         GG";
                             "4         TT"; "5         AC"; "6         AG";
                             "7         AT"; "8         CA"; "9         CG";
                             "10        GT"]) ]} ∅ [].

(** ** Further observations *)

(** *** Trees as the tree library numbers them *)

(** The indices of a tree of [k] tips: none is negative, and those of the
    tips are below [k]. *)
Definition tips_numbered (k : nat) (t : TreeNode) : Prop :=
  ∀ n, n ∈ nodes t → 0 ≤ idx n ∧ (is_leaf n = true → idx n < Z.of_nat k).

(** No two nodes with children at the same height. *)
Definition distinct_heights (t : TreeNode) : Prop :=
  ∀ a b, a ∈ traverse t → b ∈ traverse t →
    has_children a = true → has_children b = true →
    (height a == height b)%Q → a = b.

(** *** Where the rationals are the floats of the code *)

(** A float of double precision: [m * 2 ^ e] with a mantissa of 53 bits. *)
Definition is_double (q : Q) : Prop :=
  ∃ m e : Z, Z.abs m < 2 ^ 53 ∧ -1074 ≤ e ≤ 971 ∧ (q == inject_Z m * 2 ^ e)%Q.

(** A whole number of fewer than [bits] bits. *)
Definition whole_of_bits (bits : Z) (q : Q) : Prop :=
  ∃ z : Z, Z.abs z < 2 ^ bits ∧ (q == inject_Z z)%Q.

(** The times of the events are computed without rounding: [theta] and
    [mut] are floats, [Ne] is a whole number below [2 ^ 26], so that
    [theta / mut] and its quarter are exact, and every height is a whole
    number below [2 ^ 25], so that [height * 2.] and [height * 2. * Ne],
    below [2 ^ 52], are exact as well. *)
Definition exact_times (self : Coalseq) : Prop :=
  is_double (_theta self) ∧ is_double (_mut self) ∧
  whole_of_bits 26 (_Ne self) ∧
  ∀ n, n ∈ nodes (tree self) → whole_of_bits 25 (height n).

(** *** What [write_trees] leaves *)

(** The path of the file of tree [i], as [write_trees] builds it. *)
Definition tree_path (dirname : string) (i : Z) : string :=
  (dirname +:+ "/ms_genetrees") +:+ "/" +:+ str i +:+ ".phy".

Definition trees_written (self : Coalseq) (w : world) : world :=
  let d := dirname self +:+ "/ms_genetrees" in
  World (<[lengths_path (dirname self)
           := Hdf5 {[ "lengths" := IntVector (stored_lengths (treeseq self)) ]}]>
           (tree_files d (treeseq self) 0 (files w)))
        (dirs (made_dir d w)) (stdout (made_dir d w)).

(** *** Fragments of a whole alignment *)

Definition no_newline (s : string) : Prop :=
  Forall (λ a, a ≠ "010"%char) (list_ascii_of_string s).

(** What a fragment holds: its length, and the sites of every tip, tip 1
    first. *)
Record fragment_data := MkFragment {
  frag_len : Z;
  frag_rows : list (list ascii)
}.




(** The rows of the fragments, one fragment after the other. *)
Fixpoint concatenated (ntips : nat) (frags : list fragment_data)
    : list (list ascii) :=
  match frags with
  | [] => replicate ntips []
  | f :: frags' => zip_with app (frag_rows f) (concatenated ntips frags')
  end.

(** The text of the whole alignment: the header, then for every row a line
    with the label and a line with the sites. *)
Definition alignment_text (ntips : nat) (seq_len : Z)
    (seq_arr : list (list ascii)) : string :=
  " " +:+ str (Z.of_nat ntips) +:+ " " +:+ str seq_len +:+ nl
    +:+ taxon_lines 0 (string_of_list_ascii <$> seq_arr).

(** A statement leaves the world as it is, however it ends. *)
Definition reads_only {A} (m : M A) : Prop := ∀ w : world, (m w).2 = w.

(** An array of [nrows] rows of [ncols] cells. *)
Definition has_shape (nrows ncols : nat) (arr : list (list ascii)) : Prop :=
  length arr = nrows ∧ Forall (λ r, length r = ncols) arr.

(** Two worlds with the same fragments. *)
Definition same_fragments (d : string) (w1 w2 : world) : Prop :=
  ∀ i : Z, files w1 !! fragment_path d i = files w2 !! fragment_path d i.

(** ** Further sample inputs *)

(** A root over a node over a tip, each with a single child. *)
Definition chain3 : TreeNode := Node 2 2 None [Node 1 1 None [tip 0]].

(** The run of [sample_self] with [theta = 0.5] and [mut = 2 ** -13], so
    that [Ne = 1024] and the times of the events are exact in floating
    point. *)
Definition exact_self : Coalseq :=
  MkCoalseq "tester" 3 (1 # 2) (1 # 8192) caterpillar3
    [MkSparseTree "((1,2),3);" (5 # 2); MkSparseTree "((1,3),2);" (7 # 2)].

(** Two cherries at the same height under a root. *)
Definition balanced4 : TreeNode :=
  Node 6 2 None [Node 4 1 None [tip 0; tip 1]; Node 5 1 None [tip 2; tip 3]].
Definition balanced_self : Coalseq :=
  MkCoalseq "tester" 4 (4 # 100000) (1 # 100000000) balanced4 [].

(** Two tips and two trees; the first fragment lists tip 2 before tip 1. *)
Definition two_tips_self : Coalseq :=
  MkCoalseq "tester" 2 (1 # 100) (1 # 100000000) (tip 0)
    [MkSparseTree "(1,2);" 3; MkSparseTree "(2,1);" 2].

Definition two_tips_world : world :=
  World {[ "tester/seqs/0.fa" :=
             Text (fragment [" 2 3"; "2         CCC"; "1         AAA"]);
           "tester/seqs/1.fa" :=
             Text (fragment [" 2 2"; "1         GG"; "2         TT"]) ]} ∅ [].

Definition two_tips_fragments : list fragment_data :=
  [MkFragment 3 [["A"; "A"; "A"]; ["C"; "C"; "C"]]%char;
   MkFragment 2 [["G"; "G"]; ["T"; "T"]]%char].

(** * Properties *)

(** ** The builtins on small inputs *)

Example slice_from_the_end : slice [1; 2; 3; 4; 5] (-3) 5 = [3; 4; 5].
Proof. reflexivity. Qed.

Example slice_clipped : slice [1; 2; 3; 4; 5] 3 9 = [4; 5].
Proof. reflexivity. Qed.

Example header_of_nine_tips : header_length " 9 1234" = inr 1234.
Proof. reflexivity. Qed.

Example header_too_short : header_length " 9" = inl IndexError.
Proof. reflexivity. Qed.

Example lines_sorted_as_strings :
  sorted String.leb ["2         C"; " 3 1"; "10        G"; "1         A"]
    = [" 3 1"; "1         A"; "10        G"; "2         C"].
Proof. reflexivity. Qed.

Example int64_drops_the_fraction :
  np_int64 (7 # 2) = inr 3 ∧ np_int64 (- 7 # 2) = inr (-3) ∧
  np_int64 (inject_Z (2 ^ 63)) = inl OverflowError.
Proof. repeat split; vm_compute; reflexivity. Qed.

(** The scenario of three tips under nodes at heights one and two: one event
    per node, the lower node first. *)
Example caterpillar_events :
  _get_demography id sample_self =
    Some [MkMassMigration (1 * 2 * _Ne sample_self) 1 0;
          MkMassMigration (2 * 2 * _Ne sample_self) 2 0].
Proof. vm_compute. reflexivity. Qed.

(** ** The state monad *)

Lemma bind_returned {A B} (m : M A) (f : A → M B) w a w' :
  m w = (Returned a, w') → bind m f w = f a w'.
Proof. intros H. unfold bind. by rewrite H. Qed.

Lemma bind_raised {A B} (m : M A) (f : A → M B) w e w' :
  m w = (Raised e, w') → bind m f w = (Raised e, w').
Proof. intros H. unfold bind. by rewrite H. Qed.

Lemma bind_out_of_fuel {A B} (m : M A) (f : A → M B) w w' :
  m w = (OutOfFuel, w') → bind m f w = (OutOfFuel, w').
Proof. intros H. unfold bind. by rewrite H. Qed.

Lemma h5_open_fresh (p : string) (w : world) :
  files w !! p = None →
  h5_open p w =
    (Returned tt, World (<[p := Hdf5 ∅]> (files w)) (dirs w) (stdout w)).
Proof. intros H. unfold h5_open. by rewrite H. Qed.

Lemma h5_set_fresh (p name : string) (ds : dataset) (d : gmap string dataset)
    (w : world) :
  files w !! p = Some (Hdf5 d) → d !! name = None →
  h5_set p name ds w =
    (Returned tt,
     World (<[p := Hdf5 (<[name := ds]> d)]> (files w)) (dirs w) (stdout w)).
Proof. intros H1 H2. unfold h5_set. by rewrite H1, H2. Qed.

(** The last four statements of [produce_subseqs]. *)
Lemma write_index_run (p : string) (ns ss es : list Z) (w : world) :
  files w !! p = None →
  (h5_open p ;;; h5_set p "nums" (IntVector ns) ;;;
   h5_set p "starts" (IntVector ss) ;;; h5_set p "ends" (IntVector es)) w =
    (Returned tt,
     World (<[p := Hdf5 (<["ends" := IntVector es]>
                           (<["starts" := IntVector ss]>
                              (<["nums" := IntVector ns]> ∅)))]> (files w))
           (dirs w) (stdout w)).
Proof.
  intros Hp.
  erewrite bind_returned; [|by apply h5_open_fresh].
  erewrite bind_returned.
  2: { apply h5_set_fresh; [apply lookup_insert_eq|done]. }
  erewrite bind_returned.
  2: { apply h5_set_fresh; [apply lookup_insert_eq|done]. }
  erewrite h5_set_fresh; [|apply lookup_insert_eq|done].
  cbn [files dirs stdout]. by rewrite !insert_insert_eq.
Qed.

(** ** Strings *)

Lemma append_empty_r (s : string) : s +:+ "" = s.
Proof.
  induction s as [|a s IH]; [done|].
  unfold String.app in *. simpl. by rewrite IH.
Qed.

Lemma append_empty_l (s : string) : "" +:+ s = s.
Proof. reflexivity. Qed.

Lemma append_cons (a : ascii) (s t : string) :
  String a s +:+ t = String a (s +:+ t).
Proof. reflexivity. Qed.

Lemma append_assoc (s t u : string) : (s +:+ t) +:+ u = s +:+ (t +:+ u).
Proof. induction s as [|a s IH]; [done|]. by rewrite !append_cons, IH. Qed.

Lemma f_write_run (p : string) (old s : string) (w : world) :
  files w !! p = Some (Text old) →
  f_write p s w =
    (Returned tt,
     World (<[p := Text (old +:+ s)]> (files w)) (dirs w) (stdout w)).
Proof. intros H. unfold f_write. by rewrite H. Qed.

Lemma write_taxa_run (p : string) (seqs : list string) :
  ∀ (idx : nat) (old : string) (w : world),
    files w !! p = Some (Text old) →
    write_taxa p idx seqs w =
      (Returned tt,
       World (<[p := Text (old +:+ taxon_lines idx seqs)]> (files w))
             (dirs w) (stdout w)).
Proof.
  induction seqs as [|seq seqs IH]; intros idx old w Hw.
  - cbn [write_taxa taxon_lines]. rewrite append_empty_r, insert_id by done.
    by destruct w.
  - cbn [write_taxa taxon_lines].
    erewrite bind_returned; [|by apply f_write_run].
    erewrite bind_returned; [|by apply f_write_run, lookup_insert_eq].
    erewrite bind_returned; [|by apply f_write_run, lookup_insert_eq].
    erewrite bind_returned; [|by apply f_write_run, lookup_insert_eq].
    erewrite IH; [|apply lookup_insert_eq].
    cbn [files dirs stdout]. by rewrite !insert_insert_eq, !append_assoc.
Qed.

(** The decimal text of an integer never starts with an underscore,
    whatever is put behind it. *)
Lemma pretty_N_char_head (x : N) (s t' : string) :
  String (pretty_N_char x) s ≠ String "_" t'.
Proof.
  intros Heq. injection Heq as Hc _. revert Hc.
  unfold pretty_N_char. repeat case_match; intros ?; discriminate.
Qed.

Lemma pretty_N_go_head (x : N) (s t t' : string) :
  s +:+ t ≠ String "_" t' → pretty_N_go x s +:+ t ≠ String "_" t'.
Proof.
  revert s. induction (N.lt_wf_0 x) as [x _ IH]; intros s Hs.
  assert (x = 0 ∨ 0 < x)%N as [->|Hx] by lia.
  - by rewrite pretty_N_go_0.
  - rewrite pretty_N_go_step by done. apply IH.
    + by apply N.div_lt.
    + rewrite append_cons. apply pretty_N_char_head.
Qed.

Lemma str_head (n : Z) (t t' : string) : str n +:+ t ≠ String "_" t'.
Proof.
  unfold str, pretty, pretty_Z. destruct n as [|p|p].
  - discriminate.
  - unfold pretty, pretty_positive, pretty, pretty_N.
    case_decide; [discriminate|].
    rewrite pretty_N_go_step by lia.
    apply pretty_N_go_head. rewrite append_cons. apply pretty_N_char_head.
  - discriminate.
Qed.

Lemma window_path_not_index (d : string) (n s e : Z) :
  window_path d n s e ≠ index_path d.
Proof.
  unfold window_path, index_path. intros H.
  apply (inj (String.app d)) in H.
  change ("/" +:+ str n +:+ "_" +:+ str s +:+ "_" +:+ str e +:+ ".fa")
    with (String "/" (str n +:+ "_" +:+ str s +:+ "_" +:+ str e +:+ ".fa")) in H.
  injection H as H. by apply str_head in H.
Qed.

(** ** Selections *)

Lemma slice_bound_range (len i : Z) : 0 ≤ len → 0 ≤ slice_bound len i ≤ len.
Proof.
  intros Hlen. unfold slice_bound. destruct (Z.ltb_spec i 0); lia.
Qed.

(** A window that starts at a column and is not of negative width, a
    selection up to the last column, and a selection from the first one do
    not run backwards. *)
Lemma in_order_window (len s ws : Z) : 0 ≤ s → 0 ≤ ws → in_order len s (s + ws).
Proof.
  intros Hs Hws. unfold in_order, slice_bound.
  destruct (Z.ltb_spec s 0), (Z.ltb_spec (s + ws) 0); lia.
Qed.

Lemma in_order_to_end (len s : Z) : 0 ≤ len → in_order len s len.
Proof.
  intros Hlen. unfold in_order.
  pose proof (slice_bound_range len s Hlen).
  unfold slice_bound at 2. destruct (Z.ltb_spec len 0); lia.
Qed.

Lemma in_order_from_start (len e : Z) : 0 ≤ len → in_order len 0 e.
Proof.
  intros Hlen. unfold in_order.
  pose proof (slice_bound_range len e Hlen).
  unfold slice_bound at 1. simpl. lia.
Qed.

Lemma columns_in_order (ncols : nat) (rows : list (list ascii)) (s e : Z) :
  in_order (Z.of_nat ncols) s e →
  columns (CharTable ncols rows) s e = inr ((λ r, slice r s e) <$> rows).
Proof.
  unfold in_order, columns. intros H.
  by destruct (Z.ltb_spec (slice_bound (Z.of_nat ncols) e)
                          (slice_bound (Z.of_nat ncols) s)); [lia|].
Qed.

Lemma subseq_text_in_order (ncols : nat) (rows : list (list ascii)) (s e : Z) :
  in_order (Z.of_nat ncols) s e →
  subseq_text (CharTable ncols rows) s e =
    subseq_header (CharTable ncols rows) s e
      +:+ taxon_lines 0 (join_cells <$> ((λ r, slice r s e) <$> rows)).
Proof. intros H. unfold subseq_text. by rewrite columns_in_order. Qed.

(** ** Window extractor *)

Section WindowExtractor.

Variables (window_size slide_interval : Z) (full_seq_path directory_name : string).
Variables (tables : gmap string dataset) (ncols : nat) (rows : list (list ascii)).

Let alignment : dataset := CharTable ncols rows.
Let total_len : Z := Z.of_nat ncols.
Let startlimit : Z := total_len - window_size.

(** The alignment is where [full_seq_path] says, and that file is not one
    of the output directory. *)
Hypothesis Halignment : tables !! "alignment" = Some alignment.
Hypothesis Houtside : ∀ x, directory_name +:+ "/" +:+ x ≠ full_seq_path.

Lemma window_path_outside (n s e : Z) :
  window_path directory_name n s e ≠ full_seq_path.
Proof. unfold window_path. apply Houtside. Qed.

Lemma write_subseq_run (w : world) (out : string) (s e : Z) :
  holds_tables full_seq_path tables w → out ≠ full_seq_path →
  in_order total_len s e →
  write_subseq full_seq_path out s e w =
    (Returned tt,
     World (<[out := Text (subseq_text alignment s e)]> (files w))
           (dirs w) (stdout w)).
Proof.
  intros Hw Hout Horder. unfold holds_tables in Hw. unfold write_subseq.
  erewrite bind_returned; [|by unfold h5_open; rewrite Hw].
  erewrite bind_returned; [|reflexivity].
  assert (Hget : ∀ (fs : gmap string file) ds' so t,
            h5_get full_seq_path "alignment"
              (World (<[out := Text t]> fs) ds' so)
            = match fs !! full_seq_path with
              | Some (Hdf5 d) =>
                  match d !! "alignment" with
                  | Some x => (Returned x, World (<[out := Text t]> fs) ds' so)
                  | None => (Raised KeyError, World (<[out := Text t]> fs) ds' so)
                  end
              | _ => (Raised IOError, World (<[out := Text t]> fs) ds' so)
              end).
  { intros fs ds' so t. unfold h5_get. cbn [files].
    by rewrite lookup_insert_ne. }
  erewrite bind_returned; [|by rewrite Hget, Hw, Halignment].
  erewrite bind_returned; [|by apply f_write_run, lookup_insert_eq].
  erewrite bind_returned; [|by apply f_write_run, lookup_insert_eq].
  cbn [files dirs stdout]. rewrite !insert_insert_eq.
  erewrite bind_returned; [|by rewrite Hget, Hw, Halignment].
  subst alignment. rewrite (subseq_text_in_order _ _ _ _ Horder).
  rewrite (columns_in_order _ _ _ _ Horder).
  erewrite bind_returned; [|reflexivity].
  rewrite write_taxa_run with (old := subseq_header (CharTable ncols rows) s e).
  - cbn [files dirs stdout]. by rewrite insert_insert_eq.
  - cbn [files]. rewrite lookup_insert_eq. unfold subseq_header.
    by rewrite append_empty_l, !append_assoc.
Qed.

Lemma stride_windows_S (start n0 : Z) (n : nat) :
  stride_windows window_size slide_interval start n0 (S n) =
    (n0, start, start + window_size)
      :: stride_windows window_size slide_interval
           (start + slide_interval) (n0 + 1) n.
Proof.
  unfold stride_windows. rewrite <- cons_seq, fmap_cons, <- fmap_S_seq.
  rewrite <- list_fmap_compose. f_equal.
  - f_equal; [f_equal|]; lia.
  - apply list_fmap_ext. intros _ i _. simpl. f_equal; [f_equal|]; lia.
Qed.

Lemma write_windows_app (l1 l2 : list window) (fs : gmap string file) :
  write_windows alignment directory_name (l1 ++ l2) fs =
    write_windows alignment directory_name l2
      (write_windows alignment directory_name l1 fs).
Proof. unfold write_windows. apply foldl_app. Qed.

Lemma write_windows_other (l : list window) (fs : gmap string file) (p : string) :
  (∀ x, x ∈ l → window_path directory_name (w_num x) (w_start x) (w_end x) ≠ p) →
  write_windows alignment directory_name l fs !! p = fs !! p.
Proof.
  revert fs. induction l as [|x l IH]; intros fs Hp; [done|].
  simpl. rewrite IH.
  - apply lookup_insert_ne. apply Hp. by left.
  - intros y Hy. apply Hp. by right.
Qed.

Lemma write_windows_alignment (l : list window) (w : world) :
  holds_tables full_seq_path tables w →
  write_windows alignment directory_name l (files w) !! full_seq_path
    = Some (Hdf5 tables).
Proof.
  intros Hw. rewrite write_windows_other; [done|].
  intros x _. apply window_path_outside.
Qed.

(** The loop, when it turns exactly [n] times. *)
Lemma slide_run (n : nat) :
  ∀ (fuel : nat) (st : slider) (w : world),
    (n < fuel)%nat →
    holds_tables full_seq_path tables w →
    (∀ i : nat, (i < n)%nat →
       startidx st + Z.of_nat i * slide_interval ≤ startlimit) →
    startlimit < startidx st + Z.of_nat n * slide_interval →
    (∀ i : nat, (i < n)%nat →
       in_order total_len (startidx st + Z.of_nat i * slide_interval)
         (startidx st + Z.of_nat i * slide_interval + window_size)) →
    let l := stride_windows window_size slide_interval (startidx st) (num st) n in
    slide fuel window_size slide_interval full_seq_path directory_name
      startlimit st w =
      (Returned (Slider (index_nums st ++ (w_num <$> l))
                        (index_starts st ++ (w_start <$> l))
                        (index_ends st ++ (w_end <$> l))
                        (startidx st + Z.of_nat n * slide_interval)
                        (num st + Z.of_nat n)),
       World (write_windows alignment directory_name l (files w))
             (dirs w) (stdout w)).
Proof.
  induction n as [|n IH]; intros fuel st w Hfuel Hw Hle Hgt Hord l.
  - destruct fuel as [|fuel]; [lia|]. simpl.
    destruct (Z.leb_spec (startidx st) startlimit) as [Hc|Hc]; [lia|].
    subst l. destruct st, w; simpl. unfold ret.
    rewrite !app_nil_r. repeat f_equal; lia.
  - subst l. rewrite stride_windows_S.
    destruct fuel as [|fuel]; [lia|]. cbn [slide].
    destruct (Z.leb_spec (startidx st) startlimit) as [Hc|Hc].
    2: { specialize (Hle 0%nat). lia. }
    erewrite bind_returned.
    2: { apply write_subseq_run; [done|apply window_path_outside|].
         specialize (Hord 0%nat ltac:(lia)).
         by rewrite Z.mul_0_l, Z.add_0_r in Hord. }
    rewrite IH.
    + cbn [startidx num index_nums index_starts index_ends files dirs stdout
           fmap list_fmap w_num w_start w_end fst snd write_windows foldl].
      rewrite <- !app_assoc. cbn [app].
      f_equal. f_equal. f_equal; lia.
    + lia.
    + unfold holds_tables. simpl. rewrite lookup_insert_ne; [done|].
      apply window_path_outside.
    + intros i Hi. specialize (Hle (S i)). cbn [startidx]. lia.
    + cbn [startidx]. lia.
    + intros i Hi. specialize (Hord (S i) ltac:(lia)). cbn [startidx].
      replace (startidx st + slide_interval + Z.of_nat i * slide_interval)
        with (startidx st + Z.of_nat (S i) * slide_interval) by lia.
      done.
Qed.

Lemma ensure_dir_run (d : string) (w : world) :
  ensure_dir d w = (Returned tt, made_dir d w) ∧ files (made_dir d w) = files w.
Proof.
  unfold made_dir, ensure_dir, print. destruct (path_exists d w); done.
Qed.

Lemma read_index_tables (l : list window) (fs : gmap string file) ds sout :
  read_index directory_name
    (World (<[index_path directory_name := Hdf5 (index_tables l)]> fs) ds sout)
  = Some l.
Proof.
  unfold read_index. simpl. rewrite lookup_insert_eq. unfold index_tables.
  rewrite lookup_insert_ne, lookup_insert_ne, lookup_insert_eq by done.
  rewrite lookup_insert_ne, lookup_insert_eq by done.
  rewrite lookup_insert_eq. f_equal.
  induction l as [|[[a b] c] l IH]; [done|].
  cbn [fmap list_fmap zip zip_with]. by rewrite IH.
Qed.

(** A whole run whose loop turns exactly [n] times. *)
Lemma produce_subseqs_turns (n fuel : nat) (w : world) :
  (n < fuel)%nat →
  holds_tables full_seq_path tables w →
  files w !! index_path directory_name = None →
  (∀ i : nat, (i < n)%nat → Z.of_nat i * slide_interval ≤ startlimit) →
  startlimit < Z.of_nat n * slide_interval →
  (∀ i : nat, (i < n)%nat →
     in_order total_len (Z.of_nat i * slide_interval)
       (Z.of_nat i * slide_interval + window_size)) →
  produce_subseqs fuel window_size slide_interval full_seq_path directory_name w
  = (Returned tt,
     extracted alignment directory_name
       (stride_windows window_size slide_interval 0 0 n
          ++ remainder_window window_size slide_interval total_len n) w).
Proof.
  intros Hfuel Hw Hfresh Hle Hgt Hord.
  destruct (ensure_dir_run directory_name w) as [Hdir Hfiles].
  assert (Hw1 : holds_tables full_seq_path tables (made_dir directory_name w)).
  { unfold holds_tables. by rewrite Hfiles. }
  unfold produce_subseqs.
  erewrite bind_returned; [|exact Hdir].
  unfold holds_tables in Hw1.
  erewrite bind_returned; [|by unfold h5_open; rewrite Hw1].
  erewrite bind_returned; [|by unfold h5_get; rewrite Hw1, Halignment].
  erewrite bind_returned; [|reflexivity].
  fold total_len startlimit.
  erewrite bind_returned; [|by apply slide_run].
  cbn [startidx num index_nums index_starts index_ends].
  rewrite !Z.add_0_l, !app_nil_l. unfold remainder_window.
  set (l := stride_windows window_size slide_interval 0 0 n).
  set (w2 := World (write_windows alignment directory_name l
                      (files (made_dir directory_name w))) _ _).
  assert (Hw2 : holds_tables full_seq_path tables w2).
  { by apply write_windows_alignment. }
  assert (Hidx : ∀ l' : list window,
    write_windows alignment directory_name l' (files w)
      !! index_path directory_name = None).
  { intros l'. rewrite write_windows_other; [done|].
    intros x _. apply window_path_not_index. }
  destruct (Z.ltb_spec (Z.of_nat n * slide_interval) total_len) as [Hrem|Hrem].
  - erewrite bind_returned.
    2: { erewrite bind_returned; [reflexivity|].
         apply write_subseq_run; [done|apply window_path_outside|].
         apply in_order_to_end. subst total_len. lia. }
    cbn [index_nums index_starts index_ends].
    subst w2; cbn [files dirs stdout]. rewrite Hfiles.
    change (<[window_path directory_name (Z.of_nat n) startlimit total_len :=
               Text (subseq_text alignment startlimit total_len)]>
              (write_windows alignment directory_name l (files w)))
      with (write_windows alignment directory_name
              [(Z.of_nat n, startlimit, total_len)]
              (write_windows alignment directory_name l (files w))).
    rewrite <- write_windows_app, write_index_run by apply Hidx.
    unfold extracted, index_tables. by rewrite !fmap_app.
  - erewrite bind_returned; [|reflexivity].
    subst w2; cbn [files dirs stdout]. rewrite Hfiles.
    rewrite write_index_run by apply Hidx.
    unfold extracted, index_tables. by rewrite !app_nil_r.
Qed.

(** For a positive stride the loop turns [strides] times. *)
Lemma strides_turns :
  1 ≤ slide_interval →
  let n := strides window_size slide_interval total_len in
  (∀ i : nat, (i < n)%nat → Z.of_nat i * slide_interval ≤ startlimit) ∧
  startlimit < Z.of_nat n * slide_interval.
Proof.
  intros Hsi n. subst n. unfold strides. fold startlimit.
  destruct (Z.ltb_spec startlimit 0) as [Hneg|Hpos].
  - split; [intros i Hi; lia | lia].
  - pose proof (Z.mul_div_le startlimit slide_interval ltac:(lia)) as Hlo.
    pose proof (Z.mul_succ_div_gt startlimit slide_interval ltac:(lia)) as Hhi.
    pose proof (Z.div_pos startlimit slide_interval Hpos ltac:(lia)) as Hq.
    split.
    + intros i Hi.
      assert (Z.of_nat i ≤ startlimit / slide_interval) as Hiq by lia.
      nia.
    + rewrite Z2Nat.id by lia. nia.
Qed.

Lemma produce_subseqs_run (fuel : nat) (w : world) :
  1 ≤ slide_interval →
  0 ≤ window_size →
  (strides window_size slide_interval total_len < fuel)%nat →
  holds_tables full_seq_path tables w →
  files w !! index_path directory_name = None →
  produce_subseqs fuel window_size slide_interval full_seq_path directory_name w
  = (Returned tt,
     extracted alignment directory_name
       (expected_windows window_size slide_interval total_len) w).
Proof.
  intros Hsi Hws Hfuel Hw Hfresh.
  destruct (strides_turns Hsi) as [Hle Hgt].
  apply produce_subseqs_turns; try done.
  intros i _. apply in_order_window; lia.
Qed.

Lemma read_index_extracted (l : list window) (w : world) :
  read_index directory_name (extracted alignment directory_name l w) = Some l.
Proof. apply read_index_tables. Qed.

End WindowExtractor.

(** The windows of a positive stride, one by one. *)
Lemma elem_of_stride_windows (ws si : Z) (n : nat) (x : window) :
  x ∈ stride_windows ws si 0 0 n ↔
  ∃ i : nat, (i < n)%nat ∧
    x = (Z.of_nat i, Z.of_nat i * si, Z.of_nat i * si + ws).
Proof.
  unfold stride_windows. rewrite list_elem_of_fmap. split.
  - intros (i & -> & Hi). apply elem_of_seq in Hi. exists i.
    split; [lia|]. by rewrite !Z.add_0_l.
  - intros (i & Hi & ->). exists i. rewrite !Z.add_0_l.
    split; [done|]. apply elem_of_seq. lia.
Qed.

Lemma elem_of_expected_windows (ws si total : Z) (x : window) :
  x ∈ expected_windows ws si total ↔
  (∃ i : nat, (i < strides ws si total)%nat ∧
     x = (Z.of_nat i, Z.of_nat i * si, Z.of_nat i * si + ws)) ∨
  (Z.of_nat (strides ws si total) * si < total ∧
     x = (Z.of_nat (strides ws si total), total - ws, total)).
Proof.
  unfold expected_windows, remainder_window.
  rewrite elem_of_app, elem_of_stride_windows.
  destruct (Z.ltb_spec (Z.of_nat (strides ws si total) * si) total) as [H|H].
  - rewrite list_elem_of_singleton.
    split; intros [Hl|Hr]; [by left|by right|by left|right; by destruct Hr].
  - rewrite elem_of_nil.
    split; [intros [?|[]]; by left|]. intros [?|[? _]]; [by left|lia].
Qed.


Lemma strides_le (ws si total : Z) :
  1 ≤ si → (strides ws si total ≤ Z.to_nat (total - ws) + 1)%nat.
Proof.
  intros Hsi. unfold strides.
  destruct (Z.ltb_spec (total - ws) 0) as [Hneg|Hpos]; [lia|].
  pose proof (Z.mul_div_le (total - ws) si ltac:(lia)).
  pose proof (Z.div_pos (total - ws) si Hpos ltac:(lia)).
  assert ((total - ws) / si ≤ total - ws) by nia. lia.
Qed.

Lemma sample_ready (ncols : nat) :
  ready "tester/final_seqs.hdf5" "slider" (sample_alignment ncols)
    (sample_world ncols).
Proof.
  exists {[ "alignment" := sample_alignment ncols ]}. repeat split.
  intros x. cbv [String.append]. discriminate.
Qed.

(** Coverage of the expected index for a stride that is not larger than the
    window. *)
Lemma expected_windows_coverage (ws si total : Z) :
  1 ≤ si → si ≤ ws → ws ≤ total →
  coverage (expected_windows ws si total) total.
Proof.
  intros Hsi Hws Htot.
  set (sl := total - ws).
  assert (Hn : Z.of_nat (strides ws si total) = sl / si + 1).
  { unfold strides. fold sl.
    destruct (Z.ltb_spec sl 0) as [?|?]; [lia|].
    pose proof (Z.div_pos sl si ltac:(lia) ltac:(lia)). lia. }
  pose proof (Z.mul_div_le sl si ltac:(lia)) as Hlo.
  pose proof (Z.mul_succ_div_gt sl si ltac:(lia)) as Hhi.
  pose proof (Z.div_pos sl si ltac:(lia) ltac:(lia)) as Hq.
  split.
  - intros site Hsite.
    destruct (Z.le_gt_cases (site / si) (sl / si)) as [Hin|Hout].
    + exists (site / si, site / si * si, site / si * si + ws).
      pose proof (Z.mul_div_le site si ltac:(lia)).
      pose proof (Z.mul_succ_div_gt site si ltac:(lia)).
      pose proof (Z.div_pos site si ltac:(lia) ltac:(lia)).
      split.
      * apply elem_of_expected_windows. left.
        exists (Z.to_nat (site / si)). rewrite Z2Nat.id by lia.
        split; [lia|done].
      * unfold covers, w_start, w_end; simpl. nia.
    + exists (Z.of_nat (strides ws si total), total - ws, total).
      assert (sl / si + 1 ≤ site / si) as Hge by lia.
      pose proof (Z.mul_div_le site si ltac:(lia)).
      split.
      * apply elem_of_expected_windows. right. split; [nia|done].
      * unfold covers, w_start, w_end; simpl. fold sl. nia.
  - unfold expected_windows, remainder_window.
    destruct (Z.ltb_spec (Z.of_nat (strides ws si total) * si) total) as [Hrem|Hrem].
    + eexists. rewrite last_snoc. done.
    + rewrite app_nil_r.
      assert (strides ws si total = S (Z.to_nat (sl / si))) as -> by lia.
      unfold stride_windows. rewrite seq_S, fmap_app. simpl.
      eexists. rewrite last_snoc. split; [done|].
      unfold w_end; simpl. rewrite Z2Nat.id by lia. fold sl in Hrem. nia.
Qed.


Lemma emits_expected (fuel : nat) (ws si : Z) (full dir : string)
    (ncols : nat) (rows : list (list ascii)) (w : world) :
  ready full dir (CharTable ncols rows) w →
  1 ≤ si →
  0 ≤ ws →
  (strides ws si (Z.of_nat ncols) < fuel)%nat →
  emits fuel ws si full dir (CharTable ncols rows) w
    (expected_windows ws si (Z.of_nat ncols)).
Proof.
  intros (tables & Hal & Hw & Hout & Hfresh) Hsi Hws Hfuel. split.
  - by apply (produce_subseqs_run ws si full dir tables ncols rows).
  - apply read_index_extracted.
Qed.

(** The bound on the stride is needed: with a stride larger than the window
    and another stride still to go, the site just behind the first window
    lies in no window. *)
Lemma expected_windows_gap (ws si total : Z) :
  0 ≤ ws → ws < si → si ≤ total - ws →
  ¬ coverage (expected_windows ws si total) total.
Proof.
  intros Hws Hsi Hroom [Hcov _].
  destruct (Hcov ws ltac:(lia)) as (x & Hx & Hlo & Hhi).
  apply elem_of_expected_windows in Hx as [(i & _ & ->)|[_ ->]];
    unfold w_start, w_end in *; simpl in *; [|lia].
  destruct i as [|i]; [lia|]. nia.
Qed.

(** C1, as stated, fails: with five sites, windows of one site and a stride
    of three the index is [(0,0,1); (1,3,4)]; site 1 lies in no window and
    the last window ends at 4. *)
Lemma window_coverage_gap :
  emits 3 1 3 "tester/final_seqs.hdf5" "slider" (sample_alignment 5)
    (sample_world 5) [(0, 0, 1); (1, 3, 4)] ∧
  1 ≤ 5 ∧ 3 ≥ 1 ∧
  ¬ coverage [(0, 0, 1); (1, 3, 4)] 5.
Proof.
  split; [|split; [lia|split; [lia|]]].
  - apply (emits_expected 3 1 3 _ _ 5); [apply sample_ready|lia|lia|].
    vm_compute. lia.
  - intros [_ (x & Hx & Hend)]. simpl in Hx. injection Hx as <-.
    vm_compute in Hend. discriminate.
Qed.

(** C1 (amended).  For a stride between one and the window size, and a
    window no longer than the alignment, the run returns, the windows of its
    index cover every site of [0 .. total_length), and the last window of
    the index ends at [total_length]. *)
Theorem window_coverage (fuel : nat) (window_size slide_interval : Z)
    (full_seq_path directory_name : string)
    (ncols : nat) (rows : list (list ascii)) (w : world) :
  ready full_seq_path directory_name (CharTable ncols rows) w →
  1 ≤ slide_interval →
  slide_interval ≤ window_size →
  window_size ≤ Z.of_nat ncols →
  (Z.to_nat (Z.of_nat ncols - window_size) + 1 < fuel)%nat →
  ∃ l : list window,
    emits fuel window_size slide_interval full_seq_path directory_name
      (CharTable ncols rows) w l ∧
    coverage l (Z.of_nat ncols).
Proof.
  intros Hready Hsi Hws Htot Hfuel.
  exists (expected_windows window_size slide_interval (Z.of_nat ncols)). split.
  - apply emits_expected; [done|done|lia|].
    pose proof (strides_le window_size slide_interval (Z.of_nat ncols) Hsi). lia.
  - by apply expected_windows_coverage.
Qed.

Lemma window_coverage_witness :
  ∃ l : list window,
    emits 6 3 2 "tester/final_seqs.hdf5" "slider" (sample_alignment 7)
      (sample_world 7) l ∧
    coverage l 7.
Proof.
  apply (window_coverage 6 3 2 "tester/final_seqs.hdf5" "slider" 7
           [replicate 7 "A"%char; replicate 7 "C"%char] (sample_world 7)).
  - apply sample_ready.
  - lia.
  - lia.
  - simpl. lia.
  - simpl. lia.
Defined.

(** C3.  With 1000 sites, windows of 400 and a stride of 300 the run emits
    the four windows (0,0,400), (1,300,700), (2,600,1000), (3,600,1000), in
    this order: the last one repeats the range of window 2. *)
Theorem four_windows_scenario (fuel : nat) (full_seq_path directory_name : string)
    (rows : list (list ascii)) (w : world) :
  ready full_seq_path directory_name (CharTable 1000 rows) w →
  (3 < fuel)%nat →
  emits fuel 400 300 full_seq_path directory_name (CharTable 1000 rows) w
    [(0, 0, 400); (1, 300, 700); (2, 600, 1000); (3, 600, 1000)].
Proof.
  intros Hready Hfuel.
  change [(0, 0, 400); (1, 300, 700); (2, 600, 1000); (3, 600, 1000)]
    with (expected_windows 400 300 (Z.of_nat 1000)).
  apply emits_expected; [done|lia|lia|exact Hfuel].
Qed.

Lemma four_windows_scenario_witness :
  emits 4 400 300 "tester/final_seqs.hdf5" "slider" (sample_alignment 1000)
    (sample_world 1000)
    [(0, 0, 400); (1, 300, 700); (2, 600, 1000); (3, 600, 1000)].
Proof.
  apply (four_windows_scenario 4 "tester/final_seqs.hdf5" "slider"
           [replicate 1000 "A"%char; replicate 1000 "C"%char]
           (sample_world 1000)).
  - apply sample_ready.
  - lia.
Defined.


Lemma expected_windows_whole (si total : Z) :
  1 ≤ si → 0 ≤ total →
  expected_windows total si total =
    (0, 0, total) :: (if si <? total then [(1, 0, total)] else []).
Proof.
  intros Hsi Htot. unfold expected_windows, strides, remainder_window.
  rewrite Z.sub_diag, Z.div_0_l by lia. simpl.
  rewrite Z.mul_1_l. by destruct (si <? total).
Qed.

(** C5, as stated, fails: with five sites, a window of five and a stride of
    two the index has two windows, [(0,0,5)] and once more [(1,0,5)]. *)
Lemma whole_alignment_two_windows :
  emits 2 5 2 "tester/final_seqs.hdf5" "slider" (sample_alignment 5)
    (sample_world 5) [(0, 0, 5); (1, 0, 5)] ∧
  2 ≥ 1 ∧
  [(0, 0, 5); (1, 0, 5)] ≠ [(0, 0, 5) : window].
Proof.
  split; [|split; [lia|discriminate]].
  apply (emits_expected 2 5 2 _ _ 5); [apply sample_ready|lia|lia|].
  vm_compute. lia.
Qed.

(** C5 (amended).  With a window as long as the alignment the first window
    of the index is (0, 0, total_length).  It is the only one when the stride
    is at least total_length; for a shorter stride the branch for the
    remainder adds (1, 0, total_length), the same range once more. *)
Theorem whole_alignment_window (fuel : nat) (slide_interval : Z)
    (full_seq_path directory_name : string)
    (ncols : nat) (rows : list (list ascii)) (w : world) :
  ready full_seq_path directory_name (CharTable ncols rows) w →
  1 ≤ slide_interval →
  (1 < fuel)%nat →
  emits fuel (Z.of_nat ncols) slide_interval full_seq_path directory_name
    (CharTable ncols rows) w
    ((0, 0, Z.of_nat ncols)
       :: (if slide_interval <? Z.of_nat ncols
           then [(1, 0, Z.of_nat ncols)] else [])).
Proof.
  intros Hready Hsi Hfuel.
  rewrite <- expected_windows_whole by lia.
  apply emits_expected; [done|done|lia|].
  unfold strides. rewrite Z.sub_diag, Z.div_0_l by lia. simpl. lia.
Qed.

Lemma whole_alignment_window_witness :
  emits 2 5 7 "tester/final_seqs.hdf5" "slider" (sample_alignment 5)
    (sample_world 5) [(0, 0, 5)].
Proof.
  apply (whole_alignment_window 2 7 "tester/final_seqs.hdf5" "slider" 5
           [replicate 5 "A"%char; replicate 5 "C"%char] (sample_world 5)).
  - apply sample_ready.
  - lia.
  - lia.
Defined.

(** ** Width of the windows *)

Lemma slice_length {A} (r : list A) (s e : Z) :
  0 ≤ s → s ≤ e → e ≤ Z.of_nat (length r) →
  Z.of_nat (length (slice r s e)) = e - s.
Proof.
  intros Hs He Hlen. unfold slice, slice_bound.
  destruct (Z.ltb_spec s 0) as [?|_]; [lia|].
  destruct (Z.ltb_spec e 0) as [?|_]; [lia|].
  rewrite length_take, length_drop. lia.
Qed.

Lemma bind_inv {A B} (m : M A) (f : A → M B) (w w' : world) (b : B) :
  bind m f w = (Returned b, w') →
  ∃ a w1, m w = (Returned a, w1) ∧ f a w1 = (Returned b, w').
Proof.
  unfold bind. destruct (m w) as [[a|e|] w1]; intros H; try discriminate.
  by exists a, w1.
Qed.

Lemma keeps_bind {A B} (q : string) (m : M A) (f : A → M B) :
  keeps q m → (∀ a, keeps q (f a)) → keeps q (bind m f).
Proof.
  intros Hm Hf w. unfold bind. specialize (Hm w).
  destruct (m w) as [[a|e|] w1]; simpl in *; [|done..].
  by rewrite Hf.
Qed.

Lemma keeps_h5_open (p q : string) : p ≠ q → keeps q (h5_open p).
Proof.
  intros Hne w. unfold h5_open.
  destruct (files w !! p) as [[]|]; simpl; [done..|].
  by apply lookup_insert_ne.
Qed.

Lemma keeps_h5_set (p q name : string) (ds : dataset) :
  p ≠ q → keeps q (h5_set p name ds).
Proof.
  intros Hne w. unfold h5_set.
  destruct (files w !! p) as [[|d]|]; simpl; [done| |done].
  destruct (d !! name); simpl; [done|]. by apply lookup_insert_ne.
Qed.

Lemma h5_set_inv (p name : string) (ds : dataset) (w w' : world) :
  h5_set p name ds w = (Returned tt, w') →
  ∃ d, files w !! p = Some (Hdf5 d) ∧
       files w' = <[p := Hdf5 (<[name := ds]> d)]> (files w).
Proof.
  unfold h5_set. destruct (files w !! p) as [[|d]|]; try discriminate.
  destruct (d !! name); [discriminate|]. intros [= <-]. by exists d.
Qed.

(** *** The index, whatever the inputs *)

Lemma index_of_snoc (st : slider) (l : list window) (n s e : Z) :
  index_of st l →
  index_of (Slider (index_nums st ++ [n]) (index_starts st ++ [s])
              (index_ends st ++ [e]) (startidx st) (num st))
    (l ++ [(n, s, e)]).
Proof.
  intros (Hn & Hs & He). unfold index_of. cbn [index_nums index_starts index_ends].
  rewrite Hn, Hs, He, !fmap_app. done.
Qed.

Lemma slide_index_inv (fuel : nat) (ws si : Z) (full dir : string) (sl : Z) :
  ∀ (st st' : slider) (w w' : world) (l : list window),
    slide fuel ws si full dir sl st w = (Returned st', w') →
    index_of st l →
    Forall (λ x, w_end x - w_start x = ws) l →
    ∃ l', index_of st' l' ∧ Forall (λ x, w_end x - w_start x = ws) l'.
Proof.
  induction fuel as [|fuel IH]; intros st st' w w' l Hrun Hl Hws; [done|].
  cbn [slide] in Hrun. destruct (startidx st <=? sl).
  - apply bind_inv in Hrun as ([] & w1 & _ & Hrun).
    eapply (IH _ _ _ _ (l ++ [(num st, startidx st, startidx st + ws)]));
      [exact Hrun| |].
    + destruct Hl as (Hn & Hs & He). unfold index_of.
      cbn [index_nums index_starts index_ends].
      by rewrite Hn, Hs, He, !fmap_app.
    + apply Forall_app. split; [done|]. constructor; [|done].
      unfold w_end, w_start. simpl. lia.
  - injection Hrun as <- <-. by exists l.
Qed.

Lemma read_index_written (dir : string) (w : world) (d : gmap string dataset)
    (l : list window) :
  files w !! index_path dir
    = Some (Hdf5 (<["ends" := IntVector (w_end <$> l)]>
                    (<["starts" := IntVector (w_start <$> l)]>
                       (<["nums" := IntVector (w_num <$> l)]> d)))) →
  read_index dir w = Some l.
Proof.
  intros Hw. unfold read_index. rewrite Hw.
  rewrite lookup_insert_ne, lookup_insert_ne, lookup_insert_eq by done.
  rewrite lookup_insert_ne, lookup_insert_eq by done.
  rewrite lookup_insert_eq. f_equal. clear Hw.
  induction l as [|[[a b] c] l IH]; [done|].
  cbn [fmap list_fmap zip zip_with]. by rewrite IH.
Qed.

(** Whenever a run returns, every window of the index it leaves is
    [window_size] wide. *)
Lemma produce_subseqs_index_widths (fuel : nat) (ws si : Z) (full dir : string)
    (w w' : world) :
  produce_subseqs fuel ws si full dir w = (Returned tt, w') →
  ∃ l, read_index dir w' = Some l ∧ Forall (λ x, w_end x - w_start x = ws) l.
Proof.
  unfold produce_subseqs. intros H.
  apply bind_inv in H as ([] & w1 & _ & H).
  apply bind_inv in H as ([] & w2 & _ & H).
  apply bind_inv in H as (ds & w3 & _ & H).
  apply bind_inv in H as (total & w4 & _ & H).
  apply bind_inv in H as (st & w5 & Hslide & H).
  apply bind_inv in H as (st' & w6 & Hrem & H).
  apply bind_inv in H as ([] & w7 & _ & H).
  apply bind_inv in H as ([] & w8 & Hn & H).
  apply bind_inv in H as ([] & w9 & Hs & He).
  destruct (slide_index_inv _ _ _ _ _ _ _ _ _ _ [] Hslide) as (l & Hl & Hws);
    [done|constructor|].
  assert (∃ l', index_of st' l' ∧ Forall (λ x, w_end x - w_start x = ws) l')
    as (l' & (Hn' & Hs' & He') & Hws').
  { destruct (startidx st <? total).
    - apply bind_inv in Hrem as ([] & w6' & _ & Hrem). injection Hrem as <- <-.
      exists (l ++ [(num st, total - ws, total)]). split.
      + by apply index_of_snoc.
      + apply Forall_app. split; [done|]. constructor; [|done].
        unfold w_end, w_start. simpl. lia.
    - injection Hrem as <- <-. by exists l. }
  exists l'. split; [|done].
  apply h5_set_inv in Hn as (d0 & Hd0 & Hf8).
  apply h5_set_inv in Hs as (d1 & Hd1 & Hf9).
  apply h5_set_inv in He as (d2 & Hd2 & Hf').
  rewrite Hf8, lookup_insert_eq in Hd1. injection Hd1 as <-.
  rewrite Hf9, lookup_insert_eq in Hd2. injection Hd2 as <-.
  apply (read_index_written dir w' d0).
  by rewrite Hf', lookup_insert_eq, Hn', Hs', He'.
Qed.

(** *** The files, for a stride and a window size that are not negative *)

Section WindowWidth.

Variables (window_size slide_interval : Z) (full_seq_path directory_name : string).
Variables (tables : gmap string dataset) (ncols : nat) (rows : list (list ascii)).

Let alignment : dataset := CharTable ncols rows.
Let total_len : Z := Z.of_nat ncols.
Let startlimit : Z := total_len - window_size.

Hypothesis Halignment : tables !! "alignment" = Some alignment.
Hypothesis Houtside : ∀ x, directory_name +:+ "/" +:+ x ≠ full_seq_path.
Hypothesis Hwf : table_wf alignment.
Hypothesis Hstride : 0 ≤ slide_interval.
Hypothesis Hsize : 0 ≤ window_size ≤ total_len.

Lemma full_width_inside (n s e : Z) :
  0 ≤ s → e = s + window_size → e ≤ total_len →
  full_width alignment window_size (n, s, e).
Proof.
  intros Hs -> He. split; [unfold w_end, w_start; simpl; lia|].
  eexists. split.
  { apply columns_in_order. unfold w_end, w_start. simpl.
    apply in_order_window; lia. }
  apply Forall_fmap.
  eapply Forall_impl; [exact Hwf|]. intros r Hr. simpl in Hr.
  unfold w_end, w_start. simpl. rewrite slice_length; lia.
Qed.

Lemma only_windows_files (w1 w2 w1' w2' : world) :
  files w1 = files w1' → files w2 = files w2' →
  only_windows alignment directory_name window_size w1 w2 →
  only_windows alignment directory_name window_size w1' w2'.
Proof. unfold only_windows. by intros <- <-. Qed.

Lemma only_windows_refl (w : world) :
  only_windows alignment directory_name window_size w w.
Proof. intros p. by left. Qed.

Lemma only_windows_trans (w1 w2 w3 : world) :
  only_windows alignment directory_name window_size w1 w2 →
  only_windows alignment directory_name window_size w2 w3 →
  only_windows alignment directory_name window_size w1 w3.
Proof.
  intros H12 H23 p. destruct (H23 p) as [Heq|[Hidx|Hwin]].
  - rewrite Heq. apply H12.
  - by right; left.
  - by right; right.
Qed.

Lemma only_windows_write (w : world) (x : window) :
  full_width alignment window_size x →
  only_windows alignment directory_name window_size w
    (World (<[window_path directory_name (w_num x) (w_start x) (w_end x)
              := Text (subseq_text alignment (w_start x) (w_end x))]> (files w))
           (dirs w) (stdout w)).
Proof.
  intros Hx p. cbn [files].
  destruct (decide (window_path directory_name (w_num x) (w_start x) (w_end x) = p))
    as [<-|Hne].
  - right; right. exists x. by rewrite lookup_insert_eq.
  - left. by apply lookup_insert_ne.
Qed.

(** The loop, however far the fuel takes it. *)
Lemma slide_only_windows (fuel : nat) :
  ∀ (st : slider) (w : world),
    holds_tables full_seq_path tables w →
    0 ≤ startidx st →
    let run := slide fuel window_size slide_interval full_seq_path
                 directory_name startlimit st w in
    holds_tables full_seq_path tables run.2 ∧
    only_windows alignment directory_name window_size w run.2.
Proof.
  induction fuel as [|fuel IH]; intros st w Hw Hst run; subst run.
  - split; [done|apply only_windows_refl].
  - cbn [slide]. destruct (Z.leb_spec (startidx st) startlimit) as [Hc|Hc].
    + erewrite bind_returned.
      2: { apply (write_subseq_run full_seq_path tables ncols rows Halignment);
           [done|apply window_path_outside, Houtside|].
           apply in_order_window; lia. }
      match goal with |- context [slide fuel _ _ _ _ _ ?st' ?w'] =>
        destruct (IH st' w') as [Hw' Hrest] end.
      * unfold holds_tables. cbn [files]. rewrite lookup_insert_ne; [done|].
        apply window_path_outside, Houtside.
      * cbn [startidx]. lia.
      * split; [exact Hw'|].
        eapply only_windows_trans; [|exact Hrest].
        apply (only_windows_write w (num st, startidx st, startidx st + window_size)).
        apply full_width_inside; [done|done|]. subst startlimit. lia.
    + split; [done|apply only_windows_refl].
Qed.

Lemma keeps_write_index (q : string) (ns ss es : list Z) :
  index_path directory_name ≠ q →
  keeps q (h5_open (index_path directory_name) ;;;
           h5_set (index_path directory_name) "nums" (IntVector ns) ;;;
           h5_set (index_path directory_name) "starts" (IntVector ss) ;;;
           h5_set (index_path directory_name) "ends" (IntVector es)).
Proof.
  intros Hq. apply keeps_bind; [by apply keeps_h5_open|]. intros _.
  apply keeps_bind; [by apply keeps_h5_set|]. intros _.
  apply keeps_bind; [by apply keeps_h5_set|]. intros _.
  by apply keeps_h5_set.
Qed.

Lemma only_windows_index (w w1 : world) (ns ss es : list Z) :
  only_windows alignment directory_name window_size w w1 →
  only_windows alignment directory_name window_size w
    ((h5_open (index_path directory_name) ;;;
      h5_set (index_path directory_name) "nums" (IntVector ns) ;;;
      h5_set (index_path directory_name) "starts" (IntVector ss) ;;;
      h5_set (index_path directory_name) "ends" (IntVector es)) w1).2.
Proof.
  intros H1 p.
  destruct (decide (index_path directory_name = p)) as [<-|Hne]; [by right; left|].
  rewrite (keeps_write_index p ns ss es Hne w1). apply H1.
Qed.

(** A whole run, however it ends. *)
Lemma produce_subseqs_only_windows (fuel : nat) (w : world) :
  holds_tables full_seq_path tables w →
  only_windows alignment directory_name window_size w
    (produce_subseqs fuel window_size slide_interval full_seq_path
       directory_name w).2.
Proof.
  intros Hw.
  destruct (ensure_dir_run directory_name w) as [Hdir Hfiles].
  assert (Hw1 : holds_tables full_seq_path tables (made_dir directory_name w)).
  { unfold holds_tables. by rewrite Hfiles. }
  apply (only_windows_files (made_dir directory_name w) _ w _ Hfiles eq_refl).
  unfold produce_subseqs.
  erewrite bind_returned; [|exact Hdir].
  pose proof Hw1 as Hw1'. unfold holds_tables in Hw1'.
  erewrite bind_returned; [|by unfold h5_open; rewrite Hw1'].
  erewrite bind_returned; [|by unfold h5_get; rewrite Hw1', Halignment].
  erewrite bind_returned; [|reflexivity].
  fold total_len startlimit.
  destruct (slide_only_windows fuel (Slider [] [] [] 0 0)
              (made_dir directory_name w) Hw1 ltac:(done)) as [Hw2 Hloop].
  destruct (slide fuel window_size slide_interval full_seq_path directory_name
              startlimit (Slider [] [] [] 0 0) (made_dir directory_name w))
    as [[st|e|] w2] eqn:Hslide; cbn [fst snd] in *.
  - erewrite bind_returned; [|exact Hslide].
    destruct (startidx st <? total_len).
    + erewrite bind_returned.
      2: { erewrite bind_returned; [reflexivity|].
           apply (write_subseq_run full_seq_path tables ncols rows Halignment);
             [done|apply window_path_outside, Houtside|].
           apply in_order_to_end. lia. }
      apply only_windows_index.
      eapply only_windows_trans; [exact Hloop|].
      apply (only_windows_write w2 (num st, startlimit, total_len)).
      apply full_width_inside; subst startlimit; lia.
    + erewrite bind_returned; [|reflexivity].
      by apply only_windows_index.
  - erewrite bind_raised; [|exact Hslide]. done.
  - erewrite bind_out_of_fuel; [|exact Hslide]. done.
Qed.

End WindowWidth.

(** C10.  Whenever a run returns, every window of the index it leaves, the
    one of the remainder among them, ends [window_size] after its start.  In
    a ready world, for a stride that is not negative and a window size
    between zero and the length of the alignment, a run writes, however far
    it gets, nothing but the index and files of windows whose rows have
    exactly [window_size] columns: no shorter window is ever written. *)
Theorem windows_full_width (fuel : nat) (window_size slide_interval : Z)
    (full_seq_path directory_name : string)
    (ncols : nat) (rows : list (list ascii)) (w : world) :
  let ds := CharTable ncols rows in
  let run := produce_subseqs fuel window_size slide_interval full_seq_path
               directory_name w in
  (run.1 = Returned tt →
   ∃ l : list window,
     read_index directory_name run.2 = Some l ∧
     Forall (λ x, w_end x - w_start x = window_size) l) ∧
  (ready full_seq_path directory_name ds w →
   table_wf ds →
   0 ≤ slide_interval →
   0 ≤ window_size ≤ Z.of_nat ncols →
   only_windows ds directory_name window_size w run.2).
Proof.
  intros ds run. split.
  - intros Hret. apply (produce_subseqs_index_widths fuel window_size
                          slide_interval full_seq_path directory_name w).
    rewrite <- Hret. subst run. by destruct (produce_subseqs _ _ _ _ _ _).
  - intros (tables & Hal & Hw & Hout & _) Hwf Hsi Hws.
    by apply (produce_subseqs_only_windows window_size slide_interval
                full_seq_path directory_name tables ncols rows).
Qed.

Lemma windows_full_width_witness :
  let run := produce_subseqs 6 3 2 "tester/final_seqs.hdf5" "slider"
               (sample_world 7) in
  (∃ l : list window,
     read_index "slider" run.2 = Some l ∧
     Forall (λ x, w_end x - w_start x = 3) l) ∧
  only_windows (sample_alignment 7) "slider" 3 (sample_world 7) run.2.
Proof.
  intros run.
  destruct (windows_full_width 6 3 2 "tester/final_seqs.hdf5" "slider" 7
              [replicate 7 "A"%char; replicate 7 "C"%char] (sample_world 7))
    as [Hindex Hfiles].
  split.
  - apply Hindex. vm_compute. reflexivity.
  - apply Hfiles.
    + apply sample_ready.
    + simpl. repeat constructor.
    + lia.
    + simpl. lia.
Defined.

(** ** A window longer than the alignment *)






(** ** Sorting *)

Section SortingFacts.
Context {A : Type} (leb : A → A → bool).
Hypothesis leb_total : ∀ a b, leb a b = true ∨ leb b a = true.

Lemma insert_sorted_perm (x : A) (l : list A) : insert_sorted leb x l ≡ₚ x :: l.
Proof.
  induction l as [|y l IH]; [done|]. simpl.
  destruct (leb x y); [done|]. rewrite IH. apply Permutation_swap.
Qed.

Lemma sorted_perm (l : list A) : sorted leb l ≡ₚ l.
Proof.
  induction l as [|x l IH]; [done|]. simpl.
  rewrite insert_sorted_perm. by constructor.
Qed.

Lemma insert_sorted_hd (x y : A) (l : list A) :
  leb y x = true → HdRel (λ a b, leb a b = true) y l →
  HdRel (λ a b, leb a b = true) y (insert_sorted leb x l).
Proof.
  intros Hyx Hl. destruct l as [|z l]; simpl; [by constructor|].
  destruct (leb x z); constructor; [done|]. by inversion Hl.
Qed.

Lemma insert_sorted_sorted (x : A) (l : list A) :
  Sorted (λ a b, leb a b = true) l →
  Sorted (λ a b, leb a b = true) (insert_sorted leb x l).
Proof.
  induction 1 as [|y l Hl IH Hhd]; simpl; [by repeat constructor|].
  destruct (leb x y) eqn:Hxy.
  - constructor; [by constructor|by constructor].
  - constructor; [done|]. apply insert_sorted_hd; [|done].
    by destruct (leb_total x y) as [H|H]; [congruence|].
Qed.

Lemma sorted_sorted (l : list A) : Sorted (λ a b, leb a b = true) (sorted leb l).
Proof.
  induction l as [|x l IH]; simpl; [constructor|].
  by apply insert_sorted_sorted.
Qed.

End SortingFacts.

Lemma Sorted_weaken {A} (R R' : relation A) (l : list A) :
  (∀ a b, R a b → R' a b) → Sorted R l → Sorted R' l.
Proof.
  intros HR. induction 1 as [|x l Hl IH Hhd]; constructor; [done|].
  destruct Hhd; constructor. by apply HR.
Qed.

(** ** Species trees *)

Lemma TreeNode_ind (P : TreeNode → Prop) :
  (∀ i h s cs, Forall P cs → P (Node i h s cs)) → ∀ n, P n.
Proof.
  intros H. fix IH 1. intros [i h s cs]. apply H.
  induction cs as [|c cs IHcs]; constructor; [apply IH|apply IHcs].
Qed.

Lemma forest_size_app (l1 l2 : list TreeNode) :
  forest_size (l1 ++ l2) = (forest_size l1 + forest_size l2)%nat.
Proof. unfold forest_size. by rewrite fmap_app, list_sum_app. Qed.

Lemma size_unfold (n : TreeNode) : size n = S (forest_size (children n)).
Proof. by destruct n. Qed.

Lemma forest_size_cons (n : TreeNode) (q : list TreeNode) :
  forest_size (n :: q) = (size n + forest_size q)%nat.
Proof. done. Qed.

(** The traversal visits the nodes of the queue, each one once. *)
Lemma traverse_queue_perm (fuel : nat) :
  ∀ q : list TreeNode, (forest_size q ≤ fuel)%nat →
    traverse_queue fuel q ≡ₚ concat (nodes <$> q).
Proof.
  induction fuel as [|fuel IH]; intros [|n q] Hq; try done.
  - rewrite forest_size_cons, size_unfold in Hq. lia.
  - rewrite forest_size_cons, size_unfold in Hq.
    destruct n as [i h s cs]. cbn [traverse_queue children] in *.
    rewrite IH.
    + rewrite fmap_app, concat_app. cbn [fmap list_fmap concat nodes children].
      constructor. fold (fmap nodes cs) (fmap nodes q).
      apply Permutation_app_comm.
    + rewrite forest_size_app. lia.
Qed.

Lemma traverse_perm (n : TreeNode) : traverse n ≡ₚ nodes n.
Proof.
  unfold traverse. rewrite traverse_queue_perm.
  - simpl. by rewrite app_nil_r.
  - rewrite forest_size_cons. change (forest_size []) with 0%nat. lia.
Qed.

Lemma get_descendants_perm (n : TreeNode) :
  get_descendants n ≡ₚ concat (nodes <$> children n).
Proof. unfold get_descendants. by apply traverse_queue_perm. Qed.


Lemma children_tag (n : TreeNode) :
  children (tag_schild n) = tag_schild <$> children n.
Proof. by destruct n. Qed.

Lemma size_tag (n : TreeNode) : size (tag_schild n) = size n.
Proof.
  induction n as [i h s cs IH] using TreeNode_ind.
  cbn [size tag_schild children]. do 2 f_equal.
  rewrite <- list_fmap_compose. apply Forall_fmap_ext_1.
  eapply Forall_impl; [exact IH|]. by intros c Hc.
Qed.

Lemma traverse_queue_tag (fuel : nat) (q : list TreeNode) :
  traverse_queue fuel (tag_schild <$> q) = tag_schild <$> traverse_queue fuel q.
Proof.
  revert q. induction fuel as [|fuel IH]; intros [|n q]; try done.
  cbn [fmap list_fmap traverse_queue]. f_equal.
  rewrite children_tag. fold (fmap tag_schild q).
  by rewrite <- fmap_app, IH.
Qed.

Lemma traverse_tag (n : TreeNode) :
  traverse (tag_schild n) = tag_schild <$> traverse n.
Proof.
  unfold traverse. rewrite size_tag. apply (traverse_queue_tag _ [n]).
Qed.

Lemma minimum_spec (l : list Z) :
  l ≠ [] →
  ∃ m, minimum l = Some m ∧ m ∈ l ∧ ∀ x, x ∈ l → m ≤ x.
Proof.
  destruct l as [|a l]; [done|]. intros _. simpl. eexists. split; [done|].
  revert a. induction l as [|b l IH]; intros a; simpl.
  - split; [by left|]. intros x Hx%list_elem_of_singleton. lia.
  - destruct (IH (a `min` b)) as [Hin Hle]. split.
    + apply elem_of_cons in Hin as [Hin|Hin]; [|by right; right].
      rewrite Hin. destruct (Z.min_spec a b) as [[_ ->]|[_ ->]];
        [by left|by right; left].
    + intros x Hx. apply elem_of_cons in Hx as [->|Hx].
      * specialize (Hle (a `min` b) ltac:(by left)). lia.
      * apply elem_of_cons in Hx as [->|Hx].
        -- specialize (Hle (a `min` b) ltac:(by left)). lia.
        -- apply Hle. by right.
Qed.

Lemma maximum_spec (l : list Z) :
  l ≠ [] →
  ∃ m, maximum l = Some m ∧ m ∈ l ∧ ∀ x, x ∈ l → x ≤ m.
Proof.
  destruct l as [|a l]; [done|]. intros _. simpl. eexists. split; [done|].
  revert a. induction l as [|b l IH]; intros a; simpl.
  - split; [by left|]. intros x Hx%list_elem_of_singleton. lia.
  - destruct (IH (a `max` b)) as [Hin Hle]. split.
    + apply elem_of_cons in Hin as [Hin|Hin]; [|by right; right].
      rewrite Hin. destruct (Z.max_spec a b) as [[_ ->]|[_ ->]];
        [by right; left|by left].
    + intros x Hx. apply elem_of_cons in Hx as [->|Hx].
      * specialize (Hle (a `max` b) ltac:(by left)). lia.
      * apply elem_of_cons in Hx as [->|Hx].
        -- specialize (Hle (a `max` b) ltac:(by left)). lia.
        -- apply Hle. by right.
Qed.

Lemma get_descendants_nonempty (n : TreeNode) :
  children n ≠ [] → get_descendants n ≠ [].
Proof.
  intros Hc Hd. pose proof (get_descendants_perm n) as Hp. rewrite Hd in Hp.
  apply Permutation_nil_l in Hp.
  destruct (children n) as [|c cs]; [done|]. simpl in Hp.
  destruct c. discriminate.
Qed.

(** After the first loop every node carries its value. *)
Lemma schild_tag (n : TreeNode) : _schild (tag_schild n) = Some (schild_value n).
Proof.
  destruct n as [i h s cs]. unfold schild_value. cbn [tag_schild _schild children idx].
  destruct cs as [|c cs]; [done|].
  destruct (minimum_spec (idx <$> get_descendants (Node i h s (c :: cs))))
    as (m & -> & _); [|done].
  intros Hnil. apply fmap_nil_inv in Hnil.
  by apply get_descendants_nonempty in Hnil.
Qed.

Lemma schilds_tag (cs : list TreeNode) :
  schilds (tag_schild <$> cs) = Some (schild_value <$> cs).
Proof.
  induction cs as [|c cs IH]; [done|].
  cbn [fmap list_fmap schilds]. fold (fmap tag_schild cs).
  by rewrite schild_tag, IH.
Qed.

Lemma divergence_tag (Ne : Q) (n : TreeNode) :
  children n ≠ [] → divergence Ne (tag_schild n) = Some (event_of Ne n).
Proof.
  intros Hc. unfold divergence, event_of.
  rewrite children_tag, schilds_tag.
  assert (schild_value <$> children n ≠ []) as Hne.
  { intros H. by apply fmap_nil_inv in H. }
  destruct (minimum_spec _ Hne) as (d & -> & _).
  destruct (maximum_spec _ Hne) as (s & -> & _).
  by destruct n.
Qed.

Lemma add_divergences_tag (Ne : Q) (l : list TreeNode) (demog : list MassMigration) :
  add_divergences (inr Ne) (tag_schild <$> l) demog
    = Some (foldl (add_event Ne) demog l).
Proof.
  revert demog. induction l as [|n l IH]; intros demog; [done|].
  cbn [fmap list_fmap add_divergences foldl]. fold (fmap tag_schild l).
  rewrite children_tag. unfold add_event at 2, has_children, is_leaf.
  destruct (children n) as [|c cs] eqn:Hc; simpl; [apply IH|].
  rewrite divergence_tag by (rewrite Hc; done). apply IH.
Qed.


(** *** The set keeps one event per node *)

Lemma filter_cons_bool {A} (f : A → bool) (x : A) (l : list A) :
  filter f (x :: l) = if f x then x :: filter f l else filter f l.
Proof.
  destruct (f x) eqn:Hfx.
  - rewrite filter_cons_True; [done|]. by rewrite Hfx.
  - rewrite filter_cons_False; [done|]. rewrite Hfx. intros [].
Qed.

Lemma foldl_add_event (Ne : Q) (l : list TreeNode) (demog : list MassMigration) :
  foldl (add_event Ne) demog l
    = demog ++ (event_of Ne <$> filter has_children l).
Proof.
  revert demog. induction l as [|n l IH]; intros demog.
  - simpl. by rewrite app_nil_r.
  - cbn [foldl]. rewrite filter_cons_bool. unfold add_event at 2, set_add.
    destruct (has_children n).
    + cbn [fmap list_fmap]. fold (fmap (event_of Ne) (filter has_children l)).
      rewrite IH. by rewrite <- app_assoc.
    + by apply IH.
Qed.

(** *** Distinct events *)

Lemma elem_of_concat {A} (x : A) (ls : list (list A)) :
  x ∈ concat ls ↔ ∃ l, l ∈ ls ∧ x ∈ l.
Proof.
  rewrite list_elem_of_In, in_concat. split.
  - intros (l & Hl & Hx). exists l. by rewrite !list_elem_of_In.
  - intros (l & Hl & Hx). exists l. by rewrite <- !list_elem_of_In.
Qed.

Lemma filter_concat {A} (f : A → bool) (ls : list (list A)) :
  filter f (concat ls) = concat (filter f <$> ls).
Proof.
  induction ls as [|l ls IH]; [done|]. simpl. by rewrite filter_app, IH.
Qed.

Lemma fmap_concat {A B} (f : A → B) (ls : list (list A)) :
  f <$> concat ls = concat ((λ l : list A, f <$> l) <$> ls).
Proof.
  induction ls as [|l ls IH]; [done|]. simpl. by rewrite fmap_app, IH.
Qed.

Lemma idxs_unfold (n : TreeNode) : idxs n = idx n :: concat (idxs <$> children n).
Proof.
  unfold idxs. destruct n as [i h s cs]. cbn [nodes fmap list_fmap children idx].
  f_equal. fold (fmap idx (concat (nodes <$> cs))).
  by rewrite fmap_concat, <- list_fmap_compose.
Qed.

Lemma keys_unfold (n : TreeNode) :
  keys n = (if has_children n then [node_key n] else [])
             ++ concat (keys <$> children n).
Proof.
  unfold keys. destruct n as [i h s cs]. cbn [nodes children].
  rewrite filter_cons_bool.
  assert (node_key <$> filter has_children (concat (nodes <$> cs))
          = concat ((λ c, node_key <$> filter has_children (nodes c)) <$> cs)) as Heq.
  { rewrite filter_concat, fmap_concat, <- !list_fmap_compose. done. }
  destruct (has_children (Node i h s cs)); cbn [fmap list_fmap app];
    by rewrite <- Heq.
Qed.

(** Two members of a duplicate-free concatenation that share an element are
    the same member. *)
Lemma concat_NoDup_member {A B} (f : A → list B) (cs : list A) (c c' : A) (x : B) :
  NoDup (concat (f <$> cs)) → c ∈ cs → c' ∈ cs → x ∈ f c → x ∈ f c' → c = c'.
Proof.
  induction cs as [|c0 cs IH]; intros Hnd Hc Hc' Hx Hx'.
  - by apply elem_of_nil in Hc.
  - cbn [fmap list_fmap concat] in Hnd. apply NoDup_app in Hnd as (_ & Hdis & Hnd).
    apply elem_of_cons in Hc as [->|Hc]; apply elem_of_cons in Hc' as [->|Hc'].
    + done.
    + destruct (Hdis x Hx). apply elem_of_concat. exists (f c').
      split; [by apply list_elem_of_fmap_2|done].
    + destruct (Hdis x Hx'). apply elem_of_concat. exists (f c).
      split; [by apply list_elem_of_fmap_2|done].
    + by apply IH.
Qed.

Lemma concat_NoDup_each {A B} (f : A → list B) (cs : list A) (c : A) :
  NoDup (concat (f <$> cs)) → c ∈ cs → NoDup (f c).
Proof.
  induction cs as [|c0 cs IH]; intros Hnd Hc.
  - by apply elem_of_nil in Hc.
  - cbn [fmap list_fmap concat] in Hnd. apply NoDup_app in Hnd as (H0 & _ & Hnd).
    apply elem_of_cons in Hc as [->|Hc]; [done|by apply IH].
Qed.

(** Lists that live in the members of a duplicate-free concatenation. *)
Lemma concat_NoDup_inside {A B C} (f : A → list B) (g : A → list C)
    (p : C → B) (cs : list A) :
  NoDup (concat (f <$> cs)) →
  (∀ c, c ∈ cs → NoDup (g c)) →
  (∀ c y, c ∈ cs → y ∈ g c → p y ∈ f c) →
  NoDup (concat (g <$> cs)).
Proof.
  induction cs as [|c0 cs IH]; intros Hnd Hg Hin; [constructor|].
  cbn [fmap list_fmap concat] in *. apply NoDup_app in Hnd as (_ & Hdis & Hnd).
  apply NoDup_app. split; [|split].
  - apply Hg. by left.
  - intros y Hy Hy'. apply elem_of_concat in Hy' as (l & Hl & Hyl).
    apply list_elem_of_fmap in Hl as (c & -> & Hc).
    apply (Hdis (p y)); [apply Hin; [by left|done]|].
    apply elem_of_concat. exists (f c).
    split; [by apply list_elem_of_fmap_2|]. apply Hin; [by right|done].
  - apply IH; [done| |].
    + intros c Hc. apply Hg. by right.
    + intros c y Hc. apply Hin. by right.
Qed.


Lemma arity_ok_unfold (P : nat → Prop) (n : TreeNode) :
  arity_ok P n ↔ P (length (children n)) ∧ Forall (arity_ok P) (children n).
Proof.
  destruct n as [i h s cs]. cbn [arity_ok children].
  apply and_iff_compat_l. induction cs as [|c cs IH].
  - split; [constructor|done].
  - rewrite Forall_cons, IH. done.
Qed.

Lemma schild_value_in (n : TreeNode) : schild_value n ∈ idxs n.
Proof.
  rewrite idxs_unfold. unfold schild_value.
  destruct (children n) as [|c cs] eqn:Hc; [by left|]. right.
  destruct (minimum_spec (idx <$> get_descendants n)) as (m & -> & Hm & _).
  { intros Hnil. apply fmap_nil_inv in Hnil.
    apply get_descendants_nonempty in Hnil; [done|by rewrite Hc]. }
  simpl. rewrite get_descendants_perm, Hc, fmap_concat, <- list_fmap_compose in Hm.
  done.
Qed.

Lemma child_idxs (n c : TreeNode) (x : Z) :
  c ∈ children n → x ∈ idxs c → x ∈ idxs n.
Proof.
  intros Hc Hx. rewrite idxs_unfold. right. apply elem_of_concat.
  exists (idxs c). split; [by apply list_elem_of_fmap_2|done].
Qed.

(** Source and destination of the event of a node are values of two of its
    children. *)
Lemma node_key_children (n : TreeNode) :
  children n ≠ [] →
  ∃ a b, a ∈ children n ∧ b ∈ children n ∧
    node_key n = (schild_value b, schild_value a) ∧
    ∀ c, c ∈ children n → schild_value a ≤ schild_value c ≤ schild_value b.
Proof.
  intros Hc. unfold node_key.
  assert (schild_value <$> children n ≠ []) as Hne.
  { intros H. by apply fmap_nil_inv in H. }
  destruct (minimum_spec _ Hne) as (d & -> & Hd & Hmin).
  destruct (maximum_spec _ Hne) as (s & -> & Hs & Hmax).
  apply list_elem_of_fmap in Hd as (a & -> & Ha).
  apply list_elem_of_fmap in Hs as (b & -> & Hb).
  exists a, b. repeat split; try done.
  - apply Hmin. by apply list_elem_of_fmap_2.
  - apply Hmax. by apply list_elem_of_fmap_2.
Qed.

Lemma keys_in_idxs (n : TreeNode) (k : Z * Z) :
  k ∈ keys n → k.1 ∈ idxs n ∧ k.2 ∈ idxs n.
Proof.
  revert k. induction n as [i h s cs IH] using TreeNode_ind. intros k.
  rewrite keys_unfold, elem_of_app. intros [Hk|Hk].
  - unfold has_children, is_leaf in Hk. cbn [children] in Hk.
    destruct cs as [|c cs]; [by apply elem_of_nil in Hk|].
    apply list_elem_of_singleton in Hk as ->.
    destruct (node_key_children (Node i h s (c :: cs))) as (a & b & Ha & Hb & -> & _);
      [done|].
    split; simpl.
    + eapply child_idxs; [exact Hb|apply schild_value_in].
    + eapply child_idxs; [exact Ha|apply schild_value_in].
  - apply elem_of_concat in Hk as (l & Hl & Hk).
    apply list_elem_of_fmap in Hl as (c & -> & Hc). cbn [children] in Hc.
    rewrite Forall_forall in IH. destruct (IH c Hc k Hk) as [H1 H2].
    split; eapply child_idxs; done.
Qed.

(** In a tree with unique indices and no node with a single child, no two
    nodes give the same source and destination. *)
Lemma keys_NoDup (n : TreeNode) :
  NoDup (idxs n) → branching n → NoDup (keys n).
Proof.
  induction n as [i h s cs IH] using TreeNode_ind. intros Hnd Hbr.
  rewrite idxs_unfold in Hnd. apply NoDup_cons in Hnd as [_ Hnd].
  apply arity_ok_unfold in Hbr as [Hk Hbr]. cbn [children] in *.
  rewrite Forall_forall in IH, Hbr.
  assert (Hsub : NoDup (concat (keys <$> cs))).
  { apply (concat_NoDup_inside idxs keys fst); [done| |].
    - intros c Hc. apply IH; [done| |by apply Hbr].
      by apply (concat_NoDup_each idxs cs).
    - intros c y Hc Hy. by apply keys_in_idxs. }
  rewrite keys_unfold. cbn [children].
  unfold has_children, is_leaf. cbn [children].
  destruct cs as [|c1 cs1] eqn:Hcs; [done|]. rewrite <- Hcs in *.
  cbn [negb app]. apply NoDup_cons. split; [|done].
  intros Hin. apply elem_of_concat in Hin as (l & Hl & Hin).
  apply list_elem_of_fmap in Hl as (c & -> & Hc).
  apply keys_in_idxs in Hin as [Hs Hd].
  destruct (node_key_children (Node i h s cs)) as (a & b & Ha & Hb & Hkey & Hrange);
    [by rewrite Hcs|].
  cbn [children] in *. rewrite Hkey in Hs, Hd. cbn [fst snd] in Hs, Hd.
  assert (b = c) as ->.
  { apply (concat_NoDup_member idxs cs b c (schild_value b)); try done.
    apply schild_value_in. }
  assert (a = c) as ->.
  { apply (concat_NoDup_member idxs cs a c (schild_value a)); try done.
    apply schild_value_in. }
  (* every child has the value of [c], so two of them share an index *)
  destruct cs1 as [|c2 cs2]; [by rewrite Hcs in Hk|].
  rewrite Hcs in Hnd, Hrange. cbn [fmap list_fmap concat] in Hnd.
  apply NoDup_app in Hnd as (_ & Hdis & _).
  apply (Hdis (schild_value c1)); [apply schild_value_in|].
  apply elem_of_app. left.
  assert (schild_value c1 = schild_value c2) as ->.
  { pose proof (Hrange c1 ltac:(by left)).
    pose proof (Hrange c2 ltac:(by right; left)). lia. }
  apply schild_value_in.
Qed.


(** *** The result of the method *)

Lemma unique_idx_idxs (t : TreeNode) : unique_idx t ↔ NoDup (idxs t).
Proof. unfold unique_idx, idxs. by rewrite traverse_perm. Qed.

(** Reading [_Ne] for a [mut] that is not zero; an [Ne] that is not zero
    comes from such a [mut]. *)
Lemma eval_Ne_value (self : Coalseq) :
  ¬ (_mut self == 0)%Q → eval_Ne self = inr (_Ne self).
Proof.
  intros Hmut. unfold eval_Ne.
  destruct (Qeq_bool (_mut self) 0) eqn:Heq; [|done].
  by apply Qeq_bool_iff in Heq.
Qed.

Lemma Ne_of_mut (self : Coalseq) :
  ¬ (_Ne self == 0)%Q → ¬ (_mut self == 0)%Q.
Proof.
  intros HNe Hmut. apply HNe. unfold _Ne. rewrite Hmut.
  unfold Qdiv. change (/ 0)%Q with 0%Q. ring.
Qed.

Lemma positive_Ne_of_mut (self : Coalseq) :
  (0 < _Ne self)%Q → ¬ (_mut self == 0)%Q.
Proof.
  intros HNe. apply Ne_of_mut. intros H. rewrite H in HNe.
  by apply Qlt_irrefl in HNe.
Qed.

(** The events of a tree, in the order of the traversal: one for every node
    with children. *)
Lemma get_demography_events (set_order : list MassMigration → list MassMigration)
    (self : Coalseq) :
  ¬ (_mut self == 0)%Q →
  _get_demography set_order self =
    Some (sorted by_time
            (set_order (event_of (_Ne self)
                          <$> filter has_children (traverse (tree self))))).
Proof.
  intros Hmut. unfold _get_demography. rewrite eval_Ne_value by done.
  by rewrite traverse_tag, add_divergences_tag, foldl_add_event.
Qed.

Lemma by_time_total (a b : MassMigration) :
  by_time a b = true ∨ by_time b a = true.
Proof.
  unfold by_time. rewrite !Qle_bool_iff.
  destruct (Qlt_le_dec (time a) (time b)) as [H|H]; [left|by right].
  by apply Qlt_le_weak.
Qed.

Lemma heights_ok_unfold (n : TreeNode) :
  heights_ok n ↔
  (children n = [] → (height n == 0)%Q) ∧
  Forall (λ c, (height c <= height n)%Q ∧ heights_ok c) (children n).
Proof.
  destruct n as [i h s cs]. cbn [heights_ok children height].
  apply and_iff_compat_l. induction cs as [|c cs IH].
  - split; [constructor|done].
  - rewrite Forall_cons, IH. tauto.
Qed.

Lemma heights_nonneg (t n : TreeNode) :
  heights_ok t → n ∈ nodes t → (0 <= height n)%Q.
Proof.
  revert n. induction t as [i h s cs IH] using TreeNode_ind. intros n Hok Hn.
  apply heights_ok_unfold in Hok as [Hleaf Hok]. cbn [children height nodes] in *.
  assert (Hh : (0 <= h)%Q).
  { destruct cs as [|c cs']; [by rewrite Hleaf|].
    apply Forall_cons in Hok as [[Hle Hc] _].
    apply Forall_cons in IH as [IHc _].
    eapply Qle_trans; [|exact Hle].
    apply IHc; [done|]. destruct c. by left. }
  apply elem_of_cons in Hn as [->|Hn]; [done|].
  apply elem_of_concat in Hn as (l & Hl & Hn).
  apply list_elem_of_fmap in Hl as (c & -> & Hc).
  destruct cs as [|c0 cs']; [by apply elem_of_nil in Hc|].
  rewrite Forall_forall in IH, Hok.
  apply (IH c Hc); [|done]. by apply Hok.
Qed.

(** A strictly bifurcating tree has one tip more than it has nodes with
    children. *)
Lemma bifurcating_count (t : TreeNode) :
  bifurcating t →
  (length (filter has_children (nodes t)) + 1)%nat
    = length (filter is_leaf (nodes t)).
Proof.
  induction t as [i h s cs IH] using TreeNode_ind. intros Hbi.
  apply arity_ok_unfold in Hbi as [Hk Hbi]. cbn [children nodes] in *.
  rewrite !filter_cons_bool.
  destruct Hk as [Hk|Hk].
  - destruct cs; [done|discriminate].
  - destruct cs as [|c1 [|c2 [|c3 cs]]]; try discriminate.
    apply Forall_cons in IH as [IH1 IH]. apply Forall_cons in IH as [IH2 _].
    apply Forall_cons in Hbi as [Hb1 Hbi]. apply Forall_cons in Hbi as [Hb2 _].
    specialize (IH1 Hb1). specialize (IH2 Hb2).
    change (has_children (Node i h s [c1; c2])) with true.
    change (is_leaf (Node i h s [c1; c2])) with false.
    cbn [fmap list_fmap concat]. rewrite !app_nil_r, !filter_app.
    cbn [length]. rewrite !length_app. lia.
Qed.

Lemma bifurcating_branching (t : TreeNode) : bifurcating t → branching t.
Proof.
  induction t as [i h s cs IH] using TreeNode_ind. intros Hbi.
  apply arity_ok_unfold in Hbi as [Hk Hbi]. apply arity_ok_unfold.
  cbn [children] in *. split; [lia|].
  rewrite Forall_forall in *. intros c Hc. by apply IH, Hbi.
Qed.

Lemma sorted_not_later (l : list MassMigration) :
  Sorted not_later (sorted by_time l).
Proof.
  eapply Sorted_weaken; [|apply sorted_sorted, by_time_total].
  intros a b H. by apply Qle_bool_iff.
Qed.


(** C2.  For a species tree with tips at height zero below their ancestors
    and two children under every node that has any, and for a positive
    [Ne], the method returns one event less than the tree has tips, the tips
    being counted on the tree itself: with [N] tips among the nodes of the
    tree, the list and one more event make [N].  No event has a negative
    time, and the list ascends in time.  This holds for whatever order the
    set is enumerated in. *)
Theorem demography_bifurcating
    (set_order : list MassMigration → list MassMigration) (self : Coalseq) :
  (∀ l, set_order l ≡ₚ l) →
  bifurcating (tree self) → heights_ok (tree self) →
  (0 < _Ne self)%Q →
  ∃ demog : list MassMigration,
    _get_demography set_order self = Some demog ∧
    S (length demog) = length (filter is_leaf (nodes (tree self))) ∧
    Forall (λ e, (0 <= time e)%Q) demog ∧
    Sorted not_later demog.
Proof.
  intros Hperm Hbi Hok HNe.
  eexists. split; [by apply get_demography_events, positive_Ne_of_mut|].
  split; [|split].
  - rewrite sorted_perm, Hperm, length_fmap.
    rewrite traverse_perm. pose proof (bifurcating_count (tree self) Hbi). lia.
  - rewrite sorted_perm, Hperm. apply Forall_fmap, Forall_forall.
    intros n Hn. apply list_elem_of_filter in Hn as [_ Hn].
    rewrite traverse_perm in Hn. simpl.
    apply Qmult_le_0_compat; [|by apply Qlt_le_weak].
    apply Qmult_le_0_compat; [by eapply heights_nonneg|done].
  - apply sorted_not_later.
Qed.

Lemma demography_bifurcating_witness :
  ∃ demog : list MassMigration,
    _get_demography reverse sample_self = Some demog ∧
    S (length demog) = length (filter is_leaf (nodes (tree sample_self))) ∧
    Forall (λ e, (0 <= time e)%Q) demog ∧
    Sorted not_later demog.
Proof.
  apply (demography_bifurcating reverse sample_self).
  - intros l. apply reverse_Permutation.
  - vm_compute. tauto.
  - vm_compute. repeat split; intros; try discriminate; done.
  - reflexivity.
Defined.

(** What the second loop does at every node with children, those with more
    than two among them: it adds exactly one event, whose source is the
    largest and whose destination is the smallest [_schild] among the
    children of the node, at the height of the node times [2 * Ne].  The
    list returned is, up to its order, the list of [event_of] over the nodes
    with children. *)
Lemma demography_one_event_per_node
    (set_order : list MassMigration → list MassMigration) (self : Coalseq) :
  (∀ l, set_order l ≡ₚ l) →
  ¬ (_mut self == 0)%Q →
  ∃ demog : list MassMigration,
    _get_demography set_order self = Some demog ∧
    demog ≡ₚ event_of (_Ne self) <$> filter has_children (traverse (tree self)) ∧
    length demog = length (filter has_children (traverse (tree self))) ∧
    ∀ n, n ∈ traverse (tree self) → (2 < length (children n))%nat →
      event_of (_Ne self) n ∈ demog.
Proof.
  intros Hperm Hmut.
  eexists. split; [by apply get_demography_events|].
  assert (Hp : sorted by_time
                 (set_order (event_of (_Ne self)
                               <$> filter has_children (traverse (tree self))))
               ≡ₚ event_of (_Ne self)
                    <$> filter has_children (traverse (tree self))).
  { by rewrite sorted_perm, Hperm. }
  split; [exact Hp|]. split; [by rewrite Hp, length_fmap|].
  intros n Hn Hk. rewrite Hp. apply list_elem_of_fmap_2.
  apply list_elem_of_filter. split; [|done].
  unfold has_children, is_leaf. destruct (children n); [simpl in Hk; lia|done].
Qed.

(** C6 fails on the code: for a node with three children at height two, with
    [Ne = 1024], the second loop adds the single event (4096, 2, 0), the
    largest [_schild] merged into the smallest, in whatever order the set is
    enumerated.  The event (4096, 1, 0) of one merge per further child is
    missing, and no event has the population of the middle child as its
    source: that population is never merged with the others below the
    node. *)
Lemma star_tree_single_event :
  let t := (2 * 2 * _Ne star_self)%Q in
  (t == 4096)%Q ∧
  (schild_value <$> children (tree star_self)) = [0; 1; 2] ∧
  (∀ set_order : list MassMigration → list MassMigration,
     (∀ l, set_order l ≡ₚ l) →
     _get_demography set_order star_self = Some [MkMassMigration t 2 0]) ∧
  events_per_child (_Ne star_self) (tree star_self)
    = [MkMassMigration t 1 0; MkMassMigration t 2 0] ∧
  (MkMassMigration t 1 0 ∉ [MkMassMigration t 2 0]) ∧
  Forall (λ e, source e ≠ 1) [MkMassMigration t 2 0].
Proof.
  intros t. split; [reflexivity|]. split; [reflexivity|]. split.
  - intros set_order Hperm. rewrite get_demography_events by discriminate.
    assert (event_of (_Ne star_self)
              <$> filter has_children (traverse (tree star_self))
            = [MkMassMigration t 2 0]) as -> by (vm_compute; reflexivity).
    specialize (Hperm [MkMassMigration t 2 0]).
    apply Permutation_singleton_r in Hperm. by rewrite Hperm.
  - split; [vm_compute; reflexivity|]. split.
    + intros H%list_elem_of_singleton. discriminate.
    + repeat constructor. discriminate.
Qed.

(** ** Genealogy serializer *)

(** The whole part of a length in range. *)
Lemma truncate_floor (x : Q) : (0 <= x)%Q → truncate x = Qfloor x.
Proof.
  intros H0. unfold truncate. destruct (Qle_bool 0 x) eqn:Hle; [done|].
  apply Qle_bool_iff in H0. congruence.
Qed.

Lemma np_int64_floor (x : Q) :
  (0 <= x)%Q → (x < inject_Z (2 ^ 63))%Q → np_int64 x = inr (Qfloor x).
Proof.
  intros H0 Hmax. unfold np_int64. rewrite truncate_floor by done.
  assert (0 ≤ Qfloor x) as Hlo.
  { change 0 with (Qfloor 0). by apply Qfloor_resp_le. }
  assert (Qfloor x < 2 ^ 63) as Hhi.
  { rewrite Zlt_Qlt. eapply Qle_lt_trans; [apply Qfloor_le|done]. }
  destruct (Z.leb_spec (- 2 ^ 63) (Qfloor x)) as [_|?]; [|lia].
  destruct (Z.ltb_spec (Qfloor x) (2 ^ 63)) as [_|?]; [done|lia].
Qed.

Lemma write_tree_files_run (d : string) (trees : list SparseTree) :
  Forall length_in_range trees →
  ∀ (counter : Z) (lengths : list Z) (w : world),
    write_tree_files d trees counter lengths w =
      (Returned (lengths ++ stored_lengths trees),
       World (tree_files d trees counter (files w)) (dirs w) (stdout w)).
Proof.
  induction 1 as [|t trees [H0 Hmax] _ IH]; intros counter lengths w.
  - simpl. unfold ret. rewrite app_nil_r. by destruct w.
  - cbn [write_tree_files tree_files].
    erewrite bind_returned; [|reflexivity].
    erewrite bind_returned.
    2: { unfold f_write. cbn [files]. rewrite lookup_insert_eq. reflexivity. }
    rewrite np_int64_floor by done.
    erewrite bind_returned; [|reflexivity].
    rewrite IH. cbn [files dirs stdout].
    rewrite insert_insert_eq, <- app_assoc.
    unfold stored_lengths. cbn [fmap list_fmap].
    by rewrite truncate_floor.
Qed.

Lemma write_trees_run (self : Coalseq) (w : world) :
  Forall length_in_range (treeseq self) →
  ∃ w' : world,
    write_trees self w = (Returned tt, w') ∧
    files w' !! lengths_path (dirname self)
      = Some (Hdf5 {[ "lengths" := IntVector (stored_lengths (treeseq self)) ]}).
Proof.
  intros Hrange. unfold write_trees.
  destruct (ensure_dir_run (dirname self +:+ "/ms_genetrees") w) as [Hdir _].
  erewrite bind_returned; [|exact Hdir].
  erewrite bind_returned; [|by apply write_tree_files_run].
  erewrite bind_returned; [|reflexivity].
  erewrite h5_set_fresh; [|apply lookup_insert_eq|done].
  eexists. split; [reflexivity|]. cbn [files].
  by rewrite insert_insert_eq, lookup_insert_eq.
Qed.

Lemma load_lengths_run (self : Coalseq) (w : world) (xs : list Z) :
  files w !! lengths_path (dirname self)
    = Some (Hdf5 {[ "lengths" := IntVector xs ]}) →
  load_lengths self w = (Returned (IntVector xs), w).
Proof.
  intros Hw. unfold load_lengths.
  erewrite bind_returned; [|by unfold h5_open_r; rewrite Hw].
  unfold h5_get. by rewrite Hw, lookup_singleton_eq.
Qed.

Lemma stored_lengths_sum (ts : list SparseTree) :
  Forall length_in_range ts →
  (inject_Z (sum_Z (stored_lengths ts)) <= sequence_length ts)%Q ∧
  (sequence_length ts
     <= inject_Z (sum_Z (stored_lengths ts)) + inject_Z (Z.of_nat (length ts)))%Q.
Proof.
  induction 1 as [|t ts [H0 Hmax] _ [IHle IHlt]].
  - split; apply Qle_refl.
  - unfold sequence_length, stored_lengths, sum_Z in *.
    cbn [fmap list_fmap foldr length].
    fold (fmap get_length ts) (fmap (λ t, truncate (get_length t)) ts) in *.
    rewrite truncate_floor by done.
    rewrite Nat2Z.inj_succ. unfold Z.succ. rewrite !inject_Z_plus.
    pose proof (Qfloor_le (get_length t)) as Hfl.
    pose proof (Qlt_floor (get_length t)) as Hfu.
    rewrite inject_Z_plus in Hfu.
    set (a := inject_Z (Qfloor (get_length t))) in *.
    set (b := inject_Z (foldr Z.add 0 (_ <$> ts))) in *.
    set (c := foldr Qplus 0%Q (get_length <$> ts)) in *.
    set (k := inject_Z (Z.of_nat (length ts))) in *.
    set (q := get_length t) in *.
    change (inject_Z 1) with 1%Q in *.
    split; lra.
Qed.

Lemma stored_lengths_whole (ts : list SparseTree) :
  Forall length_in_range ts → Forall whole_length ts →
  (inject_Z (sum_Z (stored_lengths ts)) == sequence_length ts)%Q.
Proof.
  induction 1 as [|t ts [H0 Hmax] _ IH]; intros Hwhole.
  - reflexivity.
  - apply Forall_cons in Hwhole as [[z Hz] Hwhole]. specialize (IH Hwhole).
    unfold sequence_length, stored_lengths, sum_Z in *.
    cbn [fmap list_fmap foldr].
    fold (fmap get_length ts) (fmap (λ t, truncate (get_length t)) ts) in *.
    rewrite truncate_floor by done.
    rewrite inject_Z_plus, IH. apply Qplus_inj_r.
    rewrite Hz at 2. by rewrite Hz, Qfloor_Z.
Qed.


(** C7, as stated, fails: two intervals of 2.5 and 3.5 sites make a
    chromosome of six sites, and the table read back holds 2 and 3. *)
Lemma truncated_lengths_fall_short :
  let run := write_trees sample_self empty_world in
  run.1 = Returned tt ∧
  (load_lengths sample_self run.2).1 = Returned (IntVector [2; 3]) ∧
  (sequence_length (treeseq sample_self) == 6)%Q ∧
  ¬ (inject_Z (sum_Z [2; 3]%Z) == sequence_length (treeseq sample_self))%Q.
Proof.
  intros run. split; [vm_compute; reflexivity|].
  split; [vm_compute; reflexivity|].
  split; [vm_compute; reflexivity|].
  vm_compute. discriminate.
Qed.

(** C7 (amended).  After [write_trees] the table of lengths read back holds,
    in order, the length of every interval with its fraction dropped.  For
    lengths in the range of the integer type, the sum of the table is at most
    the length of the chromosome and falls short of it by at most the number
    of intervals; the two are equal when every interval has a whole
    length. *)
Theorem write_trees_round_trip (self : Coalseq) (w : world) :
  Forall length_in_range (treeseq self) →
  ∃ w' : world,
    write_trees self w = (Returned tt, w') ∧
    load_lengths self w'
      = (Returned (IntVector (stored_lengths (treeseq self))), w') ∧
    stored_lengths (treeseq self)
      = (λ t, Qfloor (get_length t)) <$> treeseq self ∧
    (inject_Z (sum_Z (stored_lengths (treeseq self)))
       <= sequence_length (treeseq self))%Q ∧
    (sequence_length (treeseq self)
       <= inject_Z (sum_Z (stored_lengths (treeseq self)))
          + inject_Z (Z.of_nat (num_trees self)))%Q ∧
    (Forall whole_length (treeseq self) →
     (inject_Z (sum_Z (stored_lengths (treeseq self)))
        == sequence_length (treeseq self))%Q).
Proof.
  intros Hrange. destruct (write_trees_run self w Hrange) as (w' & Hrun & Hfile).
  exists w'. split; [exact Hrun|]. split; [by apply load_lengths_run|].
  split; [|split; [by apply stored_lengths_sum|
                   split; [by apply stored_lengths_sum|
                           by apply stored_lengths_whole]]].
  unfold stored_lengths. apply Forall_fmap_ext_1.
  eapply Forall_impl; [exact Hrange|]. intros t [H0 Hmax].
  by apply truncate_floor.
Qed.

Lemma write_trees_round_trip_witness :
  ∃ w' : world,
    write_trees sample_self empty_world = (Returned tt, w') ∧
    load_lengths sample_self w'
      = (Returned (IntVector (stored_lengths (treeseq sample_self))), w') ∧
    stored_lengths (treeseq sample_self)
      = (λ t, Qfloor (get_length t)) <$> treeseq sample_self ∧
    (inject_Z (sum_Z (stored_lengths (treeseq sample_self)))
       <= sequence_length (treeseq sample_self))%Q ∧
    (sequence_length (treeseq sample_self)
       <= inject_Z (sum_Z (stored_lengths (treeseq sample_self)))
          + inject_Z (Z.of_nat (num_trees sample_self)))%Q ∧
    (Forall whole_length (treeseq sample_self) →
     (inject_Z (sum_Z (stored_lengths (treeseq sample_self)))
        == sequence_length (treeseq sample_self))%Q).
Proof.
  apply (write_trees_round_trip sample_self empty_world).
  repeat constructor; vm_compute; intros; discriminate.
Defined.


(** ** Alignment assembler *)

(** The first loop passes the fragments whose header parses and leaves the
    world as it is. *)
Lemma count_columns_skip (d : string) (w : world) (js : list Z) :
  Forall (header_parses d w) js →
  ∀ seq_len : Z, ∃ seq_len' : Z, ∀ rest : list Z,
    count_columns d (js ++ rest) seq_len w = count_columns d rest seq_len' w.
Proof.
  induction 1 as [|j js (tst & n & (text & Hfile & Hfirst) & Hlen) _ IH];
    intros seq_len.
  - by exists seq_len.
  - destruct (IH (seq_len + n)) as [seq_len' Hrest]. exists seq_len'.
    intros rest. cbn [app count_columns].
    erewrite bind_returned; [|by unfold read_text; rewrite Hfile].
    rewrite Hfirst. erewrite bind_returned; [|reflexivity].
    rewrite Hlen. erewrite bind_returned; [|reflexivity].
    apply Hrest.
Qed.


Lemma range_split (n i : nat) :
  (i < n)%nat →
  range n = range i ++ Z.of_nat i :: (Z.of_nat <$> seq (S i) (n - S i)).
Proof.
  intros Hi. unfold range.
  replace n with (i + S (n - S i))%nat at 1 by lia.
  by rewrite seq_app, fmap_app.
Qed.

(** C8 fails on the code: with ten tips the lines of a fragment are sorted as
    strings, so the line of taxon 10 comes second; row 1 of the array holds
    the sites of taxon 10 ("GT"), not those of taxon 2 ("CC"), every later
    row is one taxon behind, and the alignment is written out with "GT"
    under the label 2. *)
Lemma ten_tips_rows_misplaced :
  sorted String.leb ["2         CC"; "10        GT"]
    = ["10        GT"; "2         CC"] ∧
  (assemble ten_tips_self ten_tips_world).1 =
    Returned (2, [["A"; "A"]; ["G"; "T"]; ["C"; "C"]; ["G"; "G"]; ["T"; "T"];
                  ["A"; "C"]; ["A"; "G"]; ["A"; "T"]; ["C"; "A"];
                  ["C"; "G"]]%char) ∧
  files (build_seqs ten_tips_self "final_seqs" false ten_tips_world).2
    !! "tester/final_seqs.fa" =
    Some (Text (fragment [" 10 2";
                          "1         "; "AA"; "2         "; "GT";
                          "3         "; "CC"; "4         "; "GG";
                          "5         "; "TT"; "6         "; "AC";
                          "7         "; "AG"; "8         "; "AT";
                          "9         "; "CA"; "10        "; "CG"])).
Proof. repeat split; vm_compute; reflexivity. Qed.





(** * Further properties

    What the methods do at their edges, what they leave behind, and how the
    output of one is the input of the next. *)

(** ** Decimal texts *)

Lemma chars_app (s t : string) :
  list_ascii_of_string (s +:+ t) = list_ascii_of_string s ++ list_ascii_of_string t.
Proof. induction s as [|a s IH]; [done|]. rewrite append_cons. simpl. by rewrite IH. Qed.

Lemma chars_rev_app (s t : string) :
  list_ascii_of_string (String.rev_app s t)
    = rev_append (list_ascii_of_string s) (list_ascii_of_string t).
Proof. revert t. induction s as [|a s IH]; intros t; [done|]. simpl. by rewrite IH. Qed.

Lemma chars_rev (s : string) :
  list_ascii_of_string (String.rev s) = reverse (list_ascii_of_string s).
Proof. unfold String.rev. rewrite chars_rev_app. simpl. by rewrite rev_append_rev, app_nil_r, rev_alt. Qed.

Lemma chars_inj (s t : string) :
  list_ascii_of_string s = list_ascii_of_string t → s = t.
Proof.
  intros H. rewrite <- (string_of_list_ascii_of_string s), H.
  apply string_of_list_ascii_of_string.
Qed.

Lemma rev_rev (s : string) : String.rev (String.rev s) = s.
Proof. apply chars_inj. by rewrite !chars_rev, reverse_involutive. Qed.

Lemma chars_length (s : string) : length (list_ascii_of_string s) = String.length s.
Proof. induction s as [|a s IH]; [done|]. simpl. by rewrite IH. Qed.

Lemma pretty_N_char_digit (d : N) :
  (d < 10)%N → digit (pretty_N_char d) = Some (Z.of_N d).
Proof.
  intros Hd.
  assert (d = 0 ∨ d = 1 ∨ d = 2 ∨ d = 3 ∨ d = 4 ∨ d = 5 ∨ d = 6 ∨ d = 7
          ∨ d = 8 ∨ d = 9)%N as Hcase by lia.
  repeat destruct Hcase as [->|Hcase]; try reflexivity. by subst.
Qed.

Lemma pretty_N_go_chars (P : ascii → Prop) (x : N) (s : string) :
  (∀ d, (d < 10)%N → P (pretty_N_char d)) →
  Forall P (list_ascii_of_string s) →
  Forall P (list_ascii_of_string (pretty_N_go x s)).
Proof.
  intros HP. revert s. induction (N.lt_wf_0 x) as [x _ IH]; intros s Hs.
  assert (x = 0 ∨ 0 < x)%N as [->|Hx] by lia.
  - by rewrite pretty_N_go_0.
  - rewrite pretty_N_go_step by done. apply IH.
    + by apply N.div_lt.
    + constructor; [|done]. apply HP. by apply N.mod_lt.
Qed.

Lemma str_chars (P : ascii → Prop) (n : Z) :
  (∀ d, (d < 10)%N → P (pretty_N_char d)) → P "-"%char →
  Forall P (list_ascii_of_string (str n)).
Proof.
  intros HP Hm. unfold str, pretty, pretty_Z. destruct n as [|p|p].
  - repeat constructor. apply (HP 0%N). lia.
  - unfold pretty, pretty_positive, pretty, pretty_N. case_decide; [done|].
    apply pretty_N_go_chars; [done|constructor].
  - rewrite append_cons, append_empty_l. constructor; [done|]. 
    unfold pretty, pretty_positive, pretty, pretty_N. case_decide; [done|].
    apply pretty_N_go_chars; [done|constructor].
Qed.

Lemma digits_pretty_N_go (x : N) (s : string) :
  digits 0 (pretty_N_go x s) = digits (Z.of_N x) s.
Proof.
  revert s. induction (N.lt_wf_0 x) as [x _ IH]; intros s.
  assert (x = 0 ∨ 0 < x)%N as [->|Hx] by lia.
  - by rewrite pretty_N_go_0.
  - rewrite pretty_N_go_step by done. rewrite IH by (by apply N.div_lt).
    cbn [digits]. rewrite pretty_N_char_digit by (by apply N.mod_lt).
    f_equal. rewrite (N.div_mod x 10) at 3 by done. lia.
Qed.

(** The first character of the text of a positive number is a digit. *)
Lemma pretty_N_go_first (x : N) (s : string) :
  (0 < x)%N →
  ∃ a r, pretty_N_go x s = String a r ∧ is_Some (digit a).
Proof.
  revert s. induction (N.lt_wf_0 x) as [x _ IH]; intros s Hx.
  rewrite pretty_N_go_step by done.
  destruct (N.eq_0_gt_0_cases (x `div` 10)) as [->|Hq].
  - rewrite pretty_N_go_0. eexists _, _. split; [done|].
    rewrite pretty_N_char_digit; [done|by apply N.mod_lt].
  - apply IH; [by apply N.div_lt|done].
Qed.

Lemma lstrip_id (s : string) :
  Forall (λ a, Ascii.is_space a = false) (list_ascii_of_string s) → lstrip s = s.
Proof. destruct s as [|a s]; [done|]. intros [Ha _]%Forall_cons. simpl. by rewrite Ha. Qed.

Lemma strip_id (s : string) :
  Forall (λ a, Ascii.is_space a = false) (list_ascii_of_string s) → strip s = s.
Proof.
  intros Hs. unfold strip. rewrite (lstrip_id s Hs), lstrip_id, rev_rev; [done|].
  rewrite chars_rev. by apply Forall_reverse.
Qed.

Lemma str_no_space (n : Z) :
  Forall (λ a, Ascii.is_space a = false) (list_ascii_of_string (str n)).
Proof.
  apply str_chars; [|done]. intros d Hd.
  assert (d = 0 ∨ d = 1 ∨ d = 2 ∨ d = 3 ∨ d = 4 ∨ d = 5 ∨ d = 6 ∨ d = 7
          ∨ d = 8 ∨ d = 9)%N as Hcase by lia.
  repeat destruct Hcase as [->|Hcase]; try reflexivity. by subst.
Qed.

(** [int(str(n)) == n]. *)
Lemma int_str (n : Z) : int (str n) = Some n.
Proof.
  unfold int. rewrite strip_id by apply str_no_space.
  unfold str, pretty, pretty_Z. destruct n as [|p|p]; [done| |].
  - unfold pretty, pretty_positive, pretty, pretty_N. case_decide; [done|].
    destruct (pretty_N_go_first (N.pos p) "" ltac:(lia)) as (a & r & Heq & [d Hd]).
    pose proof (digits_pretty_N_go (N.pos p) "") as Hdig. rewrite Heq in *.
    assert (a ≠ "-"%char ∧ a ≠ "+"%char) as [Hm Hp].
    { split; intros ->; discriminate. }
    destruct a as [[] [] [] [] [] [] [] []]; try done.
  - rewrite append_cons, append_empty_l.
    unfold pretty, pretty_positive, pretty, pretty_N. case_decide; [done|].
    destruct (pretty_N_go_first (N.pos p) "" ltac:(lia)) as (a & r & Heq & _).
    pose proof (digits_pretty_N_go (N.pos p) "") as Hdig. rewrite Heq in *.
    rewrite Hdig. done.
Qed.

(** ** Fields of a line *)

Lemma rev_app_append (s t : string) : String.rev_app s t = String.rev s +:+ t.
Proof.
  apply chars_inj. rewrite chars_app, chars_rev, chars_rev_app.
  by rewrite rev_append_rev, rev_alt.
Qed.

Lemma rev_cons (a : ascii) (s : string) :
  String.rev (String a s) = String.rev s +:+ String a "".
Proof. unfold String.rev at 1. simpl. apply rev_app_append. Qed.

(** A field without the separator, up to the next separator or the end. *)
Lemma split_go_field (c : ascii) (s cur rest : string) :
  Forall (λ a, a ≠ c) (list_ascii_of_string s) →
  split_go c cur (s +:+ String c rest)
    = (String.rev cur +:+ s) :: split_go c "" rest.
Proof.
  revert cur. induction s as [|a s IH]; intros cur Hs.
  - simpl. rewrite Ascii.eqb_refl. by rewrite append_empty_r.
  - apply Forall_cons in Hs as [Ha Hs]. rewrite append_cons. cbn [split_go].
    apply Ascii.eqb_neq in Ha. rewrite Ha, IH by done.
    by rewrite rev_cons, append_assoc.
Qed.

Lemma split_go_last (c : ascii) (s cur : string) :
  Forall (λ a, a ≠ c) (list_ascii_of_string s) →
  split_go c cur s = [String.rev cur +:+ s].
Proof.
  revert cur. induction s as [|a s IH]; intros cur Hs.
  - simpl. by rewrite append_empty_r.
  - apply Forall_cons in Hs as [Ha Hs]. cbn [split_go].
    apply Ascii.eqb_neq in Ha. rewrite Ha, IH by done.
    by rewrite rev_cons, append_assoc.
Qed.

Lemma str_without (c : ascii) (n : Z) :
  digit c = None → c ≠ "-"%char →
  Forall (λ a, a ≠ c) (list_ascii_of_string (str n)).
Proof.
  intros Hc Hm. apply str_chars; [|done].
  intros d Hd Heq. apply pretty_N_char_digit in Hd. congruence.
Qed.

(** The header [" " + str(n) + " " + str(len)] read back. *)
Lemma header_length_str (n len : Z) :
  header_length (" " +:+ str n +:+ " " +:+ str len) = inr len.
Proof.
  unfold header_length, split.
  change (" " +:+ str n +:+ " " +:+ str len)
    with (String " " (str n +:+ String " " (str len))).
  cbn [split_go]. rewrite Ascii.eqb_refl.
  rewrite split_go_field by (by apply str_without).
  rewrite split_go_last by (by apply str_without).
  cbn [index lookup list_lookup]. by rewrite append_empty_l, int_str.
Qed.



(** ** The window extractor at its edges *)



Lemma path_exists_grows (d : string) (w w' : world) :
  path_exists d w = true →
  dirs w = dirs w' →
  (is_Some (files w !! d) → is_Some (files w' !! d)) →
  path_exists d w' = true.
Proof.
  unfold path_exists. intros H Hd Hf. rewrite <- Hd.
  apply orb_true_iff in H as [H|H]; apply orb_true_iff; [by left|right].
  apply bool_decide_eq_true. apply bool_decide_eq_true in H. by apply Hf.
Qed.

Lemma ensure_dir_there (d : string) (w : world) :
  path_exists d w = true → ensure_dir d w = (Returned tt, w).
Proof. intros H. unfold ensure_dir. by rewrite H. Qed.

Lemma path_exists_made_dir (d : string) (w : world) :
  path_exists d (made_dir d w) = true.
Proof.
  unfold made_dir, ensure_dir. destruct (path_exists d w) eqn:He; [done|].
  unfold print, path_exists. cbn [snd dirs]. apply orb_true_iff. left.
  apply bool_decide_eq_true. apply elem_of_union. left. by apply elem_of_singleton.
Qed.



Section WindowExtractorEdges.

Variables (window_size slide_interval : Z) (full_seq_path directory_name : string).
Variables (tables : gmap string dataset) (ncols : nat) (rows : list (list ascii)).

Hypothesis Halignment : tables !! "alignment" = Some (CharTable ncols rows).
Hypothesis Houtside : ∀ x, directory_name +:+ "/" +:+ x ≠ full_seq_path.


(** The loop does not end on fuel that is no more than its turns. *)
Lemma slide_short (n : nat) :
  ∀ (fuel : nat) (st : slider) (w : world),
    (fuel ≤ n)%nat →
    holds_tables full_seq_path tables w →
    (∀ i : nat, (i < n)%nat →
       startidx st + Z.of_nat i * slide_interval ≤ Z.of_nat ncols - window_size) →
    (∀ i : nat, (i < n)%nat →
       in_order (Z.of_nat ncols) (startidx st + Z.of_nat i * slide_interval)
         (startidx st + Z.of_nat i * slide_interval + window_size)) →
    (slide fuel window_size slide_interval full_seq_path directory_name
       (Z.of_nat ncols - window_size) st w).1 = OutOfFuel.
Proof.
  induction n as [|n IH]; intros [|fuel] st w Hfuel Hw Hle Hord; try done; [lia|].
  cbn [slide].
  destruct (Z.leb_spec (startidx st) (Z.of_nat ncols - window_size)) as [Hc|Hc].
  2: { specialize (Hle 0%nat). lia. }
  erewrite bind_returned.
  2: { apply (write_subseq_run full_seq_path tables ncols rows Halignment);
         [done|by apply window_path_outside|].
       specialize (Hord 0%nat ltac:(lia)).
       by rewrite Z.mul_0_l, Z.add_0_r in Hord. }
  apply IH.
  - lia.
  - unfold holds_tables. cbn [files]. rewrite lookup_insert_ne; [done|].
    by apply window_path_outside.
  - intros i Hi. specialize (Hle (S i)). cbn [startidx]. lia.
  - intros i Hi. specialize (Hord (S i) ltac:(lia)). cbn [startidx].
    replace (startidx st + slide_interval + Z.of_nat i * slide_interval)
      with (startidx st + Z.of_nat (S i) * slide_interval) by lia.
    done.
Qed.

Lemma produce_subseqs_short (n fuel : nat) (w : world) :
  (fuel ≤ n)%nat →
  holds_tables full_seq_path tables w →
  (∀ i : nat, (i < n)%nat →
     Z.of_nat i * slide_interval ≤ Z.of_nat ncols - window_size) →
  (∀ i : nat, (i < n)%nat →
     in_order (Z.of_nat ncols) (Z.of_nat i * slide_interval)
       (Z.of_nat i * slide_interval + window_size)) →
  (produce_subseqs fuel window_size slide_interval full_seq_path
     directory_name w).1 = OutOfFuel.
Proof.
  intros Hfuel Hw Hle Hord.
  destruct (ensure_dir_run directory_name w) as [Hdir Hfiles].
  assert (Hw1 : holds_tables full_seq_path tables (made_dir directory_name w)).
  { unfold holds_tables. by rewrite Hfiles. }
  unfold produce_subseqs.
  erewrite bind_returned; [|exact Hdir].
  pose proof Hw1 as Hw1'. unfold holds_tables in Hw1'.
  erewrite bind_returned; [|by unfold h5_open; rewrite Hw1'].
  erewrite bind_returned; [|by unfold h5_get; rewrite Hw1', Halignment].
  erewrite bind_returned; [|reflexivity].
  pose proof (slide_short n fuel (Slider [] [] [] 0 0) (made_dir directory_name w)
                Hfuel Hw1) as Hs.
  cbn [startidx] in Hs.
  specialize (Hs ltac:(intros i Hi; specialize (Hle i Hi); lia)
                 ltac:(intros i Hi; rewrite !Z.add_0_l; by apply Hord)).
  destruct (slide _ _ _ _ _ _ _ _) as [o w'] eqn:Hrun. cbn [fst] in Hs. subst o.
  erewrite bind_out_of_fuel; [|exact Hrun]. done.
Qed.

End WindowExtractorEdges.

(** *** No alignment, and a window past the end *)

(** X1.  [write_subseq] with no file at [full_seq_path]: the table library
    creates an empty file there, the output file is opened and left empty,
    and the lookup of the alignment raises [KeyError]. *)
Theorem write_subseq_no_alignment (full_seq_path output_seq_path : string)
    (startidx endidx : Z) (w : world) :
  files w !! full_seq_path = None →
  output_seq_path ≠ full_seq_path →
  write_subseq full_seq_path output_seq_path startidx endidx w =
    (Raised KeyError,
     World (<[output_seq_path := Text ""]>
              (<[full_seq_path := Hdf5 ∅]> (files w)))
           (dirs w) (stdout w)).
Proof.
  intros Hnone Hout. unfold write_subseq.
  erewrite bind_returned; [|by apply h5_open_fresh].
  erewrite bind_returned; [|reflexivity].
  erewrite bind_raised; [reflexivity|].
  unfold h5_get. cbn [files].
  by rewrite lookup_insert_ne, lookup_insert_eq, lookup_empty.
Qed.

Lemma write_subseq_no_alignment_witness :
  write_subseq "tester/final_seqs.hdf5" "slider/0_0_5.fa" 0 5 empty_world =
    (Raised KeyError,
     World (<["slider/0_0_5.fa" := Text ""]>
              (<["tester/final_seqs.hdf5" := Hdf5 ∅]> (files empty_world)))
           (dirs empty_world) (stdout empty_world)).
Proof.
  apply (write_subseq_no_alignment "tester/final_seqs.hdf5" "slider/0_0_5.fa"
           0 5 empty_world).
  - reflexivity.
  - discriminate.
Defined.

(** X2.  [produce_subseqs] with no file at [full_seq_path]: the directory is
    made, an empty table file is created, and the lookup of the alignment
    raises [KeyError] before any window or index is written. *)
Theorem produce_subseqs_no_alignment (fuel : nat) (window_size slide_interval : Z)
    (full_seq_path directory_name : string) (w : world) :
  files w !! full_seq_path = None →
  produce_subseqs fuel window_size slide_interval full_seq_path directory_name w
  = (Raised KeyError,
     World (<[full_seq_path := Hdf5 ∅]> (files w))
           (dirs (made_dir directory_name w))
           (stdout (made_dir directory_name w))) ∧
  path_exists directory_name (made_dir directory_name w) = true.
Proof.
  intros Hnone. split; [|apply path_exists_made_dir].
  destruct (ensure_dir_run directory_name w) as [Hdir Hfiles].
  unfold produce_subseqs.
  erewrite bind_returned; [|exact Hdir].
  erewrite bind_returned; [|by apply h5_open_fresh; rewrite Hfiles].
  erewrite bind_raised; [reflexivity|].
  unfold h5_get. cbn [files]. by rewrite lookup_insert_eq, lookup_empty, Hfiles.
Qed.

Lemma produce_subseqs_no_alignment_witness :
  produce_subseqs 0 3 2 "tester/final_seqs.hdf5" "slider" empty_world
  = (Raised KeyError,
     World (<["tester/final_seqs.hdf5" := Hdf5 ∅]> (files empty_world))
           (dirs (made_dir "slider" empty_world))
           (stdout (made_dir "slider" empty_world))) ∧
  path_exists "slider" (made_dir "slider" empty_world) = true.
Proof.
  apply (produce_subseqs_no_alignment 0 3 2 "tester/final_seqs.hdf5" "slider"
           empty_world).
  reflexivity.
Defined.

Lemma slice_past_the_end {A} (r : list A) (s e : Z) :
  0 ≤ s → s ≤ Z.of_nat (length r) → Z.of_nat (length r) ≤ e →
  slice r s e = drop (Z.to_nat s) r.
Proof.
  intros Hs Hlen He. unfold slice, slice_bound.
  destruct (Z.ltb_spec s 0) as [?|_]; [lia|].
  destruct (Z.ltb_spec e 0) as [?|_]; [lia|].
  rewrite (Z.min_l s), (Z.min_r e) by lia.
  apply take_ge. rewrite length_drop. lia.
Qed.

(** X3.  A window that starts inside the alignment and ends past it: the
    call returns, the header gives [endidx - startidx] as the length, and
    every row holds the sites from [startidx] to the end of the alignment,
    which are fewer. *)
Theorem write_subseq_past_the_end (full_seq_path output_seq_path : string)
    (startidx endidx : Z) (tables : gmap string dataset)
    (ncols : nat) (rows : list (list ascii)) (w : world) :
  tables !! "alignment" = Some (CharTable ncols rows) →
  holds_tables full_seq_path tables w →
  output_seq_path ≠ full_seq_path →
  table_wf (CharTable ncols rows) →
  0 ≤ startidx ≤ Z.of_nat ncols →
  Z.of_nat ncols < endidx →
  let cut := (λ r : list ascii, drop (Z.to_nat startidx) r) <$> rows in
  write_subseq full_seq_path output_seq_path startidx endidx w =
    (Returned tt,
     World (<[output_seq_path :=
                Text (" " +:+ str (Z.of_nat (length rows)) +:+ " "
                      +:+ str (endidx - startidx) +:+ nl
                      +:+ taxon_lines 0 (join_cells <$> cut))]> (files w))
           (dirs w) (stdout w)) ∧
  Forall (λ r, Z.of_nat (length r) = Z.of_nat ncols - startidx) cut ∧
  Z.of_nat ncols - startidx < endidx - startidx.
Proof.
  intros Hal Hw Hout Hwf Hs He cut. split; [|split; [|lia]].
  - assert (Horder : in_order (Z.of_nat ncols) startidx endidx).
    { unfold in_order, slice_bound.
      destruct (Z.ltb_spec startidx 0), (Z.ltb_spec endidx 0); lia. }
    rewrite (write_subseq_run full_seq_path tables ncols rows Hal) by done.
    do 4 f_equal. rewrite subseq_text_in_order by done.
    unfold subseq_header. cbn [shape0].
    rewrite !append_assoc. do 5 f_equal. subst cut. do 2 f_equal.
    apply Forall_fmap_ext_1. eapply Forall_impl; [exact Hwf|].
    intros r Hr. simpl in Hr. apply slice_past_the_end; lia.
  - subst cut. apply Forall_fmap. eapply Forall_impl; [exact Hwf|].
    intros r Hr. simpl in *. rewrite length_drop. lia.
Qed.

Lemma write_subseq_past_the_end_witness :
  let cut := (λ r : list ascii, drop (Z.to_nat 3) r)
               <$> [replicate 5 "A"%char; replicate 5 "C"%char] in
  write_subseq "tester/final_seqs.hdf5" "slider/1_3_9.fa" 3 9 (sample_world 5) =
    (Returned tt,
     World (<["slider/1_3_9.fa" :=
                Text (" " +:+ str (Z.of_nat 2) +:+ " " +:+ str (9 - 3) +:+ nl
                      +:+ taxon_lines 0 (join_cells <$> cut))]>
              (files (sample_world 5)))
           (dirs (sample_world 5)) (stdout (sample_world 5))) ∧
  Forall (λ r, Z.of_nat (length r) = Z.of_nat 5 - 3) cut ∧
  Z.of_nat 5 - 3 < 9 - 3.
Proof.
  apply (write_subseq_past_the_end "tester/final_seqs.hdf5" "slider/1_3_9.fa"
           3 9 {[ "alignment" := sample_alignment 5 ]} 5
           [replicate 5 "A"%char; replicate 5 "C"%char] (sample_world 5)).
  - reflexivity.
  - reflexivity.
  - discriminate.
  - simpl. repeat constructor.
  - simpl. lia.
  - simpl. lia.
Defined.

(** *** A second run, and the turns of the loop *)







(** X6.  With a stride of zero and a window that fits in the alignment the
    loop of [produce_subseqs] never ends, whatever the number of turns. *)
Theorem zero_stride_never_returns (fuel : nat) (window_size : Z)
    (full_seq_path directory_name : string)
    (ncols : nat) (rows : list (list ascii)) (w : world) :
  ready full_seq_path directory_name (CharTable ncols rows) w →
  window_size ≤ Z.of_nat ncols →
  (produce_subseqs fuel window_size 0 full_seq_path directory_name w).1
    = OutOfFuel.
Proof.
  intros (tables & Hal & Hw & Hout & Hfresh) Hws.
  apply (produce_subseqs_short window_size 0 full_seq_path directory_name
           tables ncols rows Hal Hout fuel); [done|done| |].
  - intros i _. lia.
  - intros i _. rewrite Z.mul_0_r. apply in_order_from_start. lia.
Qed.

Lemma zero_stride_never_returns_witness :
  (produce_subseqs 50 3 0 "tester/final_seqs.hdf5" "slider" (sample_world 7)).1
    = OutOfFuel.
Proof.
  apply (zero_stride_never_returns 50 3 "tester/final_seqs.hdf5" "slider" 7
           [replicate 7 "A"%char; replicate 7 "C"%char] (sample_world 7)).
  - apply sample_ready.
  - simpl. lia.
Defined.

(** A selection that runs backwards is refused after the header has been
    written: with five columns, the window 3:1 leaves a file of one line.
    A run with a window size of -2 and a stride of three writes its first
    window, 0:-2, which are the columns 0:3, and ends at the second, 3:1,
    without an index. *)
Example reversed_selection_refused :
  write_subseq "tester/final_seqs.hdf5" "slider/1_3_1.fa" 3 1 (sample_world 5)
  = (Raised ValueError,
     World (<["slider/1_3_1.fa" := Text (" 2 -2" +:+ nl)]> (files (sample_world 5)))
           ∅ []).
Proof. vm_compute. reflexivity. Qed.

Example negative_window_refused :
  let run := produce_subseqs 5 (-2) 3 "tester/final_seqs.hdf5" "slider"
               (sample_world 5) in
  run.1 = Raised ValueError ∧
  files run.2 !! "slider/0_0_-2.fa"
    = Some (Text (" 2 -2" +:+ nl +:+ "1         " +:+ nl +:+ "AAA" +:+ nl
                  +:+ "2         " +:+ nl +:+ "CCC" +:+ nl)) ∧
  files run.2 !! "slider/1_3_1.fa" = Some (Text (" 2 -2" +:+ nl)) ∧
  files run.2 !! index_path "slider" = None.
Proof. repeat split; vm_compute; reflexivity. Qed.

(** *** The index *)




(** X8.  When the window fits in the alignment no window of the index
    reaches out of it: every entry has [0 <= start <= end <= total_len]. *)
Theorem windows_inside_alignment (fuel : nat) (window_size slide_interval : Z)
    (full_seq_path directory_name : string)
    (ncols : nat) (rows : list (list ascii)) (w : world) :
  ready full_seq_path directory_name (CharTable ncols rows) w →
  1 ≤ slide_interval →
  0 ≤ window_size ≤ Z.of_nat ncols →
  (strides window_size slide_interval (Z.of_nat ncols) < fuel)%nat →
  ∃ l : list window,
    emits fuel window_size slide_interval full_seq_path directory_name
      (CharTable ncols rows) w l ∧
    Forall (λ x, 0 ≤ w_start x ∧ w_start x ≤ w_end x ∧ w_end x ≤ Z.of_nat ncols) l.
Proof.
  intros Hready Hsi Hws Hfuel.
  exists (expected_windows window_size slide_interval (Z.of_nat ncols)).
  split; [apply emits_expected; [done|done|lia|done]|].
  destruct (strides_turns window_size slide_interval ncols Hsi) as [Hle Hgt].
  apply Forall_forall. intros x Hx.
  apply elem_of_expected_windows in Hx as [(i & Hi & ->)|[_ ->]];
    unfold w_start, w_end; cbn [fst snd]; [|lia].
  specialize (Hle i Hi). nia.
Qed.

Lemma windows_inside_alignment_witness :
  ∃ l : list window,
    emits 6 3 2 "tester/final_seqs.hdf5" "slider" (sample_alignment 7)
      (sample_world 7) l ∧
    Forall (λ x, 0 ≤ w_start x ∧ w_start x ≤ w_end x ∧ w_end x ≤ Z.of_nat 7) l.
Proof.
  apply (windows_inside_alignment 6 3 2 "tester/final_seqs.hdf5" "slider" 7
           [replicate 7 "A"%char; replicate 7 "C"%char] (sample_world 7)).
  - apply sample_ready.
  - lia.
  - simpl. lia.
  - vm_compute. lia.
Defined.

Lemma stride_windows_snoc (ws si : Z) (n : nat) :
  stride_windows ws si 0 0 (S n) =
    stride_windows ws si 0 0 n
      ++ [(Z.of_nat n, Z.of_nat n * si, Z.of_nat n * si + ws)].
Proof.
  unfold stride_windows. rewrite seq_S, fmap_app. simpl.
  by rewrite !Z.add_0_l.
Qed.

(** X9.  When the windows of the loop end with the alignment and the stride
    is shorter than the window, the branch for the remainder repeats the
    range of the last of them under the next number. *)
Theorem last_window_repeated (fuel : nat) (window_size slide_interval : Z)
    (full_seq_path directory_name : string)
    (ncols : nat) (rows : list (list ascii)) (w : world) :
  ready full_seq_path directory_name (CharTable ncols rows) w →
  1 ≤ slide_interval →
  slide_interval < window_size →
  window_size ≤ Z.of_nat ncols →
  (Z.of_nat ncols - window_size) `mod` slide_interval = 0 →
  (strides window_size slide_interval (Z.of_nat ncols) < fuel)%nat →
  let total_len := Z.of_nat ncols in
  let k := (total_len - window_size) / slide_interval in
  ∃ l : list window,
    emits fuel window_size slide_interval full_seq_path directory_name
      (CharTable ncols rows) w
      (l ++ [(k, total_len - window_size, total_len);
             (k + 1, total_len - window_size, total_len)]).
Proof.
  intros Hready Hsi Hlt Hws Hmod Hfuel total_len k.
  exists (stride_windows window_size slide_interval 0 0 (Z.to_nat k)).
  assert (Hk : 0 ≤ k) by (apply Z.div_pos; lia).
  assert (Hdiv : k * slide_interval = total_len - window_size).
  { pose proof (Z.div_mod (total_len - window_size) slide_interval ltac:(lia)).
    subst k total_len. lia. }
  assert (Hn : strides window_size slide_interval total_len = S (Z.to_nat k)).
  { unfold strides. destruct (Z.ltb_spec (total_len - window_size) 0); lia. }
  replace (stride_windows window_size slide_interval 0 0 (Z.to_nat k)
             ++ [(k, total_len - window_size, total_len);
                 (k + 1, total_len - window_size, total_len)])
    with (expected_windows window_size slide_interval total_len).
  { apply emits_expected; [done|done|lia|done]. }
  unfold expected_windows, remainder_window. rewrite Hn, stride_windows_snoc.
  rewrite <- app_assoc. f_equal. rewrite Z2Nat.id by done.
  destruct (Z.ltb_spec (Z.of_nat (S (Z.to_nat k)) * slide_interval) total_len)
    as [_|?]; [|lia].
  cbn [app]. repeat f_equal; lia.
Qed.

Lemma last_window_repeated_witness :
  ∃ l : list window,
    emits 6 3 2 "tester/final_seqs.hdf5" "slider" (sample_alignment 7)
      (sample_world 7)
      (l ++ [((Z.of_nat 7 - 3) / 2, Z.of_nat 7 - 3, Z.of_nat 7);
             ((Z.of_nat 7 - 3) / 2 + 1, Z.of_nat 7 - 3, Z.of_nat 7)]).
Proof.
  apply (last_window_repeated 6 3 2 "tester/final_seqs.hdf5" "slider" 7
           [replicate 7 "A"%char; replicate 7 "C"%char] (sample_world 7)).
  - apply sample_ready.
  - lia.
  - lia.
  - simpl. lia.
  - reflexivity.
  - vm_compute. lia.
Defined.

(** X10.  Windows that tile the alignment: with a stride as long as the
    window and a length that the window divides, the index holds the windows
    [(i, i * window_size, (i + 1) * window_size)] and every site lies in
    exactly one of them. *)
Theorem tiling_windows (fuel : nat) (window_size : Z)
    (full_seq_path directory_name : string)
    (ncols : nat) (rows : list (list ascii)) (w : world) :
  ready full_seq_path directory_name (CharTable ncols rows) w →
  1 ≤ window_size →
  Z.of_nat ncols `mod` window_size = 0 →
  (Z.to_nat (Z.of_nat ncols / window_size) < fuel)%nat →
  let l := (λ i : nat, (Z.of_nat i, Z.of_nat i * window_size,
                        (Z.of_nat i + 1) * window_size))
             <$> seq 0 (Z.to_nat (Z.of_nat ncols / window_size)) in
  emits fuel window_size window_size full_seq_path directory_name
    (CharTable ncols rows) w l ∧
  (∀ site, 0 ≤ site < Z.of_nat ncols → ∃ x, x ∈ l ∧ covers x site) ∧
  (∀ site x y, x ∈ l → y ∈ l → covers x site → covers y site → x = y).
Proof.
  intros Hready Hws Hmod Hfuel l.
  set (total := Z.of_nat ncols) in *. set (q := total / window_size) in *.
  assert (Hq : 0 ≤ q) by (apply Z.div_pos; lia).
  assert (Htot : total = q * window_size).
  { pose proof (Z.div_mod total window_size ltac:(lia)). subst q. lia. }
  assert (Hn : strides window_size window_size total = Z.to_nat q).
  { unfold strides. destruct (Z.ltb_spec (total - window_size) 0) as [Hneg|Hpos].
    - assert (q = 0) by nia. lia.
    - assert ((total - window_size) / window_size = q - 1) as ->; [|lia].
      replace (total - window_size) with ((q - 1) * window_size) by lia.
      apply Z.div_mul. lia. }
  assert (Hl : expected_windows window_size window_size total = l).
  { unfold expected_windows, remainder_window. rewrite Hn.
    destruct (Z.ltb_spec (Z.of_nat (Z.to_nat q) * window_size) total) as [?|_];
      [lia|].
    rewrite app_nil_r. unfold stride_windows. subst l.
    apply list_fmap_ext. intros _ i _. f_equal; lia. }
  assert (Hin : ∀ x, x ∈ l ↔ ∃ i : nat, (i < Z.to_nat q)%nat ∧
            x = (Z.of_nat i, Z.of_nat i * window_size,
                 (Z.of_nat i + 1) * window_size)).
  { intros x. subst l. rewrite list_elem_of_fmap. split.
    - intros (i & -> & Hi). apply elem_of_seq in Hi. exists i. split; [lia|done].
    - intros (i & Hi & ->). exists i. split; [done|]. apply elem_of_seq. lia. }
  split; [|split].
  - rewrite <- Hl. apply emits_expected; [done|lia|lia|]. fold total. rewrite Hn.
    exact Hfuel.
  - intros site Hsite.
    pose proof (Z.mul_div_le site window_size ltac:(lia)).
    pose proof (Z.mul_succ_div_gt site window_size ltac:(lia)).
    pose proof (Z.div_pos site window_size ltac:(lia) ltac:(lia)).
    exists (site / window_size, site / window_size * window_size,
            (site / window_size + 1) * window_size).
    split.
    + apply Hin. exists (Z.to_nat (site / window_size)).
      rewrite Z2Nat.id by lia. split; [|done].
      assert (site / window_size < q); [|lia]. nia.
    + unfold covers, w_start, w_end. cbn [fst snd]. lia.
  - intros site x y Hx Hy Hcx Hcy.
    apply Hin in Hx as (i & _ & ->). apply Hin in Hy as (j & _ & ->).
    unfold covers, w_start, w_end in *. cbn [fst snd] in *.
    assert (i = j) as -> by nia. done.
Qed.

Lemma tiling_windows_witness :
  let l := (λ i : nat, (Z.of_nat i, Z.of_nat i * 3, (Z.of_nat i + 1) * 3))
             <$> seq 0 (Z.to_nat (Z.of_nat 6 / 3)) in
  emits 3 3 3 "tester/final_seqs.hdf5" "slider" (sample_alignment 6)
    (sample_world 6) l ∧
  (∀ site, 0 ≤ site < Z.of_nat 6 → ∃ x, x ∈ l ∧ covers x site) ∧
  (∀ site x y, x ∈ l → y ∈ l → covers x site → covers y site → x = y).
Proof.
  apply (tiling_windows 3 3 "tester/final_seqs.hdf5" "slider" 6
           [replicate 6 "A"%char; replicate 6 "C"%char] (sample_world 6)).
  - apply sample_ready.
  - lia.
  - reflexivity.
  - vm_compute. lia.
Defined.

(** ** The demographic model on any tree *)

Lemma get_demography_fold (set_order : list MassMigration → list MassMigration)
    (self : Coalseq) :
  ¬ (_mut self == 0)%Q →
  _get_demography set_order self =
    Some (sorted by_time
            (set_order (foldl (add_event (_Ne self)) [] (traverse (tree self))))).
Proof.
  intros Hmut. unfold _get_demography. rewrite eval_Ne_value by done.
  by rewrite traverse_tag, add_divergences_tag.
Qed.

Lemma set_add_elem (e x : MassMigration) (demog : list MassMigration) :
  x ∈ set_add e demog → x ∈ demog ∨ x = e.
Proof.
  unfold set_add. rewrite elem_of_app, list_elem_of_singleton. tauto.
Qed.

Lemma set_add_length (e : MassMigration) (demog : list MassMigration) :
  (length (set_add e demog) ≤ S (length demog))%nat.
Proof. unfold set_add. rewrite length_app. simpl. lia. Qed.

Lemma set_add_keeps (e x : MassMigration) (demog : list MassMigration) :
  x ∈ demog → x ∈ set_add e demog.
Proof. unfold set_add. intros H. apply elem_of_app. by left. Qed.

Lemma set_add_member (e : MassMigration) (demog : list MassMigration) :
  e ∈ set_add e demog.
Proof. unfold set_add. apply elem_of_app. right. by left. Qed.

(** The members of the set after the second loop. *)
Lemma foldl_add_event_elem (Ne : Q) (l : list TreeNode) :
  ∀ (demog : list MassMigration) (x : MassMigration),
    x ∈ foldl (add_event Ne) demog l →
    x ∈ demog ∨ ∃ n, n ∈ l ∧ has_children n = true ∧ x = event_of Ne n.
Proof.
  induction l as [|n l IH]; intros demog x Hx; [by left|].
  cbn [foldl] in Hx. apply IH in Hx as [Hx|(m & Hm & Hc & ->)].
  - unfold add_event in Hx. destruct (has_children n) eqn:Hc; [|by left].
    apply set_add_elem in Hx as [Hx| ->]; [by left|].
    right. exists n. split; [by left|done].
  - right. exists m. split; [by right|done].
Qed.

Lemma foldl_add_event_length (Ne : Q) (l : list TreeNode) :
  ∀ demog : list MassMigration,
    (length (foldl (add_event Ne) demog l)
       ≤ length demog + length (filter has_children l))%nat.
Proof.
  induction l as [|n l IH]; intros demog; [simpl; lia|].
  cbn [foldl]. rewrite filter_cons_bool. etrans; [apply IH|].
  unfold add_event. destruct (has_children n); [|lia].
  pose proof (set_add_length (event_of Ne n) demog). simpl. lia.
Qed.

Lemma foldl_add_event_keeps (Ne : Q) (l : list TreeNode) :
  ∀ (demog : list MassMigration) (x : MassMigration),
    x ∈ demog → x ∈ foldl (add_event Ne) demog l.
Proof.
  induction l as [|n l IH]; intros demog x Hx; [done|].
  cbn [foldl]. apply IH. unfold add_event.
  destruct (has_children n); [by apply set_add_keeps|done].
Qed.

Lemma foldl_add_event_member (Ne : Q) (l : list TreeNode) (n : TreeNode) :
  n ∈ l → has_children n = true →
  ∀ demog : list MassMigration,
    event_of Ne n ∈ foldl (add_event Ne) demog l.
Proof.
  induction l as [|m l IH]; intros Hn Hc demog; [by apply elem_of_nil in Hn|].
  cbn [foldl]. apply elem_of_cons in Hn as [<-|Hn]; [|by apply IH].
  unfold add_event at 2. rewrite Hc.
  apply foldl_add_event_keeps, set_add_member.
Qed.

(** X12.  For a [mut] that is not zero, [_get_demography] returns on every
    tree: a list of no more events than there are nodes with children, each
    of them the event of such a node. *)
Theorem get_demography_any_tree
    (set_order : list MassMigration → list MassMigration) (self : Coalseq) :
  (∀ l, set_order l ≡ₚ l) →
  ¬ (_mut self == 0)%Q →
  ∃ demog : list MassMigration,
    _get_demography set_order self = Some demog ∧
    (length demog ≤ length (filter has_children (traverse (tree self))))%nat ∧
    Forall (λ e, ∃ n, n ∈ traverse (tree self) ∧ has_children n = true ∧
                      e = event_of (_Ne self) n) demog.
Proof.
  intros Hperm Hmut. eexists. split; [by apply get_demography_fold|]. split.
  - rewrite sorted_perm, Hperm.
    apply (foldl_add_event_length (_Ne self) (traverse (tree self)) []).
  - apply Forall_forall. intros e He. rewrite sorted_perm, Hperm in He.
    apply foldl_add_event_elem in He as [He|He]; [by apply elem_of_nil in He|done].
Qed.

Lemma get_demography_any_tree_witness :
  ∃ demog : list MassMigration,
    _get_demography reverse star_self = Some demog ∧
    (length demog ≤ length (filter has_children (traverse (tree star_self))))%nat ∧
    Forall (λ e, ∃ n, n ∈ traverse (tree star_self) ∧ has_children n = true ∧
                      e = event_of (_Ne star_self) n) demog.
Proof.
  apply (get_demography_any_tree reverse star_self).
  - intros l. apply reverse_Permutation.
  - discriminate.
Defined.

(** With a [mut] of zero the method raises at the first node with children,
    where it reads [_Ne]; on a single tip it returns the empty list. *)
Example zero_mut_no_demography :
  _get_demography id (MkCoalseq "tester" 3 (1 # 2) 0 star3 []) = None ∧
  _get_demography id (MkCoalseq "tester" 1 (1 # 2) 0 (tip 0) []) = Some [].
Proof. split; reflexivity. Qed.

(** *** Sources and destinations *)

(** In a tree with unique indices and no node with a single child the
    destination of a node lies below its source. *)
Lemma keys_strict (n : TreeNode) :
  NoDup (idxs n) → branching n → Forall (λ k : Z * Z, k.2 < k.1) (keys n).
Proof.
  induction n as [i h s cs IH] using TreeNode_ind. intros Hnd Hbr.
  rewrite idxs_unfold in Hnd. apply NoDup_cons in Hnd as [_ Hnd].
  apply arity_ok_unfold in Hbr as [Hk Hbr]. cbn [children] in *.
  rewrite Forall_forall in IH, Hbr.
  rewrite keys_unfold. cbn [children]. apply Forall_app. split.
  - unfold has_children, is_leaf. cbn [children].
    destruct cs as [|c1 cs1] eqn:Hcs; [constructor|]. rewrite <- Hcs in *.
    cbn [negb]. constructor; [|constructor].
    destruct (node_key_children (Node i h s cs)) as (a & b & Ha & Hb & -> & Hrange);
      [by rewrite Hcs|].
    cbn [children fst snd] in *.
    destruct (Z.lt_ge_cases (schild_value a) (schild_value b)) as [Hlt|Hge];
      [done|exfalso].
    destruct cs1 as [|c2 cs2]; [by rewrite Hcs in Hk|].
    rewrite Hcs in Hnd, Hrange. cbn [fmap list_fmap concat] in Hnd.
    apply NoDup_app in Hnd as (_ & Hdis & _).
    apply (Hdis (schild_value c1)); [apply schild_value_in|].
    apply elem_of_app. left.
    assert (schild_value c1 = schild_value c2) as ->.
    { pose proof (Hrange c1 ltac:(by left)).
      pose proof (Hrange c2 ltac:(by right; left)). lia. }
    apply schild_value_in.
  - apply Forall_concat, Forall_fmap, Forall_forall. intros c Hc.
    apply IH; [done| |by apply Hbr]. by apply (concat_NoDup_each idxs cs).
Qed.

(** X13.  In a tree with unique indices and no node with a single child, and
    for a [mut] that is not zero, every event merges a population into one
    of a smaller index. *)
Theorem demography_dest_below_source
    (set_order : list MassMigration → list MassMigration) (self : Coalseq) :
  (∀ l, set_order l ≡ₚ l) →
  ¬ (_mut self == 0)%Q →
  unique_idx (tree self) → branching (tree self) →
  ∃ demog : list MassMigration,
    _get_demography set_order self = Some demog ∧
    Forall (λ e, dest e < source e) demog.
Proof.
  intros Hperm Hmut Huniq Hbr.
  eexists. split; [by apply get_demography_events|].
  rewrite sorted_perm, Hperm. apply Forall_fmap, Forall_forall. intros n Hn.
  rewrite traverse_perm in Hn.
  pose proof (keys_strict (tree self) (proj1 (unique_idx_idxs _) Huniq) Hbr) as Hk.
  rewrite Forall_forall in Hk.
  apply (Hk (node_key n)). unfold keys. by apply list_elem_of_fmap_2.
Qed.

Lemma demography_dest_below_source_witness :
  ∃ demog : list MassMigration,
    _get_demography reverse sample_self = Some demog ∧
    Forall (λ e, dest e < source e) demog.
Proof.
  apply (demography_dest_below_source reverse sample_self).
  - intros l. apply reverse_Permutation.
  - discriminate.
  - unfold unique_idx. apply (bool_decide_unpack _). vm_compute. exact I.
  - vm_compute. repeat split; intros; discriminate.
Defined.

(** X14.  For a [mut] that is not zero, a node with a single child gives an
    event whose source and destination are both the index of that child, at
    the height of the node times [2 * _Ne]. *)
Theorem single_child_self_merge
    (set_order : list MassMigration → list MassMigration) (self : Coalseq)
    (n c : TreeNode) :
  (∀ l, set_order l ≡ₚ l) →
  ¬ (_mut self == 0)%Q →
  n ∈ traverse (tree self) →
  children n = [c] →
  ∃ (demog : list MassMigration) (e : MassMigration),
    _get_demography set_order self = Some demog ∧
    e ∈ demog ∧
    source e = schild_value c ∧ dest e = schild_value c ∧
    (time e == height n * 2 * _Ne self)%Q.
Proof.
  intros Hperm Hmut Hn Hc.
  assert (Hhas : has_children n = true).
  { unfold has_children, is_leaf. by rewrite Hc. }
  pose proof (foldl_add_event_member (_Ne self) _ n Hn Hhas []) as He.
  eexists _, (event_of (_Ne self) n). split; [by apply get_demography_fold|].
  split; [by rewrite sorted_perm, Hperm|].
  unfold event_of. rewrite Hc.
  cbn [time source dest fmap list_fmap maximum minimum foldl default].
  done.
Qed.

Lemma single_child_self_merge_witness :
  ∃ (demog : list MassMigration) (e : MassMigration),
    _get_demography id (MkCoalseq "tester" 1 (4 # 100000) (1 # 100000000) chain3 [])
      = Some demog ∧
    e ∈ demog ∧
    source e = schild_value (tip 0) ∧ dest e = schild_value (tip 0) ∧
    (time e == height (Node 1 1 None [tip 0]) * 2
               * _Ne (MkCoalseq "tester" 1 (4 # 100000) (1 # 100000000) chain3 []))%Q.
Proof.
  apply (single_child_self_merge id
           (MkCoalseq "tester" 1 (4 # 100000) (1 # 100000000) chain3 [])
           (Node 1 1 None [tip 0]) (tip 0)).
  - intros l. reflexivity.
  - discriminate.
  - vm_compute. right. left.
  - reflexivity.
Defined.

(** *** Populations *)

Lemma nodes_self (n : TreeNode) : n ∈ nodes n.
Proof. destruct n. by left. Qed.

Lemma nodes_child (n c m : TreeNode) :
  c ∈ children n → m ∈ nodes c → m ∈ nodes n.
Proof.
  intros Hc Hm. destruct n as [i h s cs]. cbn [nodes children] in *. right.
  apply elem_of_concat. exists (nodes c). split; [by apply list_elem_of_fmap_2|done].
Qed.

Lemma nodes_trans (n m x : TreeNode) : m ∈ nodes n → x ∈ nodes m → x ∈ nodes n.
Proof.
  induction n as [i h s cs IH] using TreeNode_ind. intros Hm Hx.
  cbn [nodes children] in Hm. apply elem_of_cons in Hm as [->|Hm]; [done|].
  apply elem_of_concat in Hm as (l & Hl & Hm).
  apply list_elem_of_fmap in Hl as (c & -> & Hc).
  rewrite Forall_forall in IH.
  apply (nodes_child (Node i h s cs) c); [done|]. by apply IH.
Qed.

(** Every tree has a tip. *)
Lemma nodes_leaf (n : TreeNode) : ∃ m, m ∈ nodes n ∧ is_leaf m = true.
Proof.
  induction n as [i h s cs IH] using TreeNode_ind.
  destruct cs as [|c cs].
  - exists (Node i h s []). split; [by left|done].
  - apply Forall_cons in IH as [(m & Hm & Hleaf) _]. exists m. split; [|done].
    apply (nodes_child _ c); [by left|done].
Qed.

Lemma schild_value_range (k : nat) (n : TreeNode) :
  tips_numbered k n → 0 ≤ schild_value n < Z.of_nat k.
Proof.
  intros Hnum. unfold schild_value.
  destruct (children n) as [|c cs] eqn:Hc.
  - destruct (Hnum n (nodes_self n)) as [H0 Hk]. split; [done|].
    apply Hk. unfold is_leaf. by rewrite Hc.
  - destruct (minimum_spec (idx <$> get_descendants n)) as (m & -> & Hm & Hmin).
    { intros Hnil. apply fmap_nil_inv in Hnil.
      apply get_descendants_nonempty in Hnil; [done|by rewrite Hc]. }
    change (default 0 (Some m)) with m. split.
    + apply list_elem_of_fmap in Hm as (d & -> & Hd).
      rewrite get_descendants_perm in Hd.
      apply elem_of_concat in Hd as (l & Hl & Hd).
      apply list_elem_of_fmap in Hl as (c' & -> & Hc').
      apply (Hnum d). by apply (nodes_child n c').
    + destruct (nodes_leaf c) as (t & Ht & Hleaf).
      assert (Htn : t ∈ nodes n).
      { apply (nodes_child n c); [rewrite Hc; by left|done]. }
      destruct (Hnum t Htn) as [_ Hk]. specialize (Hk Hleaf).
      assert (idx t ∈ idx <$> get_descendants n) as Hin.
      { apply list_elem_of_fmap_2. rewrite get_descendants_perm.
        apply elem_of_concat. exists (nodes c).
        split; [|done]. apply list_elem_of_fmap_2. rewrite Hc. by left. }
      specialize (Hmin _ Hin). lia.
Qed.

Lemma tips_numbered_sub (k : nat) (t n : TreeNode) :
  tips_numbered k t → n ∈ nodes t → tips_numbered k n.
Proof. intros Ht Hn m Hm. apply Ht. by apply (nodes_trans t n). Qed.

Lemma comprehension_all {A B} (f : A → exn + B) (y : B) (l : list A) :
  (∀ x, f x = inr y) → comprehension f l = inr (replicate (length l) y).
Proof.
  intros Hf. induction l as [|x l IH]; [done|].
  cbn [comprehension length replicate]. by rewrite Hf, IH.
Qed.

(** The populations of a run with a positive [Ne]. *)
Lemma get_popconfig_run (self : Coalseq) :
  (0 < _Ne self)%Q →
  _get_popconfig self
    = inr (replicate (self_ntips self) (MkPopulationConfiguration 1 (_Ne self) 0)).
Proof.
  intros HNe. unfold _get_popconfig, range.
  rewrite eval_Ne_value by (by apply positive_Ne_of_mut).
  assert (Hone : population_configuration 1 (_Ne self)
                 = inr (MkPopulationConfiguration 1 (_Ne self) 0)).
  { unfold population_configuration.
    destruct (Qle_bool (_Ne self) 0) eqn:Hle; [|done].
    apply Qle_bool_iff in Hle. by apply Qle_not_lt in Hle. }
  rewrite (comprehension_all _ (MkPopulationConfiguration 1 (_Ne self) 0))
    by done.
  by rewrite length_fmap, length_seq.
Qed.

(** With a tip or more: for a [mut] of zero there is no [Ne] to read, an
    [Ne] that is not positive is refused by the library at the first
    population, and otherwise there is a population for every tip. *)
Lemma get_popconfig_cases (self : Coalseq) :
  (0 < self_ntips self)%nat →
  _get_popconfig self =
    if Qeq_bool (_mut self) 0 then inl ZeroDivisionError
    else if Qle_bool (_Ne self) 0 then inl ValueError
    else inr (replicate (self_ntips self) (MkPopulationConfiguration 1 (_Ne self) 0)).
Proof.
  intros Hk. unfold _get_popconfig, range, eval_Ne.
  destruct (Qeq_bool (_mut self) 0) eqn:Hmut.
  { destruct (self_ntips self) as [|k]; [lia|done]. }
  destruct (Qle_bool (_Ne self) 0) eqn:HNe.
  { destruct (self_ntips self) as [|k]; [lia|].
    cbn [seq fmap list_fmap comprehension]. unfold population_configuration.
    by rewrite HNe. }
  rewrite (comprehension_all _ (MkPopulationConfiguration 1 (_Ne self) 0)).
  - by rewrite length_fmap, length_seq.
  - intros _. unfold population_configuration. by rewrite HNe.
Qed.

(** X15.  For a positive [Ne], and when the indices of the tree are those of
    a tree of [ntips] tips, [_get_popconfig] returns one population for
    every tip, and the source and the destination of every event of
    [_get_demography] are positions in that list, the destination not above
    the source. *)
Theorem events_name_populations
    (set_order : list MassMigration → list MassMigration) (self : Coalseq) :
  (∀ l, set_order l ≡ₚ l) →
  (0 < _Ne self)%Q →
  tips_numbered (self_ntips self) (tree self) →
  ∃ (demog : list MassMigration) (pops : list PopulationConfiguration),
    _get_demography set_order self = Some demog ∧
    _get_popconfig self = inr pops ∧
    length pops = self_ntips self ∧
    Forall (λ e, 0 ≤ dest e ∧ dest e ≤ source e ∧
                 is_Some (pops !! Z.to_nat (dest e)) ∧
                 is_Some (pops !! Z.to_nat (source e))) demog.
Proof.
  intros Hperm HNe Hnum. eexists _, _.
  split; [by apply get_demography_fold, positive_Ne_of_mut|].
  split; [by apply get_popconfig_run|].
  split; [apply length_replicate|].
  apply Forall_forall. intros e He. rewrite sorted_perm, Hperm in He.
  apply foldl_add_event_elem in He as [He|(n & Hn & Hc & ->)];
    [by apply elem_of_nil in He|].
  rewrite traverse_perm in Hn.
  assert (Hcs : children n ≠ []).
  { unfold has_children, is_leaf in Hc. by destruct (children n). }
  destruct (node_key_children n Hcs) as (a & b & Ha & Hb & Hkey & Hrange).
  unfold node_key in Hkey. injection Hkey as Hs Hd.
  unfold event_of. cbn [source dest]. rewrite Hs, Hd.
  assert (Hra : 0 ≤ schild_value a < Z.of_nat (self_ntips self)).
  { apply schild_value_range, (tips_numbered_sub _ (tree self)); [done|].
    apply (nodes_trans _ n); [done|]. by apply (nodes_child n a), nodes_self. }
  assert (Hrb : 0 ≤ schild_value b < Z.of_nat (self_ntips self)).
  { apply schild_value_range, (tips_numbered_sub _ (tree self)); [done|].
    apply (nodes_trans _ n); [done|]. by apply (nodes_child n b), nodes_self. }
  pose proof (Hrange a Ha) as [_ Hab].
  repeat split; try lia; apply lookup_lt_is_Some; rewrite length_replicate; lia.
Qed.

Lemma events_name_populations_witness :
  ∃ (demog : list MassMigration) (pops : list PopulationConfiguration),
    _get_demography reverse sample_self = Some demog ∧
    _get_popconfig sample_self = inr pops ∧
    length pops = self_ntips sample_self ∧
    Forall (λ e, 0 ≤ dest e ∧ dest e ≤ source e ∧
                 is_Some (pops !! Z.to_nat (dest e)) ∧
                 is_Some (pops !! Z.to_nat (source e)))
      demog.
Proof.
  apply (events_name_populations reverse sample_self).
  - intros l. apply reverse_Permutation.
  - reflexivity.
  - intros n Hn. vm_compute in Hn.
    repeat (apply elem_of_cons in Hn as [->|Hn]; [vm_compute; split; [discriminate|try done]|]).
    by apply elem_of_nil in Hn.
Defined.

(** *** The order of the result *)

Lemma by_time_trans : Transitive (λ a b : MassMigration, by_time a b = true).
Proof.
  intros a b c. unfold by_time. rewrite !Qle_bool_iff. apply Qle_trans.
Qed.

(** X16.  The list returned does not depend on the order in which the set
    is enumerated when no two nodes with children have the same height and
    [_Ne] is not zero.  The statement keeps to runs whose times are computed
    without rounding ([exact_times]): there the rationals are the floats of
    the code, and heights that differ give times that differ. *)
Theorem demography_order_independent
    (order1 order2 : list MassMigration → list MassMigration) (self : Coalseq) :
  (∀ l, order1 l ≡ₚ l) → (∀ l, order2 l ≡ₚ l) →
  exact_times self →
  ¬ (_Ne self == 0)%Q →
  distinct_heights (tree self) →
  _get_demography order1 self = _get_demography order2 self.
Proof.
  intros H1 H2 _ HNe Hdist.
  rewrite !get_demography_fold by (by apply Ne_of_mut). f_equal.
  set (demog := foldl (add_event (_Ne self)) [] (traverse (tree self))).
  apply (@Sorted_unique_strong _ (λ a b, by_time a b = true) by_time_trans).
  - intros x y Hx Hy Hxy Hyx.
    rewrite sorted_perm, H1 in Hx. rewrite sorted_perm, H2 in Hy.
    apply foldl_add_event_elem in Hx as [Hx|(a & Ha & Hca & ->)];
      [by apply elem_of_nil in Hx|].
    apply foldl_add_event_elem in Hy as [Hy|(b & Hb & Hcb & ->)];
      [by apply elem_of_nil in Hy|].
    unfold by_time, event_of in Hxy, Hyx. cbn [time] in Hxy, Hyx.
    apply Qle_bool_iff in Hxy, Hyx.
    assert (Heq : (height a == height b)%Q).
    { assert (Ht : (height a * 2 * _Ne self == height b * 2 * _Ne self)%Q)
        by (by apply Qle_antisym).
      apply Qmult_inj_r in Ht; [|done]. apply Qmult_inj_r in Ht; [done|].
      discriminate. }
    by rewrite (Hdist a b Ha Hb Hca Hcb Heq).
  - apply sorted_sorted, by_time_total.
  - apply sorted_sorted, by_time_total.
  - by rewrite !sorted_perm, H1, H2.
Qed.

Lemma demography_order_independent_witness :
  _get_demography id exact_self = _get_demography reverse exact_self.
Proof.
  apply (demography_order_independent id reverse exact_self).
  - intros l. reflexivity.
  - intros l. apply reverse_Permutation.
  - split; [|split; [|split]].
    + exists 1, (-1). by vm_compute.
    + exists 1, (-13). by vm_compute.
    + exists 1024. by vm_compute.
    + intros n Hn. vm_compute in Hn.
      repeat (apply elem_of_cons in Hn as [->|Hn];
              [first [by exists 0; vm_compute
                     |by exists 1; vm_compute
                     |by exists 2; vm_compute]|]).
      by apply elem_of_nil in Hn.
  - discriminate.
  - intros a b Ha Hb. vm_compute in Ha, Hb.
    repeat (apply elem_of_cons in Ha as [->|Ha]);
      try (by apply elem_of_nil in Ha);
      repeat (apply elem_of_cons in Hb as [->|Hb]);
      try (by apply elem_of_nil in Hb);
      intros Hca Hcb Hh; try done; try discriminate.
Defined.

(** With two nodes at the same height the order among their events is the
    order of the set: the two cherries of a balanced tree of four tips come
    out either way round. *)
Example tied_events_follow_the_set :
  _get_demography id balanced_self =
    Some [MkMassMigration (1 * 2 * _Ne balanced_self) 1 0;
          MkMassMigration (1 * 2 * _Ne balanced_self) 3 2;
          MkMassMigration (2 * 2 * _Ne balanced_self) 2 0] ∧
  _get_demography reverse balanced_self =
    Some [MkMassMigration (1 * 2 * _Ne balanced_self) 3 2;
          MkMassMigration (1 * 2 * _Ne balanced_self) 1 0;
          MkMassMigration (2 * 2 * _Ne balanced_self) 2 0].
Proof. split; vm_compute; reflexivity. Qed.

(** ** The serializer once more *)

Lemma app_inj_r (s s' t : string) : s +:+ t = s' +:+ t → s = s'.
Proof.
  intros H. apply chars_inj. apply (f_equal list_ascii_of_string) in H.
  rewrite !chars_app in H. by apply app_inv_tail in H.
Qed.

Lemma tree_path_inj (d : string) (i j : Z) : tree_path d i = tree_path d j → i = j.
Proof.
  unfold tree_path. intros H.
  apply String.app_inj in H. apply (String.app_inj "/") in H.
  apply app_inj_r in H. by apply (inj pretty) in H.
Qed.

Lemma tree_path_not_lengths (d : string) (i : Z) : tree_path d i ≠ lengths_path d.
Proof.
  unfold tree_path, lengths_path. rewrite append_assoc. intros H.
  apply String.app_inj in H. discriminate.
Qed.

Lemma tree_files_union (d : string) (trees : list SparseTree) :
  ∀ (counter : Z) (fs : gmap string file),
    tree_files d trees counter fs = tree_files d trees counter ∅ ∪ fs.
Proof.
  induction trees as [|t trees IH]; intros counter fs.
  - simpl. by rewrite (left_id ∅ (∪)).
  - cbn [tree_files]. rewrite IH, (IH _ (<[_ := _]> ∅)).
    by rewrite insert_empty, <- (assoc (∪)), <- insert_union_singleton_l.
Qed.

Lemma insert_union_absorb (T F : gmap string file) (k : string) (v : file) :
  <[k := v]> (T ∪ <[k := v]> (T ∪ F)) = <[k := v]> (T ∪ F).
Proof.
  apply map_eq. intros i. destruct (decide (i = k)) as [->|Hne].
  - by rewrite !lookup_insert_eq.
  - rewrite !lookup_insert_ne, !lookup_union, lookup_insert_ne, lookup_union by done.
    by destruct (T !! i), (F !! i).
Qed.

Lemma write_trees_world (self : Coalseq) (w : world) :
  Forall length_in_range (treeseq self) →
  write_trees self w = (Returned tt, trees_written self w).
Proof.
  intros Hrange. unfold write_trees, trees_written.
  destruct (ensure_dir_run (dirname self +:+ "/ms_genetrees") w) as [Hdir Hfiles].
  erewrite bind_returned; [|exact Hdir].
  erewrite bind_returned; [|by apply write_tree_files_run].
  erewrite bind_returned; [|reflexivity].
  erewrite h5_set_fresh; [|apply lookup_insert_eq|done].
  cbn [files dirs stdout]. by rewrite insert_insert_eq, insert_empty, Hfiles.
Qed.

(** X17.  For interval lengths in the range of the integer type,
    [write_trees] returns from every world, and can be run again: the second
    run returns and leaves the world of the first. *)
Theorem write_trees_rerun (self : Coalseq) (w : world) :
  Forall length_in_range (treeseq self) →
  let first := write_trees self w in
  first.1 = Returned tt ∧
  write_trees self first.2 = (Returned tt, first.2).
Proof.
  intros Hrange first. subst first. rewrite !write_trees_world by done.
  cbn [fst snd]. split; [done|]. f_equal.
  set (d := dirname self +:+ "/ms_genetrees").
  assert (Hthere : made_dir d (trees_written self w) = trees_written self w).
  { unfold made_dir. rewrite ensure_dir_there; [done|].
    apply (path_exists_grows d (made_dir d w)); [apply path_exists_made_dir|done|].
    destruct (ensure_dir_run d w) as [_ ->]. unfold trees_written. cbn [files].
    intros Hd. apply lookup_insert_is_Some'. right.
    rewrite tree_files_union. apply lookup_union_is_Some. by right. }
  unfold trees_written at 1. fold d. rewrite Hthere.
  unfold trees_written. fold d. cbn [files dirs stdout]. f_equal.
  rewrite tree_files_union, (tree_files_union _ _ _ (files w)).
  apply insert_union_absorb.
Qed.

Lemma write_trees_rerun_witness :
  let first := write_trees sample_self empty_world in
  first.1 = Returned tt ∧
  write_trees sample_self first.2 = (Returned tt, first.2).
Proof.
  apply (write_trees_rerun sample_self empty_world).
  repeat constructor; vm_compute; intros; discriminate.
Defined.

Lemma phy_inj (d : string) (i j : Z) :
  d +:+ "/" +:+ str i +:+ ".phy" = d +:+ "/" +:+ str j +:+ ".phy" → i = j.
Proof.
  intros H. apply String.app_inj in H. apply (String.app_inj "/") in H.
  apply app_inj_r in H. by apply (inj pretty) in H.
Qed.

Lemma tree_files_other (d : string) (trees : list SparseTree) (p : string) :
  ∀ (counter : Z) (fs : gmap string file),
    (∀ j, counter ≤ j → d +:+ "/" +:+ str j +:+ ".phy" ≠ p) →
    tree_files d trees counter fs !! p = fs !! p.
Proof.
  induction trees as [|t trees IH]; intros counter fs Hp; [done|].
  cbn [tree_files]. rewrite IH by (intros j Hj; apply Hp; lia).
  apply lookup_insert_ne. apply Hp. lia.
Qed.

Lemma tree_files_lookup (d : string) (trees : list SparseTree) :
  ∀ (k : nat) (t : SparseTree) (counter : Z) (fs : gmap string file),
    trees !! k = Some t →
    tree_files d trees counter fs !! (d +:+ "/" +:+ str (counter + Z.of_nat k) +:+ ".phy")
      = Some (Text (newick t)).
Proof.
  induction trees as [|t0 trees IH]; intros k t counter fs Hk; [done|].
  cbn [tree_files]. destruct k as [|k].
  - injection Hk as ->. rewrite Z.add_0_r, tree_files_other.
    + apply lookup_insert_eq.
    + intros j Hj Heq. apply phy_inj in Heq. lia.
  - replace (counter + Z.of_nat (S k)) with (counter + 1 + Z.of_nat k) by lia.
    by apply IH.
Qed.

(** X18.  For interval lengths in the range of the integer type, the file of
    tree [i] holds the Newick text of that tree after [write_trees]. *)
Theorem tree_files_read_back (self : Coalseq) (w : world) (i : nat)
    (t : SparseTree) :
  Forall length_in_range (treeseq self) →
  treeseq self !! i = Some t →
  let w' := (write_trees self w).2 in
  read_text (tree_path (dirname self) (Z.of_nat i)) w' = (Returned (newick t), w').
Proof.
  intros Hrange Hi w'. subst w'. rewrite write_trees_world by done. cbn [snd].
  unfold read_text, trees_written. cbn [files].
  rewrite lookup_insert_ne by (apply not_eq_sym, tree_path_not_lengths).
  unfold tree_path.
  by rewrite (tree_files_lookup _ _ i t 0 (files w) Hi).
Qed.

Lemma tree_files_read_back_witness :
  let w' := (write_trees sample_self empty_world).2 in
  read_text (tree_path (dirname sample_self) (Z.of_nat 1)) w'
    = (Returned (newick (MkSparseTree "((1,3),2);" (7 # 2))), w').
Proof.
  apply (tree_files_read_back sample_self empty_world 1
           (MkSparseTree "((1,3),2);" (7 # 2))).
  - repeat constructor; vm_compute; intros; discriminate.
  - reflexivity.
Defined.

(** An interval too long for the integer type ends the run after its tree
    has been written: the later trees and the table of lengths are not. *)
Example long_interval_overflows :
  let self := MkCoalseq "tester" 2 (1 # 2) (1 # 8192) (tip 0)
                [MkSparseTree "(1,2);" 3; MkSparseTree "(2,1);" (inject_Z (2 ^ 63));
                 MkSparseTree "(1,2);" 2] in
  let run := write_trees self empty_world in
  run.1 = Raised OverflowError ∧
  files run.2 !! tree_path "tester" 1 = Some (Text "(2,1);") ∧
  files run.2 !! tree_path "tester" 2 = None ∧
  files run.2 !! lengths_path "tester" = None.
Proof. repeat split; vm_compute; reflexivity. Qed.

(** ** The loop of the sequence generator *)

Lemma str_slice_extension (s ext : string) :
  String.length ext = 4%nat → str_slice (s +:+ ext) 0 (-4) = s.
Proof.
  intros Hext. unfold str_slice, slice, slice_bound.
  rewrite chars_app, length_app, !chars_length, Hext.
  change (-4 <? 0) with true. change (0 <? 0) with false. cbv iota.
  rewrite Z.min_l, Z.max_r, Z.sub_0_r by lia.
  change (Z.to_nat 0) with 0%nat. rewrite drop_0.
  replace (Z.to_nat (-4 + Z.of_nat (String.length s + 4)))
    with (length (list_ascii_of_string s)) by (rewrite chars_length; lia).
  by rewrite take_app_length, string_of_list_ascii_of_string.
Qed.

Lemma vector_item_lookup (v : list Z) (k : nat) (x : Z) :
  v !! k = Some x → vector_item v (Z.of_nat k) = inr x.
Proof.
  intros Hk. pose proof (lookup_lt_Some _ _ _ Hk) as Hlt.
  unfold vector_item.
  destruct (Z.ltb_spec (Z.of_nat k) 0) as [?|_]; [lia|].
  destruct (Z.leb_spec 0 (Z.of_nat k)) as [_|?]; [|lia].
  destruct (Z.ltb_spec (Z.of_nat k) (Z.of_nat (length v))) as [_|?]; [|lia].
  simpl. by rewrite Nat2Z.id, Hk.
Qed.

(** X19.  For interval lengths in the range of the integer type: after
    [write_trees], the turn of the loop of [write_seqs] for the file of tree
    [k] hands to the generator that file, the length of interval [k] with
    its fraction dropped as its [-l] option, and the fragment file that
    [build_seqs] reads as fragment [k]. *)
Theorem seqgen_call_for_tree (self : Coalseq) (w : world) (k : nat)
    (t : SparseTree) :
  Forall length_in_range (treeseq self) →
  treeseq self !! k = Some t →
  let w' := (write_trees self w).2 in
  ∃ lengths : list Z,
    load_lengths self w' = (Returned (IntVector lengths), w') ∧
    seqgen_call_of (dirname self) lengths (str (Z.of_nat k) +:+ ".phy") =
      inr (MkSeqgenCall (tree_path (dirname self) (Z.of_nat k))
             (str (Qfloor (get_length t)))
             (fragment_path (dirname self) (Z.of_nat k))).
Proof.
  intros Hrange Hk w'. exists (stored_lengths (treeseq self)). split.
  - subst w'. rewrite write_trees_world by done. cbn [snd].
    apply load_lengths_run.
    unfold trees_written. cbn [files]. apply lookup_insert_eq.
  - unfold seqgen_call_of. rewrite str_slice_extension by done.
    rewrite int_str.
    rewrite (vector_item_lookup _ k (Qfloor (get_length t))).
    2: { unfold stored_lengths. rewrite list_lookup_fmap, Hk. cbn [fmap option_fmap option_map].
         rewrite Forall_forall in Hrange.
         destruct (Hrange t) as [H0 _]; [by eapply list_elem_of_lookup_2|].
         by rewrite truncate_floor. }
    unfold tree_path, fragment_path. by rewrite !append_assoc.
Qed.

Lemma seqgen_call_for_tree_witness :
  let w' := (write_trees sample_self empty_world).2 in
  ∃ lengths : list Z,
    load_lengths sample_self w' = (Returned (IntVector lengths), w') ∧
    seqgen_call_of (dirname sample_self) lengths (str (Z.of_nat 1) +:+ ".phy") =
      inr (MkSeqgenCall (tree_path (dirname sample_self) (Z.of_nat 1))
             (str (Qfloor (get_length (MkSparseTree "((1,3),2);" (7 # 2)))))
             (fragment_path (dirname sample_self) (Z.of_nat 1))).
Proof.
  apply (seqgen_call_for_tree sample_self empty_world 1
           (MkSparseTree "((1,3),2);" (7 # 2))).
  - repeat constructor; vm_compute; intros; discriminate.
  - reflexivity.
Defined.

(** ** The order of lines *)

Lemma string_compare_refl (s : string) : String.compare s s = Eq.
Proof.
  induction s as [|a s IH]; [done|]. simpl.
  unfold Ascii.compare. by rewrite N.compare_refl.
Qed.







(** ** Fragment files *)




Lemma header_no_newline (n len : Z) :
  no_newline (" " +:+ str n +:+ " " +:+ str len).
Proof.
  unfold no_newline. rewrite !chars_app.
  apply Forall_app. split; [by constructor|].
  apply Forall_app. split; [by apply str_without|].
  apply Forall_app. split; [by constructor|by apply str_without].
Qed.




(** ** The assembler on fragments as the generator writes them *)










Lemma zip_with_app_widths {A} (a b : Z) (rows xs : list (list A)) :
  Forall (λ r, Z.of_nat (length r) = a) rows →
  Forall (λ x, Z.of_nat (length x) = b) xs →
  Forall (λ y, Z.of_nat (length y) = a + b) (zip_with app rows xs).
Proof.
  intros Hrows. revert xs.
  induction Hrows as [|r rows Hr _ IH]; intros [|x xs] Hxs; simpl; try done.
  apply Forall_cons in Hxs as [Hx Hxs]. constructor; [|by apply IH].
  rewrite length_app. lia.
Qed.

Lemma sum_Z_cons (x : Z) (l : list Z) : sum_Z (x :: l) = x + sum_Z l.
Proof. done. Qed.

Lemma concatenated_widths (ntips : nat) (frags : list fragment_data) :
  Forall (λ f, Forall (λ r, Z.of_nat (length r) = frag_len f) (frag_rows f)) frags →
  Forall (λ r, Z.of_nat (length r) = sum_Z (frag_len <$> frags))
    (concatenated ntips frags).
Proof.
  induction 1 as [|f frags Hf _ IH].
  - simpl. by apply Forall_replicate.
  - cbn [concatenated fmap list_fmap]. rewrite sum_Z_cons.
    by apply zip_with_app_widths.
Qed.

Section Fragments.

Variables (d : string) (w : world) (ntips : nat).






(** The second loop, for at most nine tips. *)
Hypothesis Hnine : (ntips ≤ 9)%nat.


End Fragments.

(** *** The whole alignment *)





Example two_tips_alignment :
  alignment_text 2 (sum_Z (frag_len <$> two_tips_fragments))
    (concatenated 2 two_tips_fragments)
  = fragment [" 2 5"; "1         "; "AAAGG"; "2         "; "CCCTT"].
Proof. vm_compute. reflexivity. Qed.

(** ** What the assembler leaves behind *)

Lemma reads_only_bind {A B} (m : M A) (f : A → M B) :
  reads_only m → (∀ a, reads_only (f a)) → reads_only (bind m f).
Proof.
  intros Hm Hf w. unfold bind. specialize (Hm w).
  destruct (m w) as [[a|e|] w1]; simpl in *; subst; [apply Hf|done..].
Qed.

Lemma reads_only_lift {A} (r : exn + A) : reads_only (lift r).
Proof. by destruct r. Qed.

Lemma reads_only_read_text (p : string) : reads_only (read_text p).
Proof. intros w. unfold read_text. by destruct (files w !! p) as [[]|]. Qed.

Lemma reads_only_count_columns (d : string) (range : list Z) :
  ∀ seq_len : Z, reads_only (count_columns d range seq_len).
Proof.
  induction range as [|i range IH]; intros seq_len; [done|].
  cbn [count_columns].
  apply reads_only_bind; [apply reads_only_read_text|]. intros text.
  apply reads_only_bind; [apply reads_only_lift|]. intros tst.
  apply reads_only_bind; [|done].
  destruct (header_length tst); [|done]. by intros w.
Qed.

Lemma reads_only_fill_fragments (d : string) (range : list Z) :
  ∀ (seq_arr : list (list ascii)) (counter : Z),
    reads_only (fill_fragments d range seq_arr counter).
Proof.
  induction range as [|i range IH]; intros seq_arr counter; [done|].
  cbn [fill_fragments].
  apply reads_only_bind; [apply reads_only_read_text|]. intros text.
  apply reads_only_bind; [apply reads_only_lift|]. intros first.
  apply reads_only_bind; [apply reads_only_lift|]. intros lenseq.
  apply reads_only_bind; [apply reads_only_lift|]. intros seq_arr'.
  apply IH.
Qed.

Lemma reads_only_assemble (self : Coalseq) : reads_only (assemble self).
Proof.
  unfold assemble.
  apply reads_only_bind; [apply reads_only_count_columns|]. intros seq_len.
  apply reads_only_bind; [apply reads_only_lift|]. intros zeros.
  apply reads_only_bind; [apply reads_only_fill_fragments|]. by intros seq_arr w.
Qed.

Lemma assemble_outcome (self : Coalseq) (w : world) :
  assemble self w = ((assemble self w).1, w).
Proof.
  pose proof (reads_only_assemble self w) as H.
  destruct (assemble self w) as [o w1]. simpl in *. by subst.
Qed.

(** The part of [build_seqs] behind the two loops. *)
Lemma write_fa_returns (p header : string) (seqs : list string) (w : world) :
  ∃ w' : world,
    (open_w p ;;; f_write p header ;;; f_write p nl ;;; write_taxa p 0 seqs) w
      = (Returned tt, w').
Proof.
  erewrite bind_returned; [|reflexivity].
  erewrite bind_returned; [|by apply f_write_run, lookup_insert_eq].
  erewrite bind_returned; [|by apply f_write_run, lookup_insert_eq].
  eexists. apply write_taxa_run. apply lookup_insert_eq.
Qed.

Lemma store_table_outcome (p : string) (ds : dataset) (w : world) :
  (∃ w1, (h5_open p ;;; h5_set p "alignment" ds) w = (Returned tt, w1)) ∨
  (∃ e, (h5_open p ;;; h5_set p "alignment" ds) w = (Raised e, w)).
Proof.
  unfold bind, h5_open, h5_set.
  destruct (files w !! p) as [[s|d]|] eqn:Hp; cbn [files].
  - right. by eexists.
  - rewrite Hp. destruct (d !! "alignment"); [right|left]; by eexists.
  - rewrite lookup_insert_eq, lookup_empty. left. by eexists.
Qed.

(** X21.  A run of [build_seqs] that does not return leaves the world as it
    found it: nothing is written and nothing is printed. *)
Theorem build_seqs_all_or_nothing (self : Coalseq) (filename : string)
    (hdf5 : bool) (w : world) :
  let run := build_seqs self filename hdf5 w in
  run.1 ≠ Returned tt → run.2 = w.
Proof.
  intros run. subst run. unfold build_seqs.
  pose proof (reads_only_assemble self w) as Hw.
  destruct (assemble self w) as [[arr|e'|] w1] eqn:Hasm; simpl in Hw; subst w1.
  2: { erewrite bind_raised; [|exact Hasm]. done. }
  2: { erewrite bind_out_of_fuel; [|exact Hasm]. done. }
  erewrite bind_returned; [|exact Hasm]. destruct hdf5; cbn [negb].
  - destruct (store_table_outcome
                (dirname self +:+ "/" +:+ filename +:+ ".hdf5")
                (CharTable (Z.to_nat arr.1) arr.2) w) as [[w1 Hrun]|[e Hrun]].
    + erewrite bind_returned; [|exact Hrun]. cbn [fst]. by intros [].
    + erewrite bind_raised; [|exact Hrun]. done.
  - destruct (write_fa_returns (dirname self +:+ "/" +:+ filename +:+ ".fa")
                (" " +:+ str (Z.of_nat (self_ntips self)) +:+ " " +:+ str arr.1)
                (string_of_list_ascii <$> arr.2) w) as [w1 Hw1].
    erewrite bind_returned; [|exact Hw1]. cbn [fst]. by intros [].
Qed.

Lemma build_seqs_all_or_nothing_witness :
  let run := build_seqs sample_self "final_seqs" false malformed_world in
  run.2 = malformed_world.
Proof.
  apply (build_seqs_all_or_nothing sample_self "final_seqs" false malformed_world).
  vm_compute. discriminate.
Defined.

(** *** Missing fragments and empty runs *)

(** X22.  When the headers of the fragments before [i] can be read and there
    is no file for fragment [i], [build_seqs] raises [IOError] and writes
    nothing. *)
Theorem build_seqs_missing_fragment (self : Coalseq) (filename : string)
    (hdf5 : bool) (w : world) (i : nat) :
  (i < num_trees self)%nat →
  (∀ j : nat, (j < i)%nat → header_parses (dirname self) w (Z.of_nat j)) →
  files w !! fragment_path (dirname self) (Z.of_nat i) = None →
  build_seqs self filename hdf5 w = (Raised IOError, w).
Proof.
  intros Hi Hbefore Hnone.
  assert (Hpre : Forall (header_parses (dirname self) w) (range i)).
  { unfold range. apply Forall_fmap, Forall_forall. intros j Hj.
    apply elem_of_seq in Hj. apply Hbefore. lia. }
  destruct (count_columns_skip _ _ _ Hpre 0) as [seq_len Hskip].
  unfold build_seqs, assemble.
  erewrite bind_raised; [reflexivity|].
  erewrite bind_raised; [reflexivity|].
  rewrite (range_split _ i Hi), Hskip. cbn [count_columns].
  erewrite bind_raised; [reflexivity|].
  unfold read_text. by rewrite Hnone.
Qed.

Lemma build_seqs_missing_fragment_witness :
  build_seqs sample_self "final_seqs" true ten_tips_world
    = (Raised IOError, ten_tips_world).
Proof.
  apply (build_seqs_missing_fragment sample_self "final_seqs" true
           ten_tips_world 1).
  - unfold num_trees. simpl. lia.
  - intros j Hj. assert (j = 0%nat) as -> by lia.
    eexists _, _. split; [eexists; split; vm_compute; reflexivity|].
    vm_compute. reflexivity.
  - reflexivity.
Defined.

(** X23.  A run without trees writes an alignment of length zero: the
    header and, for every tip, the line of its label and an empty line. *)
Theorem build_seqs_no_trees (self : Coalseq) (filename : string) (w : world) :
  treeseq self = [] →
  build_seqs self filename false w =
    (Returned tt,
     World (<[dirname self +:+ "/" +:+ filename +:+ ".fa"
              := Text (alignment_text (self_ntips self) 0
                         (replicate (self_ntips self) []))]> (files w))
           (dirs w) (stdout w ++ ["Written full alignment."])).
Proof.
  intros Hnone. unfold build_seqs, assemble, num_trees. rewrite Hnone.
  cbn [length range seq fmap list_fmap count_columns fill_fragments].
  erewrite bind_returned; [|reflexivity]. cbn [negb fst snd].
  erewrite bind_returned.
  2: { erewrite bind_returned; [|reflexivity].
       erewrite bind_returned; [|by apply f_write_run, lookup_insert_eq].
       erewrite bind_returned; [|by apply f_write_run, lookup_insert_eq].
       apply write_taxa_run. apply lookup_insert_eq. }
  unfold print. cbn [files dirs stdout]. rewrite !insert_insert_eq.
  unfold alignment_text. by rewrite append_empty_l, !append_assoc.
Qed.

Lemma build_seqs_no_trees_witness :
  build_seqs star_self "final_seqs" false empty_world =
    (Returned tt,
     World (<[dirname star_self +:+ "/" +:+ "final_seqs" +:+ ".fa"
              := Text (alignment_text (self_ntips star_self) 0
                         (replicate (self_ntips star_self) []))]>
              (files empty_world))
           (dirs empty_world) (stdout empty_world ++ ["Written full alignment."])).
Proof.
  apply (build_seqs_no_trees star_self "final_seqs" empty_world).
  reflexivity.
Defined.

(** ** The shape of the array *)

Lemma assign_slice_length (row row' values : list ascii) (start stop : Z) :
  assign_slice row start stop values = inr row' → length row' = length row.
Proof.
  unfold assign_slice.
  pose proof (slice_bound_range (Z.of_nat (length row)) start ltac:(lia)) as Ha.
  pose proof (slice_bound_range (Z.of_nat (length row)) stop ltac:(lia)) as Hb.
  set (a := slice_bound _ start) in *. set (b := slice_bound _ stop) in *.
  intros H.
  assert (Hlen : ∀ vs : list ascii, length vs = Z.to_nat (b - a) →
            length (take (Z.to_nat a) row ++ vs
                      ++ drop (Z.to_nat a + Z.to_nat (b - a)) row) = length row).
  { intros vs Hvs. rewrite !length_app, length_take, length_drop, Hvs. lia. }
  case_bool_decide as Hm.
  - injection H as <-. by apply Hlen.
  - destruct values as [|v [|]]; try discriminate. injection H as <-.
    apply Hlen. by rewrite length_replicate.
Qed.

Lemma fill_rows_shape (nrows ncols : nat) (myseq : list string) (c len : Z) :
  ∀ (seq_arr seq_arr' : list (list ascii)) (idx : nat),
    fill_rows seq_arr idx myseq c len = inr seq_arr' →
    has_shape nrows ncols seq_arr → has_shape nrows ncols seq_arr'.
Proof.
  induction myseq as [|s myseq IH]; intros seq_arr seq_arr' idx H Hshape.
  - by injection H as <-.
  - cbn [fill_rows] in H.
    destruct (seq_arr !! idx) as [row|] eqn:Hrow; [|discriminate].
    destruct (assign_slice row c (c + len) _) as [e|row'] eqn:Hassign;
      [discriminate|].
    apply (IH _ _ _ H). destruct Hshape as [Hn Hcols]. split.
    + by rewrite length_insert.
    + apply Forall_insert; [done|].
      rewrite (assign_slice_length _ _ _ _ _ Hassign).
      rewrite Forall_forall in Hcols. by apply Hcols, (list_elem_of_lookup_2 _ idx).
Qed.

Lemma lift_inv {A} (r : exn + A) (a : A) (w w' : world) :
  lift r w = (Returned a, w') → r = inr a ∧ w' = w.
Proof. destruct r; [discriminate|]. by intros [= <- <-]. Qed.

Lemma fill_fragments_shape (nrows ncols : nat) (d : string) (range : list Z) :
  ∀ (seq_arr seq_arr' : list (list ascii)) (counter : Z) (w w' : world),
    fill_fragments d range seq_arr counter w = (Returned seq_arr', w') →
    has_shape nrows ncols seq_arr → has_shape nrows ncols seq_arr'.
Proof.
  induction range as [|i range IH]; intros seq_arr seq_arr' counter w w' H Hshape.
  - by injection H as <- _.
  - cbn [fill_fragments] in H.
    apply bind_inv in H as (text & w1 & _ & H).
    apply bind_inv in H as (first & w2 & _ & H).
    apply bind_inv in H as (lenseq & w3 & _ & H).
    apply bind_inv in H as (arr1 & w4 & Hfill & H).
    apply lift_inv in Hfill as [Hfill _].
    apply (IH _ _ _ _ _ H). by apply (fill_rows_shape _ _ _ _ _ _ _ _ Hfill).
Qed.

Lemma assemble_shape (self : Coalseq) (w w' : world) (seq_len : Z)
    (seq_arr : list (list ascii)) :
  assemble self w = (Returned (seq_len, seq_arr), w') →
  0 ≤ seq_len ∧ has_shape (self_ntips self) (Z.to_nat seq_len) seq_arr.
Proof.
  unfold assemble. intros H.
  apply bind_inv in H as (n & w1 & _ & H).
  apply bind_inv in H as (zeros & w2 & Hzeros & H).
  apply bind_inv in H as (arr & w3 & Hfill & H).
  injection H as <- <- <-.
  apply lift_inv in Hzeros as [Hzeros _]. unfold np_zeros in Hzeros.
  destruct (Z.ltb_spec n 0) as [?|Hn]; [discriminate|]. injection Hzeros as <-.
  split; [done|]. apply (fill_fragments_shape _ _ _ _ _ _ _ _ _ Hfill).
  split; [by rewrite length_replicate|].
  apply Forall_replicate. by rewrite length_replicate.
Qed.

(** X24.  The table that [build_seqs] stores has a row for every tip and, in
    every row, a column for every site counted in the headers: it is what
    [produce_subseqs] reads its total length from. *)
Theorem build_seqs_table_shape (self : Coalseq) (filename : string)
    (w w' : world) :
  build_seqs self filename true w = (Returned tt, w') →
  ∃ (tables : gmap string dataset) (ncols : nat) (rows : list (list ascii)),
    holds_tables (dirname self +:+ "/" +:+ filename +:+ ".hdf5") tables w' ∧
    tables !! "alignment" = Some (CharTable ncols rows) ∧
    table_wf (CharTable ncols rows) ∧
    shape0 (CharTable ncols rows) = Z.of_nat (self_ntips self) ∧
    (count_columns (dirname self) (range (num_trees self)) 0 w).1
      = Returned (Z.of_nat ncols).
Proof.
  unfold build_seqs. intros H.
  apply bind_inv in H as ([seq_len seq_arr] & w1 & Hasm & H).
  apply bind_inv in H as ([] & w2 & Hstore & Hprint). cbn [negb fst snd] in Hstore.
  apply bind_inv in Hstore as ([] & w3 & _ & Hset).
  apply h5_set_inv in Hset as (d0 & _ & Hfiles).
  unfold print in Hprint. injection Hprint as <-.
  destruct (assemble_shape _ _ _ _ _ Hasm) as [Hlen [Hrows Hcols]].
  exists (<["alignment" := CharTable (Z.to_nat seq_len) seq_arr]> d0),
    (Z.to_nat seq_len), seq_arr.
  split; [|split; [|split; [|split]]].
  - unfold holds_tables. cbn [files]. rewrite Hfiles. apply lookup_insert_eq.
  - apply lookup_insert_eq.
  - exact Hcols.
  - simpl. by rewrite Hrows.
  - unfold assemble in Hasm.
    apply bind_inv in Hasm as (n & w4 & Hcount & Hasm).
    apply bind_inv in Hasm as (zeros & w5 & _ & Hasm).
    apply bind_inv in Hasm as (arr & w6 & _ & Hasm).
    injection Hasm as <- _ _. rewrite Hcount. cbn [fst]. f_equal. lia.
Qed.

Lemma build_seqs_table_shape_witness :
  ∃ (tables : gmap string dataset) (ncols : nat) (rows : list (list ascii)),
    holds_tables (dirname two_tips_self +:+ "/" +:+ "final_seqs" +:+ ".hdf5")
      tables (build_seqs two_tips_self "final_seqs" true two_tips_world).2 ∧
    tables !! "alignment" = Some (CharTable ncols rows) ∧
    table_wf (CharTable ncols rows) ∧
    shape0 (CharTable ncols rows) = Z.of_nat (self_ntips two_tips_self) ∧
    (count_columns (dirname two_tips_self) (range (num_trees two_tips_self)) 0
       two_tips_world).1 = Returned (Z.of_nat ncols).
Proof.
  apply (build_seqs_table_shape two_tips_self "final_seqs" two_tips_world).
  vm_compute. reflexivity.
Defined.

(** ** The assembler run twice *)

Lemma reads_only_outcome {A} (m : M A) (w : world) :
  reads_only m → m w = ((m w).1, w).
Proof. intros H. specialize (H w). destruct (m w) as [o w1]. simpl in *. by subst. Qed.

Lemma bind_outcome {A B} (m : M A) (f : A → M B) (w : world) :
  reads_only m →
  (bind m f w).1 = match (m w).1 with
                   | Returned a => (f a w).1
                   | Raised e => Raised e
                   | OutOfFuel => OutOfFuel
                   end.
Proof.
  intros Hm. unfold bind. rewrite (reads_only_outcome m w Hm).
  by destruct (m w).1.
Qed.

Lemma lift_outcome {A} (r : exn + A) (w : world) :
  (lift r w).1 = match r with inl e => Raised e | inr a => Returned a end.
Proof. by destruct r. Qed.

Lemma read_text_frame (d : string) (w1 w2 : world) (i : Z) :
  same_fragments d w1 w2 →
  (read_text (fragment_path d i) w1).1 = (read_text (fragment_path d i) w2).1.
Proof.
  intros Hsame. unfold read_text. rewrite (Hsame i).
  by destruct (files w2 !! fragment_path d i) as [[]|].
Qed.

Lemma count_columns_frame (d : string) (w1 w2 : world) (range : list Z) :
  same_fragments d w1 w2 →
  ∀ seq_len : Z,
    (count_columns d range seq_len w1).1 = (count_columns d range seq_len w2).1.
Proof.
  intros Hsame. induction range as [|i range IH]; intros seq_len; [done|].
  cbn [count_columns]. rewrite !bind_outcome by apply reads_only_read_text.
  rewrite (read_text_frame d w1 w2 i Hsame).
  destruct (read_text _ w2).1 as [text|e|]; [|done..].
  rewrite !bind_outcome by apply reads_only_lift. rewrite !lift_outcome.
  destruct (index (split "010" text) 0) as [e|tst]; [done|].
  destruct (header_length tst) as [e|n].
  - by rewrite !bind_outcome by done.
  - rewrite !bind_outcome by done. apply IH.
Qed.

Lemma fill_fragments_frame (d : string) (w1 w2 : world) (range : list Z) :
  same_fragments d w1 w2 →
  ∀ (seq_arr : list (list ascii)) (counter : Z),
    (fill_fragments d range seq_arr counter w1).1
      = (fill_fragments d range seq_arr counter w2).1.
Proof.
  intros Hsame. induction range as [|i range IH]; intros seq_arr counter; [done|].
  cbn [fill_fragments]. rewrite !bind_outcome by apply reads_only_read_text.
  rewrite (read_text_frame d w1 w2 i Hsame).
  destruct (read_text _ w2).1 as [text|e|]; [|done..].
  rewrite !bind_outcome by apply reads_only_lift. rewrite !lift_outcome.
  destruct (index _ 0) as [e|first]; [done|].
  rewrite !bind_outcome by apply reads_only_lift. rewrite !lift_outcome.
  destruct (header_length first) as [e|lenseq]; [done|].
  rewrite !bind_outcome by apply reads_only_lift. rewrite !lift_outcome.
  destruct (fill_rows _ _ _ _ _) as [e|seq_arr']; [done|]. apply IH.
Qed.

Lemma assemble_frame (self : Coalseq) (w1 w2 : world) :
  same_fragments (dirname self) w1 w2 →
  (assemble self w1).1 = (assemble self w2).1.
Proof.
  intros Hsame. unfold assemble.
  rewrite !bind_outcome by apply reads_only_count_columns.
  rewrite (count_columns_frame _ w1 w2 _ Hsame).
  destruct (count_columns _ _ _ w2).1 as [seq_len|e|]; [|done..].
  rewrite !bind_outcome by apply reads_only_lift. rewrite !lift_outcome.
  destruct (np_zeros _ _) as [e|zeros]; [done|].
  rewrite !bind_outcome by apply reads_only_fill_fragments.
  rewrite (fill_fragments_frame _ w1 w2 _ Hsame).
  by destruct (fill_fragments _ _ _ _ w2).1.
Qed.

Lemma table_path_not_fragment (d filename : string) (i : Z) :
  d +:+ "/" +:+ filename +:+ ".hdf5" ≠ fragment_path d i.
Proof.
  unfold fragment_path. intros H. apply String.app_inj in H.
  apply (f_equal list_ascii_of_string) in H. rewrite !chars_app in H.
  apply (f_equal reverse) in H. rewrite !reverse_app in H. discriminate.
Qed.

(** X25.  The table cannot be stored twice under one name: after a run that
    returned, the same run raises [RuntimeError] and changes nothing. *)
Theorem build_seqs_table_rerun (self : Coalseq) (filename : string)
    (w w' : world) :
  build_seqs self filename true w = (Returned tt, w') →
  build_seqs self filename true w' = (Raised RuntimeError, w').
Proof.
  unfold build_seqs. intros H.
  apply bind_inv in H as (arr & w1 & Hasm & H).
  apply bind_inv in H as ([] & w2 & Hstore & Hprint). cbn [negb] in Hstore.
  apply bind_inv in Hstore as ([] & w3 & Hopen & Hset).
  apply h5_set_inv in Hset as (d0 & _ & Hfiles).
  unfold print in Hprint. injection Hprint as <-.
  pose proof (reads_only_assemble self w) as Hw. rewrite Hasm in Hw.
  simpl in Hw. subst w1.
  set (p := dirname self +:+ "/" +:+ filename +:+ ".hdf5") in *.
  set (w' := World (files w2) (dirs w2) (stdout w2 ++ ["Written full alignment."])).
  assert (Hsame : same_fragments (dirname self) w' w).
  { intros i. unfold w'. cbn [files].
    rewrite Hfiles, lookup_insert_ne by apply table_path_not_fragment.
    pose proof (keeps_h5_open p (fragment_path (dirname self) i)
                  (table_path_not_fragment _ _ _) w) as Hkeep.
    by rewrite Hopen in Hkeep. }
  assert (Hasm' : assemble self w' = (Returned arr, w')).
  { rewrite (reads_only_outcome _ w' (reads_only_assemble self)).
    by rewrite (assemble_frame self w' w Hsame), Hasm. }
  assert (Hp : files w' !! p
               = Some (Hdf5 (<["alignment" := CharTable (Z.to_nat arr.1) arr.2]> d0))).
  { unfold w'. cbn [files]. rewrite Hfiles. apply lookup_insert_eq. }
  erewrite bind_returned; [|exact Hasm']. cbn [negb].
  erewrite bind_raised; [reflexivity|].
  erewrite bind_returned; [|by unfold h5_open; rewrite Hp].
  unfold h5_set. by rewrite Hp, lookup_insert_eq.
Qed.

Lemma build_seqs_table_rerun_witness :
  build_seqs two_tips_self "final_seqs" true
    (build_seqs two_tips_self "final_seqs" true two_tips_world).2
  = (Raised RuntimeError,
     (build_seqs two_tips_self "final_seqs" true two_tips_world).2).
Proof.
  apply (build_seqs_table_rerun two_tips_self "final_seqs" two_tips_world).
  vm_compute. reflexivity.
Defined.

(** ** The header of a window read back *)

(** X11.  For a selection that does not run backwards, [write_subseq]
    returns, and the first line of the file that it writes is read by the
    header reader of [build_seqs] as [endidx - startidx]. *)
Theorem window_header_read_back (full_seq_path output_seq_path : string)
    (startidx endidx : Z) (tables : gmap string dataset)
    (ncols : nat) (rows : list (list ascii)) (w : world) :
  tables !! "alignment" = Some (CharTable ncols rows) →
  holds_tables full_seq_path tables w →
  output_seq_path ≠ full_seq_path →
  in_order (Z.of_nat ncols) startidx endidx →
  ∃ (w' : world) (text tst : string),
    write_subseq full_seq_path output_seq_path startidx endidx w
      = (Returned tt, w') ∧
    read_text output_seq_path w' = (Returned text, w') ∧
    index (split "010" text) 0 = inr tst ∧
    header_length tst = inr (endidx - startidx).
Proof.
  intros Hal Hw Hout Horder.
  eexists _, _, (" " +:+ str (Z.of_nat (length rows)) +:+ " "
                 +:+ str (endidx - startidx)).
  split; [by apply (write_subseq_run full_seq_path tables ncols rows Hal)|].
  split; [unfold read_text; cbn [files]; by rewrite lookup_insert_eq|].
  split; [|apply header_length_str].
  rewrite subseq_text_in_order by done. unfold subseq_header. cbn [shape0].
  set (hdr := " " +:+ str (Z.of_nat (length rows)) +:+ " "
              +:+ str (endidx - startidx)).
  set (rest := taxon_lines 0 _).
  assert ((" " +:+ str (Z.of_nat (length rows)) +:+ " "
           +:+ str (endidx - startidx) +:+ nl) +:+ rest
          = hdr +:+ String "010" rest) as ->.
  { unfold hdr. by rewrite !append_assoc. }
  unfold split. by rewrite split_go_field by apply header_no_newline.
Qed.

Lemma window_header_read_back_witness :
  ∃ (w' : world) (text tst : string),
    write_subseq "tester/final_seqs.hdf5" "slider/0_0_3.fa" 0 3 (sample_world 7)
      = (Returned tt, w') ∧
    read_text "slider/0_0_3.fa" w' = (Returned text, w') ∧
    index (split "010" text) 0 = inr tst ∧
    header_length tst = inr (3 - 0).
Proof.
  apply (window_header_read_back "tester/final_seqs.hdf5" "slider/0_0_3.fa" 0 3
           {[ "alignment" := sample_alignment 7 ]} 7
           [replicate 7 "A"%char; replicate 7 "C"%char] (sample_world 7)).
  - reflexivity.
  - reflexivity.
  - discriminate.
  - by vm_compute.
Defined.

(** ** From the fragments to the windows *)



